(** * md2docx: the content-normalization layer

    A shallow embedding of the three source units that normalize untrusted
    input for the DOCX assembler:

    - the HTML sanitizer ([sanitizeHtml], [sanitizeAndCheck], ...),
    - the image utilities ([getImageDimensions], [calculateImageDimensions],
      [convertPluginResultToDOCX]),
    - the code highlighter ([getHighlightColor], [appendCodeTextRuns],
      [appendHighlightedRunsFromHtml], ...).

    JavaScript strings are sequences of UTF-16 code units, regular expressions
    are run by a backtracking matcher that follows the ECMAScript pattern
    semantics for the constructs the sources use, and numbers are either exact
    (rationals extended with the infinities and NaN) or IEEE binary64. *)

From Stdlib Require Import ZArith NArith QArith Qpower Qround Qminmax Qabs Lia Lqa.
From Stdlib Require Import String Ascii List Bool Floats.
From Stdlib.Strings Require Import Byte.
From stdpp Require Import gmap.
Import ListNotations.
Close Scope Q_scope.
Local Open Scope nat_scope.

(** ** JavaScript strings *)

Module JS.

(** A UTF-16 code unit. *)
Definition char := N.
Bind Scope N_scope with char.
Definition jsstring := list char.

Definition ch (a : ascii) : char := N_of_ascii a.

(** A string literal of the source, as code units. *)
Definition js (s : string) : jsstring := map N_of_ascii (list_ascii_of_string s).

(** The double quote, which cannot be written inside a literal here. *)
Definition dquote : char := 34%N.
Definition squote : char := 39%N.

Definition in_range (lo hi c : char) : bool := (lo <=? c)%N && (c <=? hi)%N.

(** WhiteSpace and LineTerminator code points: the set of [\s] and of
    [String.prototype.trim]. *)
Definition isWhiteSpace (c : char) : bool :=
  existsb (N.eqb c)
    (9 :: 10 :: 11 :: 12 :: 13 :: 32 :: 160 :: 5760 :: 8232 :: 8233 :: 8239 :: 8287
       :: 12288 :: 65279 :: nil)%N
  || in_range 8192 8202 c.

(** [\w]: the basic word characters (no [u] flag in the sources). *)
Definition isWordChar (c : char) : bool :=
  in_range 97 122 c || in_range 65 90 c || in_range 48 57 c || (c =? 95)%N.

Definition isUpperAscii (c : char) : bool := in_range 65 90 c.
Definition isLowerAscii (c : char) : bool := in_range 97 122 c.

(** [toLowerCase] on one code unit.  Only the ASCII letters are mapped: the
    sources compare lowered text with ASCII constants only ([span], [/span],
    [br], [javascript:], entity names), and no code unit outside ASCII
    lowers to a letter of these constants. *)
Definition lowerChar (c : char) : char := if isUpperAscii c then (c + 32)%N else c.
Definition toLowerCase (s : jsstring) : jsstring := map lowerChar s.

Fixpoint str_eqb (a b : jsstring) : bool :=
  match a, b with
  | [], [] => true
  | x :: a', y :: b' => (x =? y)%N && str_eqb a' b'
  | _, _ => false
  end.

Fixpoint startsWith (s p : jsstring) : bool :=
  match p, s with
  | [], _ => true
  | y :: p', x :: s' => (x =? y)%N && startsWith s' p'
  | _ :: _, [] => false
  end.

Fixpoint trimStart (s : jsstring) : jsstring :=
  match s with
  | c :: s' => if isWhiteSpace c then trimStart s' else s
  | [] => []
  end.

Definition trimEnd (s : jsstring) : jsstring := rev (trimStart (rev s)).
Definition trim (s : jsstring) : jsstring := trimEnd (trimStart s).

(** [s.indexOf(c)] on the text that starts at the search position: the
    offset of the first [c], if any. *)
Fixpoint indexOf (c : char) (s : jsstring) : option nat :=
  match s with
  | [] => None
  | x :: s' => if (x =? c)%N then Some 0 else option_map S (indexOf c s')
  end.

(** [s.replace(c, '')] with a one-character string pattern: only the first
    occurrence goes. *)
Fixpoint removeFirst (c : char) (s : jsstring) : jsstring :=
  match s with
  | [] => []
  | x :: s' => if (x =? c)%N then s' else x :: removeFirst c s'
  end.

(** Truthiness of a string: the empty string is falsy. *)
Definition truthy (s : jsstring) : bool :=
  match s with [] => false | _ :: _ => true end.

End JS.
Export JS.

(** ** Regular expressions

    The constructs of the patterns that occur in the sources, and a
    backtracking matcher in continuation-passing style after the ECMAScript
    pattern semantics (22.2.2): alternatives are tried left to right, greedy
    quantifiers try one more iteration before the continuation and lazy ones
    after it, an iteration that consumes nothing is rejected. *)

Module Regex.

Inductive item :=
| IChar (c : char)            (* a *)
| IRange (lo hi : char)       (* a-z *)
| ISpace                      (* \s *)
| INonSpace.                  (* \S *)

Inductive regex :=
| Eps
| Cls (negated : bool) (items : list item)   (* [...] and [^...]; a literal is a one-item class *)
| Seq (r1 r2 : regex)
| Alt (r1 r2 : regex)                        (* r1|r2 *)
| Star (greedy : bool) (r : regex)           (* r* and r*? *)
| Group (n : nat) (r : regex)                (* capturing group number n *)
| Backref (n : nat)                          (* \n *)
| WordB                                      (* \b *)
| Bol                                        (* ^ *)
| Eol.                                       (* $ *)

Definition Lit (c : char) : regex := Cls false [IChar c].
Definition Any : regex := Cls false [ISpace; INonSpace].       (* [\s\S] *)
Definition Space : regex := Cls false [ISpace].                (* \s *)
Definition Plus (greedy : bool) (r : regex) : regex := Seq r (Star greedy r).
Definition Opt (r : regex) : regex := Alt r Eps.               (* r? *)

(** A run of pattern characters. *)
Fixpoint Str (s : jsstring) : regex :=
  match s with
  | [] => Eps
  | [c] => Lit c
  | c :: s' => Seq (Lit c) (Str s')
  end.

(** r1|r2|...|rn *)
Fixpoint Alts (rs : list regex) : regex :=
  match rs with
  | [] => Cls false []
  | [r] => r
  | r :: rs' => Alt r (Alts rs')
  end.

(** Canonicalize (22.2.5.6) without the [u] flag: with [i] a code unit is
    compared through its upper case, and a code unit outside ASCII never
    canonicalizes into ASCII.  All pattern characters of the sources are
    ASCII letters, digits or punctuation, so only the ASCII letters fold. *)
Definition canon (icase : bool) (c : char) : char :=
  if icase && isLowerAscii c then (c - 32)%N else c.

Definition item_mem (icase : bool) (it : item) (c : char) : bool :=
  match it with
  | IChar a => (canon icase a =? canon icase c)%N
  | IRange lo hi =>
      in_range lo hi c
      || (icase && (in_range lo hi (canon icase c)
                    || (isUpperAscii (canon icase c) && in_range lo hi (canon icase c + 32)%N)))
  | ISpace => isWhiteSpace c
  | INonSpace => negb (isWhiteSpace c)
  end.

Definition cls_mem (icase negated : bool) (items : list item) (c : char) : bool :=
  xorb negated (existsb (fun it => item_mem icase it c) items).

(** The matcher state: the code unit before the current position (none at
    index 0), the text from the current position on, and the captures. *)
Record mstate := MState {
  prev : option char;
  rest : jsstring;
  caps : list (nat * jsstring)
}.

Inductive outcome :=
| Mismatch
| Matched (st : mstate)
| Exhausted.                  (* the iteration budget of the model ran out *)

Definition cont := mstate -> outcome.

Fixpoint cap_lookup (n : nat) (cs : list (nat * jsstring)) : option jsstring :=
  match cs with
  | [] => None
  | (m, s) :: cs' => if Nat.eqb m n then Some s else cap_lookup n cs'
  end.

(** The text consumed between two states of one run. *)
Definition consumed (st st' : mstate) : jsstring :=
  firstn (length (rest st) - length (rest st')) (rest st).

Definition last_char (p : option char) (s : jsstring) : option char :=
  match rev s with
  | c :: _ => Some c
  | [] => p
  end.

(** [s] is at the front of [t], code unit by code unit up to [canon]. *)
Fixpoint canon_prefix (icase : bool) (s t : jsstring) : option jsstring :=
  match s, t with
  | [], _ => Some t
  | x :: s', y :: t' =>
      if (canon icase x =? canon icase y)%N then canon_prefix icase s' t' else None
  | _ :: _, [] => None
  end.

Definition opt_word (o : option char) : bool :=
  match o with Some c => isWordChar c | None => false end.

(** RepeatMatcher with min 0 and no upper bound.  [fuel] bounds the number
    of iterations; every iteration consumes at least one code unit, so
    [S (length (rest st))] is never used up ([run_total] below). *)
Fixpoint star_loop (fuel : nat) (body : cont -> cont) (greedy : bool)
    (k : cont) (st : mstate) : outcome :=
  match fuel with
  | O => Exhausted
  | S f =>
      let again (_ : unit) :=
        body (fun st' =>
                if length (rest st') <? length (rest st)
                then star_loop f body greedy k st'
                else Mismatch) st in
      if greedy then
        match again tt with
        | Mismatch => k st
        | o => o
        end
      else
        match k st with
        | Mismatch => again tt
        | o => o
        end
  end.

Fixpoint run (icase : bool) (r : regex) (k : cont) (st : mstate) : outcome :=
  match r with
  | Eps => k st
  | Cls negated items =>
      match rest st with
      | [] => Mismatch
      | c :: tl =>
          if cls_mem icase negated items c
          then k (MState (Some c) tl (caps st))
          else Mismatch
      end
  | Seq r1 r2 => run icase r1 (run icase r2 k) st
  | Alt r1 r2 =>
      match run icase r1 k st with
      | Mismatch => run icase r2 k st
      | o => o
      end
  | Star greedy r1 => star_loop (S (length (rest st))) (run icase r1) greedy k st
  | Group n r1 =>
      run icase r1
        (fun st' => k (MState (prev st') (rest st') ((n, consumed st st') :: caps st'))) st
  | Backref n =>
      match cap_lookup n (caps st) with
      | None => k st
      | Some s =>
          match canon_prefix icase s (rest st) with
          | Some tl => k (MState (last_char (prev st) s) tl (caps st))
          | None => Mismatch
          end
      end
  | WordB =>
      if xorb (opt_word (prev st)) (opt_word (head (rest st))) then k st else Mismatch
  | Bol => match prev st with None => k st | Some _ => Mismatch end
  | Eol => match rest st with [] => k st | _ :: _ => Mismatch end
  end.

(** A compiled pattern with its [i] flag. *)
Record pattern := Pattern { pat_regex : regex; pat_icase : bool }.

(** One match attempt at the current position (RegExpBuiltinExec at one
    index): the final state on success. *)
Definition exec_here (p : pattern) (pv : option char) (s : jsstring) : option mstate :=
  match run (pat_icase p) (pat_regex p) Matched (MState pv s []) with
  | Matched st => Some st
  | _ => None
  end.

(** What a replacer sees of a match: the matched text and the captures. *)
Record match_result := MatchResult {
  matched : jsstring;
  groups : list (nat * jsstring)
}.

Definition group (n : nat) (m : match_result) : option jsstring :=
  cap_lookup n (groups m).

Definition result_of (s : jsstring) (fin : mstate) : match_result :=
  MatchResult (firstn (length s - length (rest fin)) s) (caps fin).

(** [re.exec(s)] without the [g] flag: the leftmost start that matches. *)
Fixpoint exec_from (p : pattern) (pv : option char) (s : jsstring) : option match_result :=
  match exec_here p pv s with
  | Some fin => Some (result_of s fin)
  | None =>
      match s with
      | [] => None
      | c :: s' => exec_from p (Some c) s'
      end
  end.

Definition exec (p : pattern) (s : jsstring) : option match_result := exec_from p None s.

Definition test (p : pattern) (s : jsstring) : bool :=
  match exec p s with Some _ => true | None => false end.

(** [s.replace(re, f)] with the [g] flag.  [skip] counts the code units of
    the current match still to be dropped; after an empty match the search
    resumes one code unit further and that code unit is kept. *)
Fixpoint replace_go (p : pattern) (f : match_result -> jsstring)
    (skip : nat) (pv : option char) (s : jsstring) : jsstring :=
  match skip with
  | S n =>
      match s with
      | [] => []
      | c :: s' => replace_go p f n (Some c) s'
      end
  | O =>
      match exec_here p pv s with
      | Some fin =>
          let m := result_of s fin in
          f m ++
          match s with
          | [] => []
          | c :: s' =>
              match length (matched m) with
              | O => c :: replace_go p f 0 (Some c) s'
              | S n => replace_go p f n (Some c) s'
              end
          end
      | None =>
          match s with
          | [] => []
          | c :: s' => c :: replace_go p f 0 (Some c) s'
          end
      end
  end.

Definition replaceAll (p : pattern) (f : match_result -> jsstring) (s : jsstring) : jsstring :=
  replace_go p f 0 None s.

(** Replacement by a constant string (none of the replacement strings of
    the sources contains a [$]). *)
Definition replaceAllWith (p : pattern) (by_ : jsstring) (s : jsstring) : jsstring :=
  replaceAll p (fun _ => by_) s.

(** [s.split(re)] (RegExp.prototype[@@split], no limit, no captures in the
    separator): [seg] is the current piece, reversed. *)
Fixpoint split_go (p : pattern) (skip : nat) (seg : jsstring)
    (pv : option char) (s : jsstring) : list jsstring :=
  match skip with
  | S n =>
      match s with
      | [] => [rev seg]
      | c :: s' => split_go p n seg (Some c) s'
      end
  | O =>
      match s with
      | [] => [rev seg]
      | c :: s' =>
          match exec_here p pv s with
          | None => split_go p 0 (c :: seg) (Some c) s'
          | Some fin =>
              match length s - length (rest fin), seg with
              | O, [] => split_go p 0 [c] (Some c) s'
              | O, _ :: _ => rev seg :: split_go p 0 [c] (Some c) s'
              | S n, _ => rev seg :: split_go p n [] (Some c) s'
              end
          end
      end
  end.

Definition split (p : pattern) (s : jsstring) : list jsstring :=
  match s with
  | [] => match exec_here p None [] with Some _ => [] | None => [[]] end
  | _ :: _ => split_go p 0 [] None s
  end.

End Regex.
Export Regex.

(** ** Exceptions: a computation returns a value or throws. *)

Module Exc.

Inductive Exc (A : Type) :=
| Return (a : A)
| Throw (e : jsstring).
Arguments Return {A} a.
Arguments Throw {A} e.

Definition bind {A B} (c : Exc A) (f : A -> Exc B) : Exc B :=
  match c with
  | Return a => f a
  | Throw e => Throw e
  end.

(** [try { c } catch { h }] *)
Definition catch {A} (c : Exc A) (h : jsstring -> A) : A :=
  match c with
  | Return a => a
  | Throw e => h e
  end.

Definition throws {A} (c : Exc A) : Prop := exists e, c = Throw e.

End Exc.
Export Exc.

#[global] Instance Exc_ret : MRet Exc := @Return.
#[global] Instance Exc_bind : MBind Exc := fun A B f c => Exc.bind c f.

(** ** The document tree

    What the sanitizer and the highlighter see of the DOM: element, comment
    and text nodes, and the two operations of a document on markup, either of
    which may throw (an XML document rejects ill-formed markup). *)

Module Dom.

Record Attr := MkAttr { attr_name : jsstring; attr_value : jsstring }.

Inductive Node :=
| Element (tagName : jsstring) (attributes : list Attr) (childNodes : list Node)
| Comment (data : jsstring)
| Text (data : jsstring).

Record Document := {
  (* el = document.createElement(..); el.innerHTML = html: the parsed children *)
  setInnerHTML : jsstring -> Exc (list Node);
  (* el.innerHTML: the serialized children *)
  getInnerHTML : list Node -> Exc jsstring
}.

(** [typeof document === 'undefined'] is [None]. *)
Definition Env := option Document.

(** [node.removeAttribute(name)]: the first attribute of that name goes. *)
Fixpoint removeAttribute (name : jsstring) (attrs : list Attr) : list Attr :=
  match attrs with
  | [] => []
  | a :: tl => if str_eqb (attr_name a) name then tl else a :: removeAttribute name tl
  end.

(** [node.textContent] of a list of children. *)
Fixpoint textContent (n : Node) : jsstring :=
  match n with
  | Element _ _ kids => flat_map textContent kids
  | Comment _ => []
  | Text d => d
  end.

Definition isElement (n : Node) : bool :=
  match n with Element _ _ _ => true | _ => false end.

(** The class attribute as a DOMTokenList: split on ASCII whitespace,
    duplicates dropped. *)
Definition isAsciiSpace (c : char) : bool :=
  existsb (N.eqb c) (9 :: 10 :: 12 :: 13 :: 32 :: nil)%N.

Fixpoint tokens_go (cur : jsstring) (s : jsstring) : list jsstring :=
  match s with
  | [] => match cur with [] => [] | _ => [rev cur] end
  | c :: s' =>
      if isAsciiSpace c
      then match cur with [] => tokens_go [] s' | _ => rev cur :: tokens_go [] s' end
      else tokens_go (c :: cur) s'
  end.

Fixpoint dedup (seen : list jsstring) (l : list jsstring) : list jsstring :=
  match l with
  | [] => []
  | x :: l' => if existsb (str_eqb x) seen then dedup seen l' else x :: dedup (x :: seen) l'
  end.

Fixpoint getAttribute (name : jsstring) (attrs : list Attr) : option jsstring :=
  match attrs with
  | [] => None
  | a :: tl => if str_eqb (attr_name a) name then Some (attr_value a) else getAttribute name tl
  end.

Definition classList (attrs : list Attr) : list jsstring :=
  match getAttribute (js "class") attrs with
  | Some v => dedup [] (tokens_go [] v)
  | None => []
  end.

End Dom.
Export Dom.

(** ** The HTML sanitizer (src/unnamed/part_000) *)

Module Sanitizer.

Fixpoint Seqs (rs : list regex) : regex :=
  match rs with
  | [] => Eps
  | [r] => r
  | r :: rs' => Seq r (Seqs rs')
  end.

(** /<!--[\s\S]*?-->/g *)
Definition re_comment : pattern :=
  Pattern (Seqs [Str (js "<!--"); Star false Any; Str (js "-->")]) false.

(** /<tag\b[\s\S]*?<\/tag>/gi *)
Definition re_element (tag : jsstring) : pattern :=
  Pattern (Seqs [Str (js "<" ++ tag); WordB; Star false Any; Str (js "</" ++ tag ++ js ">")]) true.

(** /\son[a-z]+\s*=\s*(?:Q[^Q]*Q|'[^']*'|[^\s>]+)/gi, where Q stands for the
    double quote *)
Definition re_handler : pattern :=
  Pattern
    (Seqs [Space; Str (js "on"); Plus true (Cls false [IRange (ch "a") (ch "z")]);
           Star true Space; Lit (ch "="); Star true Space;
           Alts [Seqs [Lit dquote; Star true (Cls true [IChar dquote]); Lit dquote];
                 Seqs [Lit squote; Star true (Cls true [IChar squote]); Lit squote];
                 Plus true (Cls true [ISpace; IChar (ch ">")])]])
    true.

(** /\shref\s*=\s*([Q'])\s*javascript:[\s\S]*?\1/gi, where Q stands for the
    double quote *)
Definition re_js_href : pattern :=
  Pattern
    (Seqs [Space; Str (js "href"); Star true Space; Lit (ch "="); Star true Space;
           Group 1 (Cls false [IChar dquote; IChar squote]);
           Star true Space; Str (js "javascript:"); Star false Any; Backref 1])
    true.

(** /^(?:<br\s*\/?>(?:\s|&nbsp;)* )+$/i (without the blank before the last
    parenthesis) *)
Definition re_only_breaks : pattern :=
  Pattern
    (Seqs [Bol;
           Plus true
             (Seqs [Str (js "<br"); Star true Space; Opt (Lit (ch "/")); Lit (ch ">");
                    Star true (Alt Space (Str (js "&nbsp;")))]);
           Eol])
    true.

(** /<[^>]+>/g *)
Definition re_tag : pattern :=
  Pattern (Seqs [Lit (ch "<"); Plus true (Cls true [IChar (ch ">")]); Lit (ch ">")]) false.

(** /\s+/g *)
Definition re_spaces : pattern := Pattern (Plus true Space) false.

(** /<(img|svg|table|pre|code|hr|br|math|canvas|iframe|object|embed)\b/i *)
Definition re_rendering_tag : pattern :=
  Pattern
    (Seqs [Lit (ch "<");
           Group 1 (Alts (map (fun t => Str (js t))
             ["img"; "svg"; "table"; "pre"; "code"; "hr"; "br"; "math"; "canvas";
              "iframe"; "object"; "embed"]%string));
           WordB])
    true.

Definition sanitizeHtmlWithoutDom (html : jsstring) : jsstring :=
  let out := html in
  (* Remove HTML comments *)
  let out := replaceAllWith re_comment [] out in
  (* Remove blocked elements entirely (tag + content) *)
  let out := replaceAllWith (re_element (js "script")) [] out in
  let out := replaceAllWith (re_element (js "iframe")) [] out in
  let out := replaceAllWith (re_element (js "object")) [] out in
  let out := replaceAllWith (re_element (js "embed")) [] out in
  let out := replaceAllWith (re_element (js "audio")) [] out in
  let out := replaceAllWith (re_element (js "video")) [] out in
  (* Remove inline event handlers like onclick=... *)
  let out := replaceAllWith re_handler [] out in
  (* Neutralize javascript: hrefs *)
  let out := replaceAllWith re_js_href (js " href=" ++ [dquote] ++ js "#" ++ [dquote]) out in
  out.

Definition blockedTags : list jsstring :=
  map js ["SCRIPT"; "IFRAME"; "OBJECT"; "EMBED"; "AUDIO"; "VIDEO"]%string.

Definition isBlocked (tagName : jsstring) : bool := existsb (str_eqb tagName) blockedTags.

(** The test of the attribute loop. *)
Definition isDangerousAttr (a : Attr) : bool :=
  startsWith (attr_name a) (js "on")
  || (str_eqb (attr_name a) (js "href")
      && startsWith (toLowerCase (trim (attr_value a))) (js "javascript:")).

(** The attribute loop: it runs over a snapshot of the attributes and
    removes by name from the live list. *)
Definition sanitizeAttributes (attrs : list Attr) : list Attr :=
  fold_left
    (fun live a => if isDangerousAttr a then removeAttribute (attr_name a) live else live)
    attrs attrs.

(** One element of the work list and, through the children it pushes, its
    subtree: a blocked element and a comment are removed from their parent,
    any other element keeps its place with its attributes stripped, text
    stays.  The source visits the same nodes with an explicit stack; it
    reads each [childNodes] through a snapshot, so the removals do not
    disturb the walk. *)
Fixpoint sanitizeNode (n : Node) : list Node :=
  match n with
  | Element tag attrs kids =>
      if isBlocked tag then []
      else [Element tag (sanitizeAttributes attrs) (flat_map sanitizeNode kids)]
  | Comment _ => []
  | Text d => [Text d]
  end.

(** [sanitizeNodeTree(root)] on the children of the root fragment. *)
Definition sanitizeNodeTree (root : list Node) : list Node := flat_map sanitizeNode root.

(** The body of the [try] block of [sanitizeHtml]. *)
Definition sanitizeWithDom (doc : Document) (html : jsstring) : Exc jsstring :=
  content ← setInnerHTML doc html;
  getInnerHTML doc (sanitizeNodeTree content).

Definition sanitizeHtml (env : Env) (html : jsstring) : jsstring :=
  match env with
  | None => sanitizeHtmlWithoutDom html
  | Some doc => catch (sanitizeWithDom doc html) (fun _ => html)
  end.

(** [text] of [hasHtmlContentWithoutDom]. *)
Definition normalizedHtml (html : jsstring) : jsstring :=
  trim (replaceAllWith (re_element (js "style")) []
          (replaceAllWith (re_element (js "script")) []
             (replaceAllWith re_comment [] html))).

Definition visibleText (normalized : jsstring) : jsstring :=
  trim (replaceAllWith re_spaces (js " ") (replaceAllWith re_tag [] normalized)).

Definition hasHtmlContentWithoutDom (html : jsstring) : bool :=
  let normalized := normalizedHtml html in
  if negb (truthy normalized) then false
  else
    (* Visible text? *)
    let text := visibleText normalized in
    if 0 <? length text then true
    else
      (* Non-text content that still renders something *)
      if test re_rendering_tag normalized then true
      else false.

Definition hasHtmlContent (env : Env) (sanitizedHtml : jsstring) : Exc bool :=
  match env with
  | None => Return (hasHtmlContentWithoutDom sanitizedHtml)
  | Some doc =>
      temp ← setInnerHTML doc sanitizedHtml;
      Return ((0 <? length (trim (flat_map textContent temp)))
              || existsb isElement temp)
  end.

Record SanitizeResult := { sanitized : jsstring; hasContent : bool }.

Definition sanitizeAndCheck (env : Env) (html : jsstring) : Exc SanitizeResult :=
  (* Skip simple line breaks (only <br> tags with whitespace/nbsp) *)
  if test re_only_breaks html then
    Return {| sanitized := []; hasContent := false |}
  else
    let sanitized := sanitizeHtml env html in
    hasContent ← hasHtmlContent env sanitized;
    Return {| sanitized := sanitized; hasContent := hasContent |}.

End Sanitizer.
Export Sanitizer.

(** ** Numbers

    The arithmetic of the image utilities is written once, over an interface
    of the Number operations it uses, and read in two ways: in IEEE binary64,
    the arithmetic the program runs, and exactly (rationals with the
    infinities and NaN of the division, no rounding error, no signed zero).
    The display fit is stated and proved in binary64; the exact reading only
    says what the rounded quarter of the render-result adapter is. *)

Module Number.

Class JSNumber (T : Type) := {
  num_of_Z : Z -> T;
  num_mul : T -> T -> T;
  num_div : T -> T -> T;
  num_leb : T -> T -> bool;      (* a <= b *)
  num_min : T -> T -> T;         (* Math.min(a, b) *)
  num_round : T -> T;            (* Math.round(a) *)
  num_truthy : T -> bool         (* neither 0 nor NaN *)
}.

(** *** Exact numbers *)

Inductive number :=
| Num (q : Q)
| Inf (negative : bool)
| NaN.

Definition Qsign_neg (q : Q) : bool := negb (Qle_bool 0%Q q).
Definition Qis_zero (q : Q) : bool := Qeq_bool q 0%Q.

Definition ex_mul (a b : number) : number :=
  match a, b with
  | Num x, Num y => Num (x * y)%Q
  | Num x, Inf s | Inf s, Num x =>
      if Qis_zero x then NaN else Inf (xorb s (Qsign_neg x))
  | Inf s, Inf t => Inf (xorb s t)
  | _, _ => NaN
  end.

Definition ex_div (a b : number) : number :=
  match a, b with
  | Num x, Num y =>
      if Qis_zero y then (if Qis_zero x then NaN else Inf (Qsign_neg x))
      else Num (x / y)%Q
  | Num _, Inf _ => Num 0%Q
  | Inf s, Num y => Inf (xorb s (Qsign_neg y))
  | _, _ => NaN
  end.

Definition ex_leb (a b : number) : bool :=
  match a, b with
  | Num x, Num y => Qle_bool x y
  | Num _, Inf s => negb s
  | Inf s, Num _ => s
  | Inf s, Inf t => s || negb t
  | _, _ => false
  end.

Definition ex_min (a b : number) : number :=
  match a, b with
  | NaN, _ | _, NaN => NaN
  | _, _ => if ex_leb a b then a else b
  end.

(** Math.round: the nearest integer, a tie goes up. *)
Definition Qround_half_up (q : Q) : Z := Qfloor (q + (1 # 2))%Q.

Definition ex_round (a : number) : number :=
  match a with
  | Num x => Num (inject_Z (Qround_half_up x))
  | _ => a
  end.

Definition ex_truthy (a : number) : bool :=
  match a with
  | Num x => negb (Qis_zero x)
  | Inf _ => true
  | NaN => false
  end.

#[global] Instance exact_number : JSNumber number := {|
  num_of_Z z := Num (inject_Z z);
  num_mul := ex_mul;
  num_div := ex_div;
  num_leb := ex_leb;
  num_min := ex_min;
  num_round := ex_round;
  num_truthy := ex_truthy
|}.

(** *** binary64 *)

Definition f64_of_Z (z : Z) : float :=
  if (z <? 0)%Z then PrimFloat.opp (PrimFloat.of_uint63 (Uint63.of_Z (- z)))
  else PrimFloat.of_uint63 (Uint63.of_Z z).

Definition f64_is_nan (x : float) : bool := negb (PrimFloat.eqb x x).

(** Math.min of two numbers: NaN if either is, and -0 below +0. *)
Definition f64_min (a b : float) : float :=
  if f64_is_nan a then a
  else if f64_is_nan b then b
  else if PrimFloat.ltb b a then b
  else if PrimFloat.ltb a b then a
  else match Prim2SF a with S754_zero true => a | _ => b end.

(** Math.round of a finite non-integer m * 2^e (e < 0) is the floor of
    m * 2^e + 1/2, computed exactly; its magnitude is below 2^53.  From
    -0.5 up to and not including 0 the result is -0. *)
Definition f64_round (x : float) : float :=
  match Prim2SF x with
  | S754_finite s m e =>
      if (0 <=? e)%Z then x
      else
        let sm := if s then (- Z.pos m)%Z else Z.pos m in
        let n := ((2 * sm + 2 ^ (- e)) / 2 ^ (1 - e))%Z in
        if s && (n =? 0)%Z then PrimFloat.neg_zero else f64_of_Z n
  | _ => x
  end.

Definition f64_truthy (x : float) : bool :=
  negb (f64_is_nan x) && negb (PrimFloat.eqb x 0%float).

#[global] Instance binary64 : JSNumber float := {|
  num_of_Z := f64_of_Z;
  num_mul := PrimFloat.mul;
  num_div := PrimFloat.div;
  num_leb := PrimFloat.leb;
  num_min := f64_min;
  num_round := f64_round;
  num_truthy := f64_truthy
|}.

End Number.
Export Number.

(** ** 32-bit integer operators *)

Module Int32.
Local Open Scope Z_scope.

Definition ToUint32 (z : Z) : Z := z mod 2 ^ 32.
Definition ToInt32 (z : Z) : Z :=
  let m := z mod 2 ^ 32 in if m <? 2 ^ 31 then m else m - 2 ^ 32.

Definition bor (a b : Z) : Z := ToInt32 (Z.lor (ToInt32 a) (ToInt32 b)).      (* a | b *)
Definition band (a b : Z) : Z := ToInt32 (Z.land (ToInt32 a) (ToInt32 b)).    (* a & b *)
Definition shl (a n : Z) : Z := ToInt32 (Z.shiftl (ToInt32 a) (n mod 32)).    (* a << n *)
Definition sar (a n : Z) : Z := Z.shiftr (ToInt32 a) (n mod 32).              (* a >> n *)
Definition ushr (a n : Z) : Z := Z.shiftr (ToUint32 a) (n mod 32).            (* a >>> n *)

End Int32.
Export Int32.

(** ** Image utilities (src/src/exporters/docx-image-utils.ts) *)

Module ImageUtils.

Record ImageDimensions (T : Type) := { width : T; height : T }.
Arguments width {T} _.
Arguments height {T} _.

Section Generic.
Context {T : Type} `{JSNumber T}.

Definition calculateImageDimensions (originalWidth originalHeight : T)
    : ImageDimensions T :=
  let maxWidthInches := num_of_Z 6 in
  let maxHeightInches := num_div (num_of_Z 19) (num_of_Z 2) in        (* 9.5 *)
  let maxWidthPixels := num_mul maxWidthInches (num_of_Z 96) in
  let maxHeightPixels := num_mul maxHeightInches (num_of_Z 96) in
  (* If image is smaller than both max width and height, use original size *)
  if num_leb originalWidth maxWidthPixels && num_leb originalHeight maxHeightPixels then
    {| width := originalWidth; height := originalHeight |}
  else
    (* Calculate scaling ratios for both dimensions *)
    let widthRatio := num_div maxWidthPixels originalWidth in
    let heightRatio := num_div maxHeightPixels originalHeight in
    (* Use the smaller ratio to ensure the image fits within both constraints *)
    let ratio := num_min widthRatio heightRatio in
    {| width := num_round (num_mul originalWidth ratio);
       height := num_round (num_mul originalHeight ratio) |}.

(** [x || 0] on an optional number *)
Definition orZero (x : option T) : T :=
  match x with
  | Some v => if num_truthy v then v else num_of_Z 0
  | None => num_of_Z 0
  end.

End Generic.

(** *** Dimensions from the bytes *)

Definition Uint8Array := list byte.

Definition byteZ (b : byte) : Z := Z.of_N (Byte.to_N b).

(** [bytes[o]] as an operand of a bit operator: an index out of range reads
    [undefined], which the operator takes as 0. *)
Definition at_ (bytes : Uint8Array) (o : nat) : Z :=
  match bytes !! o with
  | Some b => byteZ b
  | None => 0%Z
  end.

(** [bytes[o] === v] *)
Definition byteIs (bytes : Uint8Array) (o : nat) (v : Z) : bool :=
  match bytes !! o with
  | Some b => (byteZ b =? v)%Z
  | None => false
  end.

Definition readU16LE (bytes : Uint8Array) (o : nat) : Z :=
  ushr (bor (at_ bytes o) (shl (at_ bytes (o + 1)) 8)) 0.
Definition readU16BE (bytes : Uint8Array) (o : nat) : Z :=
  ushr (bor (shl (at_ bytes o) 8) (at_ bytes (o + 1))) 0.
Definition readU32LE (bytes : Uint8Array) (o : nat) : Z :=
  ushr (bor (bor (bor (at_ bytes o) (shl (at_ bytes (o + 1)) 8))
                 (shl (at_ bytes (o + 2)) 16))
            (shl (at_ bytes (o + 3)) 24)) 0.
Definition readU32BE (bytes : Uint8Array) (o : nat) : Z :=
  ushr (bor (bor (bor (ushr (shl (at_ bytes o) 24) 0) (shl (at_ bytes (o + 1)) 16))
                 (shl (at_ bytes (o + 2)) 8))
            (at_ bytes (o + 3))) 0.

(** [while (offset < bytes.length && bytes[offset] === 0xff) offset++]:
    the offset after the run of fill bytes that starts at [offset]. *)
Fixpoint fillBytes (tail : Uint8Array) : nat :=
  match tail with
  | b :: tail' => if (byteZ b =? 255)%Z then S (fillBytes tail') else 0
  | [] => 0
  end.

Definition skipFill (bytes : Uint8Array) (offset : nat) : nat :=
  offset + fillBytes (drop offset bytes).

(** SOF markers (baseline/progressive/etc) that contain dimensions;
    [marker] is [undefined] past the end and then compares false. *)
Definition isSOF (marker : option Z) : bool :=
  match marker with
  | Some m =>
      ((192 <=? m) && (m <=? 195) || (197 <=? m) && (m <=? 199)
       || (201 <=? m) && (m <=? 203) || (205 <=? m) && (m <=? 207))%Z
  | None => false
  end.

Definition markerIs (marker : option Z) (v : Z) : bool :=
  match marker with
  | Some m => (m =? v)%Z
  | None => false
  end.

Inductive Scan :=
| Sof (w h : Z)            (* return { width, height } *)
| NoSof                    (* the loop ended or broke *)
| OutOfFuel.               (* the iteration budget of the model ran out *)

(** The JPEG marker loop from [offset] on.  Every iteration moves the
    offset forward, so [length bytes] iterations are never used up
    ([jpegScan_fuel] below). *)
Fixpoint jpegScan (fuel : nat) (bytes : Uint8Array) (offset : nat) : Scan :=
  match fuel with
  | O => OutOfFuel
  | S fuel' =>
      if negb (offset + 4 <? length bytes) then NoSof
      else if negb (byteIs bytes offset 255) then jpegScan fuel' bytes (offset + 1)
      else
        (* Skip fill bytes 0xFF *)
        let offset := skipFill bytes offset in
        let marker := byteZ <$> bytes !! offset in
        let offset := offset + 1 in
        (* Standalone markers *)
        if markerIs marker 217 || markerIs marker 218 then NoSof
        else if length bytes <=? offset + 1 then NoSof
        else
          let segmentLength := readU16BE bytes offset in
          if (segmentLength <? 2)%Z then NoSof
          else if isSOF marker && (offset + 7 <? length bytes) then
            Sof (readU16BE bytes (offset + 5)) (readU16BE bytes (offset + 3))
          else jpegScan fuel' bytes (offset + Z.to_nat segmentLength)
  end.

(** [String.fromCharCode(bytes[12], bytes[13], bytes[14], bytes[15])] *)
Definition chunkType (bytes : Uint8Array) : jsstring :=
  map (fun o => Z.to_N (at_ bytes o)) [12; 13; 14; 15].

(** The body of the [try] block on the Node/CLI path: the dimensions of
    the [return] that is reached, if any.  No step of it can throw: a read
    out of range is [undefined], and the operators coerce it. *)
Definition sniffDimensions (bytes : Uint8Array) : option (Z * Z) :=
  (* PNG *)
  if (24 <=? length bytes) && byteIs bytes 0 137 && byteIs bytes 1 80
     && byteIs bytes 2 78 && byteIs bytes 3 71 then
    Some (readU32BE bytes 16, readU32BE bytes 20)
  (* GIF *)
  else if (10 <=? length bytes) && byteIs bytes 0 71 && byteIs bytes 1 73
          && byteIs bytes 2 70 then
    Some (readU16LE bytes 6, readU16LE bytes 8)
  (* BMP *)
  else if (26 <=? length bytes) && byteIs bytes 0 66 && byteIs bytes 1 77 then
    let width := readU32LE bytes 18 in
    (* Height can be negative (top-down BMP) *)
    let rawHeight := readU32LE bytes 22 in
    let height := if (2147483647 <? rawHeight)%Z then (4294967296 - rawHeight)%Z
                  else rawHeight in
    Some (width, Z.abs height)
  else
    (* JPEG *)
    match
      (if (4 <=? length bytes) && byteIs bytes 0 255 && byteIs bytes 1 216
       then jpegScan (length bytes) bytes 2 else NoSof)
    with
    | Sof w h => Some (w, h)
    | _ =>
        (* WEBP (best-effort: VP8X / VP8L) *)
        if (30 <=? length bytes)
           && byteIs bytes 0 82 && byteIs bytes 1 73 && byteIs bytes 2 70
           && byteIs bytes 3 70 && byteIs bytes 8 87 && byteIs bytes 9 69
           && byteIs bytes 10 66 && byteIs bytes 11 80 then
          if str_eqb (chunkType bytes) (js "VP8X") && (30 <=? length bytes) then
            let widthMinusOne :=
              bor (bor (at_ bytes 24) (shl (at_ bytes 25) 8)) (shl (at_ bytes 26) 16) in
            let heightMinusOne :=
              bor (bor (at_ bytes 27) (shl (at_ bytes 28) 8)) (shl (at_ bytes 29) 16) in
            Some (widthMinusOne + 1, heightMinusOne + 1)%Z
          else if str_eqb (chunkType bytes) (js "VP8L") && (25 <=? length bytes)
                  && byteIs bytes 20 47 then
            let bits := readU32LE bytes 21 in
            let width := (band bits 16383 + 1)%Z in
            let height := (band (sar bits 14) 16383 + 1)%Z in
            Some (width, height)
          else None
        else None
    end.

(** The browser path of [getImageDimensions]: the platform decodes the
    image and the promise resolves with its size or rejects. *)
Definition ImageLoader (T : Type) := Uint8Array -> jsstring -> Exc (ImageDimensions T).

Section Generic2.
Context {T : Type} `{JSNumber T}.

(** [canUseDom] is [Some] of the platform's loader; the result is the
    settled promise. *)
Definition getImageDimensions (canUseDom : option (ImageLoader T))
    (buffer : Uint8Array) (contentType : jsstring) : Exc (ImageDimensions T) :=
  match canUseDom with
  | Some load => load buffer contentType
  | None =>
      (* Node/CLI path: parse dimensions from bytes (no DOM available). *)
      match sniffDimensions buffer with
      | Some (w, h) => Return {| width := num_of_Z w; height := num_of_Z h |}
      | None =>
          (* Unknown format or parse failure; return a safe default. *)
          Return {| width := num_of_Z 96; height := num_of_Z 96 |}
      end
  end.

End Generic2.

(** *** The render-result adapter *)

Inductive AlignmentType := LEFT | CENTER | RIGHT.

Record TextRunOptions := {
  tr_text : jsstring;
  tr_italics : option bool;
  tr_color : option jsstring
}.

Record AltText := { alt_title : jsstring; alt_description : jsstring; alt_name : jsstring }.

Record ImageRunOptions (T : Type) := {
  ir_data : option Uint8Array;
  ir_transformation : ImageDimensions T;
  ir_type : jsstring;
  ir_altText : AltText
}.
Arguments ir_data {T} _.
Arguments ir_transformation {T} _.
Arguments ir_type {T} _.
Arguments ir_altText {T} _.

Inductive DocxChild (T : Type) :=
| NewTextRun (o : TextRunOptions)
| NewImageRun (o : ImageRunOptions T).
Arguments NewTextRun {T} o.
Arguments NewImageRun {T} o.

Record ParagraphOptions (T : Type) := {
  p_children : list (DocxChild T);
  p_alignment : option AlignmentType;
  p_spacing : option (Z * Z)                (* before, after *)
}.
Arguments p_children {T} _.
Arguments p_alignment {T} _.
Arguments p_spacing {T} _.

Inductive DocxElement (T : Type) :=
| NewParagraph (o : ParagraphOptions T)
| Inline (c : DocxChild T).
Arguments NewParagraph {T} o.
Arguments Inline {T} c.

(** Modelled from the spec: the type [UnifiedRenderResult] (types/index) is
    not among the sources; these are the fields the adapter reads of a
    render-bridge result (raster bytes, raw dimensions, placement). *)
Record RenderContent (T : Type) := {
  data : option Uint8Array;
  c_width : option T;
  c_height : option T;
  text : option jsstring
}.
Arguments data {T} _.
Arguments c_width {T} _.
Arguments c_height {T} _.
Arguments text {T} _.

Record RenderDisplay := { inline : bool; alignment : option jsstring }.

Record UnifiedRenderResult (T : Type) := {
  type : jsstring;
  content : RenderContent T;
  display : RenderDisplay
}.
Arguments type {T} _.
Arguments content {T} _.
Arguments display {T} _.

(** [s || ''] *)
Definition orEmpty (s : option jsstring) : jsstring := default [] s.

(** [alignmentMap[alignment || 'center'] || AlignmentType.CENTER] *)
Definition alignmentOf (alignment : option jsstring) : AlignmentType :=
  let key := match alignment with
             | Some a => if truthy a then a else js "center"
             | None => js "center"
             end in
  if str_eqb key (js "center") then CENTER
  else if str_eqb key (js "right") then RIGHT
  else if str_eqb key (js "left") then LEFT
  else CENTER.

Section Generic3.
Context {T : Type} `{JSNumber T}.

Definition errorRun (r : UnifiedRenderResult T) : DocxChild T :=
  NewTextRun {| tr_text := orEmpty (text (content r));
             tr_italics := Some true;
             tr_color := Some (js "FF0000") |}.

Definition plainRun (r : UnifiedRenderResult T) : DocxChild T :=
  NewTextRun {| tr_text := orEmpty (text (content r));
             tr_italics := None;
             tr_color := None |}.

Definition convertPluginResultToDOCX (renderResult : UnifiedRenderResult T)
    (pluginType : jsstring) : DocxElement T :=
  if str_eqb (type renderResult) (js "empty") then
    NewParagraph {| p_children := []; p_alignment := None; p_spacing := None |}
  else if str_eqb (type renderResult) (js "error") then
    if inline (display renderResult) then Inline (errorRun renderResult)
    else NewParagraph {| p_children := [errorRun renderResult];
                      p_alignment := Some LEFT;
                      p_spacing := Some (240, 240)%Z |}
  else if str_eqb (type renderResult) (js "text") then
    if inline (display renderResult) then Inline (plainRun renderResult)
    else NewParagraph {| p_children := [plainRun renderResult];
                      p_alignment := Some LEFT;
                      p_spacing := Some (240, 240)%Z |}
  else if str_eqb (type renderResult) (js "image") then
    (* Calculate display size (1/4 of original PNG size) *)
    let scaledWidth := num_round (num_div (orZero (c_width (content renderResult))) (num_of_Z 4)) in
    let scaledHeight := num_round (num_div (orZero (c_height (content renderResult))) (num_of_Z 4)) in
    (* Apply max-width and max-height constraints *)
    let imageRun :=
      NewImageRun {| ir_data := data (content renderResult);
                  ir_transformation := calculateImageDimensions scaledWidth scaledHeight;
                  ir_type := js "png";
                  ir_altText := {| alt_title := pluginType ++ js " Image";
                                   alt_description := pluginType ++ js " image";
                                   alt_name := pluginType ++ js "-image" |} |} in
    (* Return ImageRun directly for inline, or wrapped in Paragraph for block *)
    if inline (display renderResult) then Inline imageRun
    else NewParagraph {| p_children := [imageRun];
                      p_alignment := Some (alignmentOf (alignment (display renderResult)));
                      p_spacing := Some (240, 240)%Z |}
  else
    (* Fallback for unknown types *)
    NewParagraph {| p_children := []; p_alignment := None; p_spacing := None |}.

End Generic3.

End ImageUtils.
Export ImageUtils.


(** ** The code highlighter (src/src/exporters/docx-code-highlighter.ts) *)

Module Highlighter.

(** The options of a [new TextRun({...})] of this unit: a styled piece of
    text, or the line-break marker [{ text: '', break: 1 }]. *)
Record TextRun := {
  run_text : jsstring;
  run_font : option jsstring;
  run_size : option Z;
  run_color : option jsstring;
  run_break : option Z
}.

(** Modelled from the spec: the type [DOCXThemeStyles] (types/docx) is not
    among the sources; these are the parts of a theme the highlighter reads:
    the default foreground, the per-theme color table, and the code font. *)
Record CodeColors := {
  foreground : jsstring;
  colors : option (gmap jsstring jsstring)
}.

Record CodeStyle := { font : jsstring; size : Z }.

Record DOCXThemeStyles := {
  codeColors : option CodeColors;
  characterStyles_code : option CodeStyle
}.

(* Default code colors *)
Definition DEFAULT_CODE_COLORS : CodeColors :=
  {| foreground := js "24292E"; colors := Some ∅ |}.

(* Default code character style *)
Definition DEFAULT_CODE_STYLE : CodeStyle :=
  {| font := js "Consolas"; size := 20 |}.

(** *** decodeHtmlEntities *)

Definition hexDigits : list item :=
  [IRange (ch "0") (ch "9"); IRange (ch "a") (ch "f"); IRange (ch "A") (ch "F")].
Definition letters : list item :=
  [IRange (ch "a") (ch "z"); IRange (ch "A") (ch "Z")].

(** /&(#x?[0-9a-fA-F]+|[a-zA-Z]+);/g *)
Definition re_entity : pattern :=
  Pattern
    (Seqs [Lit (ch "&");
           Group 1 (Alt (Seqs [Lit (ch "#"); Opt (Lit (ch "x")); Plus true (Cls false hexDigits)])
                        (Plus true (Cls false letters)));
           Lit (ch ";")])
    false.

Definition digitValue (radix : N) (c : char) : option N :=
  let v := if in_range 48 57 c then Some (c - 48)%N
           else if in_range 97 122 c then Some (c - 87)%N
           else if in_range 65 90 c then Some (c - 55)%N
           else None in
  match v with
  | Some d => if (d <? radix)%N then Some d else None
  | None => None
  end.

(** The digits that [parseInt] reads: the longest prefix in the radix. *)
Fixpoint digitPrefix (radix : N) (s : jsstring) : list N :=
  match s with
  | c :: s' =>
      match digitValue radix c with
      | Some d => d :: digitPrefix radix s'
      | None => []
      end
  | [] => []
  end.

Inductive ParsedInt :=
| IsNaN
| Finite (n : N)
| Infinite.

(** [Number.parseInt(s, radix)] on text without sign, blanks or [0x]
    prefix (the pattern admits none): NaN without a digit, and Infinity
    when the value rounds beyond the largest binary64. *)
Definition parseInt (s : jsstring) (radix : N) : ParsedInt :=
  match digitPrefix radix s with
  | [] => IsNaN
  | ds =>
      let v := fold_left (fun acc d => acc * radix + d)%N ds 0%N in
      if (2 ^ 1024 - 2 ^ 970 <=? v)%N then Infinite else Finite v
  end.

(** [String.fromCodePoint(n)] inside [try { } catch { return '' }]: a
    RangeError above 0x10FFFF, a surrogate pair above 0xFFFF. *)
Definition fromCodePointOrEmpty (n : N) : jsstring :=
  if (1114111 <? n)%N then []
  else if (n <=? 65535)%N then [n]
  else [55296 + (n - 65536) / 1024; 56320 + (n - 65536) mod 1024]%N.

(** The replacer of [decodeHtmlEntities], on the text [ent] of group 1. *)
Definition decodeEntity (ent : jsstring) : jsstring :=
  let lower := toLowerCase ent in
  if str_eqb lower (js "lt") then js "<"
  else if str_eqb lower (js "gt") then js ">"
  else if str_eqb lower (js "amp") then js "&"
  else if str_eqb lower (js "quot") then [dquote]
  else if str_eqb lower (js "apos") then [squote]
  else if str_eqb lower (js "nbsp") then js " "
  else
    let unchanged := js "&" ++ ent ++ js ";" in
    (* Numeric entities: &#123; or &#x1f; *)
    let decimal :=
      if startsWith lower (js "#") then
        match parseInt (drop 1 lower) 10 with
        | Finite codePoint => fromCodePointOrEmpty codePoint
        | _ => unchanged
        end
      else unchanged in
    if startsWith lower (js "#x") then
      match parseInt (drop 2 lower) 16 with
      | Finite codePoint => fromCodePointOrEmpty codePoint
      | _ => decimal
      end
    else decimal.

Definition decodeHtmlEntities (input : jsstring) : jsstring :=
  if negb (truthy input) then []
  else replaceAll re_entity (fun m => decodeEntity (default [] (group 1 m))) input.

(** [text.split('\n')] *)
Fixpoint splitLines (cur : jsstring) (s : jsstring) : list jsstring :=
  match s with
  | [] => [rev cur]
  | c :: s' => if (c =? 10)%N then rev cur :: splitLines [] s' else splitLines (c :: cur) s'
  end.

(** What [getHighlightColor] accepts: an array or a DOMTokenList of class
    tokens, a class string, or null. *)
Inductive ClassList :=
| Tokens (l : list jsstring)
| ClassString (s : jsstring)
| Null.

(** An array of tokens that may be null, as [getColor] receives it. *)
Definition classListOf (cls : option (list jsstring)) : ClassList :=
  match cls with
  | Some l => Tokens l
  | None => Null
  end.

(** /\s+/ *)
Definition re_blank : pattern := Pattern (Plus true Space) false.

(** /\bclass\s*=\s*(?:Q([^Q]* )Q|'([^']* )')/i, where Q stands for the double
    quote (and without the blank after the two inner stars) *)
Definition re_class : pattern :=
  Pattern
    (Seqs [WordB; Str (js "class"); Star true Space; Lit (ch "="); Star true Space;
           Alt (Seqs [Lit dquote; Group 1 (Star true (Cls true [IChar dquote])); Lit dquote])
               (Seqs [Lit squote; Group 2 (Star true (Cls true [IChar squote])); Lit squote])])
    true.

(** /-/g *)
Definition re_hyphen : pattern := Pattern (Lit (ch "-")) false.

(** [a || b] on strings that may be null *)
Definition orElse (a : option jsstring) (b : option jsstring) : option jsstring :=
  match a with
  | Some s => if truthy s then a else b
  | None => b
  end.

(** The names every plain object inherits from [Object.prototype]
    (ECMAScript 20.1.3 and B.2.2): reading one of them from an object that
    has no entry of its own under the name yields a function, or the
    prototype object itself for [__proto__]. *)
Definition objectPrototypeNames : list jsstring :=
  map js ["constructor"; "hasOwnProperty"; "isPrototypeOf"; "propertyIsEnumerable";
          "toLocaleString"; "toString"; "valueOf"; "__proto__";
          "__defineGetter__"; "__defineSetter__"; "__lookupGetter__";
          "__lookupSetter__"]%string.

(** What a read of the color table yields: a color of the table, or an
    inherited member, which is truthy and has no [replace] method. *)
Inductive PropertyValue :=
| OwnString (s : jsstring)
| InheritedMember.

Section createCodeHighlighter.
Variable themeStyles : option DOCXThemeStyles.

(* Get code colors with defaults *)
Definition codeColorsOf : CodeColors :=
  default DEFAULT_CODE_COLORS (themeStyles ≫= codeColors).
Definition codeStyleOf : CodeStyle :=
  default DEFAULT_CODE_STYLE (themeStyles ≫= characterStyles_code).

(** [codeColors.colors?.[normalized]]: the table is a plain object, so
    the read finds an own entry or, failing that, a member that every
    object inherits. *)
Definition themeColorOf (normalized : jsstring) : option PropertyValue :=
  match colors codeColorsOf with
  | None => None
  | Some table =>
      match table !! normalized with
      | Some themeColor => Some (OwnString themeColor)
      | None =>
          if existsb (str_eqb normalized) objectPrototypeNames
          then Some InheritedMember
          else None
      end
  end.

(** The loop of [getHighlightColor] over the tokens. *)
Fixpoint firstThemeColor (tokens : list jsstring) : Exc (option jsstring) :=
  match tokens with
  | [] => Return None
  | rawToken :: tokens' =>
      if negb (truthy rawToken) then firstThemeColor tokens'
      else
        let token := if startsWith rawToken (js "hljs-") then drop 5 rawToken
                     else rawToken in
        if negb (truthy token) then firstThemeColor tokens'
        else
          let normalized := replaceAllWith re_hyphen (js "_") token in
          (* Use theme color *)
          match themeColorOf normalized with
          | Some (OwnString themeColor) =>
              if truthy themeColor then Return (Some (removeFirst (ch "#") themeColor))
              else firstThemeColor tokens'
          | Some InheritedMember =>
              (* themeColor.replace is not a function *)
              Throw (js "TypeError")
          | None => firstThemeColor tokens'
          end
  end.

Definition getHighlightColor (classList : ClassList) : Exc (option jsstring) :=
  match classList with
  | Null => Return None
  | Tokens l => firstThemeColor l
  | ClassString s => if truthy s then firstThemeColor (split re_blank s) else Return None
  end.

Definition lineBreak : TextRun :=
  {| run_text := []; run_font := None; run_size := None; run_color := None;
     run_break := Some 1%Z |}.

Definition styledRun (segment : jsstring) (appliedColor : jsstring) : TextRun :=
  {| run_text := segment;
     run_font := Some (font codeStyleOf);
     run_size := Some (size codeStyleOf);
     run_color := Some appliedColor;
     run_break := None |}.

(** The [forEach] of [appendCodeTextRuns]; the last segment is the one
    with no segment after it. *)
Fixpoint appendSegments (segments : list jsstring) (runs : list TextRun)
    (appliedColor : jsstring) : list TextRun :=
  match segments with
  | [] => runs
  | segment :: rest =>
      let runs := if 0 <? length segment then runs ++ [styledRun segment appliedColor]
                  else runs in
      let runs := match rest with
                  | [] => runs                       (* index = lastIndex *)
                  | _ :: _ => runs ++ [lineBreak]
                  end in
      appendSegments rest runs appliedColor
  end.

Definition appendCodeTextRuns (text : jsstring) (runs : list TextRun)
    (color : option jsstring) : list TextRun :=
  match text with
  | [] => runs
  | _ :: _ =>
      let segments := splitLines [] text in
      let defaultColor := foreground codeColorsOf in
      let appliedColor := default defaultColor (orElse color None) in
      appendSegments segments runs appliedColor
  end.

(** [collectHighlightedRuns(node, runs, inheritedColor)] on the tree. *)
Fixpoint collectHighlightedRuns (node : Node) (runs : list TextRun)
    (inheritedColor : option jsstring) : Exc (list TextRun) :=
  let inheritedColor :=
    match inheritedColor with
    | None => Some (foreground codeColorsOf)
    | Some _ => inheritedColor
    end in
  match node with
  | Text d => Return (appendCodeTextRuns d runs inheritedColor)
  | Comment _ => Return runs
  | Element _ attrs kids =>
      match getHighlightColor (Tokens (classList attrs)) with
      | Throw e => Throw e
      | Return color =>
          let elementColor := orElse color inheritedColor in
          let nextColor := orElse elementColor inheritedColor in
          (* node.childNodes.forEach *)
          (fix forEach (kids : list Node) (runs : list TextRun) : Exc (list TextRun) :=
             match kids with
             | [] => Return runs
             | child :: kids' =>
                 match collectHighlightedRuns child runs nextColor with
                 | Return runs' => forEach kids' runs'
                 | Throw e => Throw e
                 end
             end) kids runs
      end
  end.

End createCodeHighlighter.

(** *** The tokenizer of the Node/CLI path *)

Record Scanner := {
  stack : list (list jsstring);       (* the top of the stack is the head *)
  buffer : jsstring;
  runs : list TextRun
}.

Section appendHighlightedRunsFromHtml.
Variable getColor : option (list jsstring) -> Exc (option jsstring).
Variable appendRuns : jsstring -> list TextRun -> option jsstring -> list TextRun.
Variable defaultColor : jsstring.

(** [for (let i = stack.length - 1; i >= 0; i--)] *)
Fixpoint currentColor (stack : list (list jsstring)) : Exc jsstring :=
  match stack with
  | [] => Return defaultColor
  | top :: below =>
      match getColor (Some top) with
      | Throw e => Throw e
      | Return (Some c) => if truthy c then Return c else currentColor below
      | Return None => currentColor below
      end
  end.

Definition flush (sc : Scanner) : Exc Scanner :=
  match buffer sc with
  | [] => Return sc
  | _ :: _ =>
      let decoded := decodeHtmlEntities (buffer sc) in
      color ← currentColor (stack sc);
      Return {| stack := stack sc;
                buffer := [];
                runs := appendRuns decoded (runs sc) (Some color) |}
  end.

(** The class tokens of a [span] tag. *)
Definition spanClasses (rawTag : jsstring) : list jsstring :=
  let m := exec re_class rawTag in
  let classValue :=
    trim (match m with
          | Some r =>
              match group 1 r with
              | Some v => v
              | None => default [] (group 2 r)
              end
          | None => []
          end) in
  if truthy classValue then List.filter truthy (split re_blank classValue)
  else [].

(** The effect of one tag on the scanner. *)
Definition applyTag (rawTag : jsstring) (sc : Scanner) : Exc Scanner :=
  let tag := toLowerCase rawTag in
  (* Before changing style stack, flush accumulated text with current style. *)
  sc ← (if startsWith tag (js "span") || str_eqb tag (js "/span")
           || startsWith tag (js "br")
        then flush sc else Return sc);
  Return
    (if startsWith tag (js "span") then
       {| stack := spanClasses rawTag :: stack sc; buffer := buffer sc; runs := runs sc |}
     else if str_eqb tag (js "/span") then
       {| stack := tail (stack sc); buffer := buffer sc; runs := runs sc |}
     else if startsWith tag (js "br") then
       {| stack := stack sc; buffer := buffer sc ++ [10%N]; runs := runs sc |}
     else
       (* Ignore unknown tags but keep their inner text (already handled by buffer) *)
       sc).

(** The [while (i < html.length)] loop on the text from [i] on.  After a
    tag, [i = end + 1]: [skip] counts the code units up to there. *)
Fixpoint scan (skip : nat) (html : jsstring) (sc : Scanner) : Exc Scanner :=
  match html with
  | [] => Return sc
  | c :: html' =>
      match skip with
      | S n => scan n html' sc
      | O =>
          if negb (c =? ch "<")%N then
            scan 0 html' {| stack := stack sc; buffer := buffer sc ++ [c]; runs := runs sc |}
          else
            match indexOf (ch ">") html' with
            | None =>
                (* Treat remainder as text *)
                Return {| stack := stack sc; buffer := buffer sc ++ html; runs := runs sc |}
            | Some n =>
                let rawTag := trim (take n html') in
                match applyTag rawTag sc with
                | Return sc' => scan (S n) html' sc'
                | Throw e => Throw e
                end
            end
      end
  end.

Definition appendHighlightedRunsFromHtml (html : jsstring) (runs0 : list TextRun)
    : Exc (list TextRun) :=
  sc ← scan 0 html {| stack := []; buffer := []; runs := runs0 |};
  sc ← flush sc;
  Return (runs sc).

End appendHighlightedRunsFromHtml.

(** The highlighting engine: an external collaborator. *)
Record Hljs := {
  getLanguage : jsstring -> bool;
  highlight : jsstring -> jsstring -> Exc jsstring      (* code, language: [.value] *)
}.

Section getHighlightedRunsForCode.
Variable themeStyles : option DOCXThemeStyles.
Variable env : Env.
Variable hljs : Hljs.

Definition getHighlightedRunsForCode (code : jsstring) (language : option jsstring)
    : Exc (list TextRun) :=
  let runs : list TextRun := [] in
  if negb (truthy code) then
    Return (runs ++ [styledRun themeStyles [] (foreground (codeColorsOf themeStyles))])
  else
    let highlightResult : option jsstring :=
      match language with
      | Some l =>
          if truthy l && getLanguage hljs l
          then
            match highlight hljs code l with
            | Return value => Some value
            | Throw _ => None                  (* console.warn *)
            end
          else None
      | None => None
      end in
    let defaultColor := foreground (codeColorsOf themeStyles) in
    runs ←
      match highlightResult with
      | Some value =>
          if truthy value then
            match env with
            | Some document =>
                container ← setInnerHTML document value;
                collectHighlightedRuns themeStyles
                  (Element (js "DIV") [] container) runs (Some defaultColor)
            | None =>
                (* Node/CLI: parse highlight.js HTML without DOM. *)
                appendHighlightedRunsFromHtml
                  (fun cls => getHighlightColor themeStyles (classListOf cls))
                  (appendCodeTextRuns themeStyles)
                  defaultColor value runs
            end
          else Return runs
      | None => Return runs
      end;
    Return (match runs with
            | [] => appendCodeTextRuns themeStyles code runs (Some defaultColor)
            | _ :: _ => runs
            end).

End getHighlightedRunsForCode.

End Highlighter.
Export Highlighter.

(** ** What the properties are stated with *)

Module Spec.

(** *** Matching, declaratively

    [Matches icase r st st']: the pattern [r] can take the matcher from
    [st] to [st'].  Backtracking explores every such path in some order. *)
Inductive Matches (icase : bool) : regex -> mstate -> mstate -> Prop :=
| M_Eps st : Matches icase Eps st st
| M_Cls negated items p c tl cs :
    cls_mem icase negated items c = true ->
    Matches icase (Cls negated items) (MState p (c :: tl) cs) (MState (Some c) tl cs)
| M_Seq r1 r2 st st1 st2 :
    Matches icase r1 st st1 -> Matches icase r2 st1 st2 ->
    Matches icase (Seq r1 r2) st st2
| M_AltL r1 r2 st st' : Matches icase r1 st st' -> Matches icase (Alt r1 r2) st st'
| M_AltR r1 r2 st st' : Matches icase r2 st st' -> Matches icase (Alt r1 r2) st st'
| M_StarO greedy r st : Matches icase (Star greedy r) st st
| M_StarS greedy r st st1 st2 :
    Matches icase r st st1 ->
    length (rest st1) < length (rest st) ->
    Matches icase (Star greedy r) st1 st2 ->
    Matches icase (Star greedy r) st st2
| M_Bol st : prev st = None -> Matches icase Bol st st
| M_Eol st : rest st = [] -> Matches icase Eol st st.

(** The vocabulary of the matcher's correctness. *)
Definition never_exhausted (k : cont) : Prop := forall st, k st <> Exhausted.

Definition succeeds (o : outcome) : Prop := exists fin, o = Matched fin.

(** What the declarative relation promises of the matcher ... *)
Definition completes (icase : bool) (r : regex) (st st' : mstate) : Prop :=
  forall k, never_exhausted k -> succeeds (k st') -> succeeds (run icase r k st).

Definition star_completes (icase : bool) (r : regex) (st st' : mstate) : Prop :=
  match r with
  | Star greedy r1 =>
      forall fuel k, length (rest st) < fuel -> never_exhausted k -> succeeds (k st') ->
                     succeeds (star_loop fuel (run icase r1) greedy k st)
  | _ => True
  end.

(** ... and the matcher of the relation. *)
Definition sound (icase : bool) (r : regex) : Prop :=
  forall k st fin, run icase r k st = Matched fin ->
                   exists st', Matches icase r st st' /\ k st' = Matched fin.

(** Patterns without captures, back references and word boundaries. *)
Fixpoint simple (r : regex) : Prop :=
  match r with
  | Seq r1 r2 | Alt r1 r2 => simple r1 /\ simple r2
  | Star _ r1 => simple r1
  | Group _ _ | Backref _ | WordB => False
  | _ => True
  end.

(** [r] can consume exactly [t], whatever stands around it. *)
Definition Steps (icase : bool) (r : regex) (t : jsstring) : Prop :=
  forall p tl cs, exists p', Matches icase r (MState p (t ++ tl) cs) (MState p' tl cs).

(** *** Line breaks only

    A line-break element is [<br], blanks, an optional [/] and [>], in
    either case; what may stand between and after the elements is white
    space and the entity [&nbsp;]. *)
Inductive Filler : jsstring -> Prop :=
| Filler_nil : Filler []
| Filler_space c s : isWhiteSpace c = true -> Filler s -> Filler (c :: s)
| Filler_nbsp e s : toLowerCase e = js "&nbsp;" -> Filler s -> Filler (e ++ s).

Inductive LineBreak : jsstring -> Prop :=
| LineBreak_intro b r ws slash :
    lowerChar b = ch "b" -> lowerChar r = ch "r" ->
    Forall (fun c => isWhiteSpace c = true) ws ->
    slash = [] \/ slash = js "/" ->
    LineBreak (ch "<" :: b :: r :: ws ++ slash ++ js ">").

Inductive OnlyLineBreaks : jsstring -> Prop :=
| OnlyLineBreaks_one t f : LineBreak t -> Filler f -> OnlyLineBreaks (t ++ f)
| OnlyLineBreaks_more t f s :
    LineBreak t -> Filler f -> OnlyLineBreaks s -> OnlyLineBreaks (t ++ f ++ s).

(** One iteration of the guard of [sanitizeAndCheck]. *)
Definition br_unit : regex :=
  Seqs [Str (js "<br"); Star true Space; Opt (Lit (ch "/")); Lit (ch ">");
        Star true (Alt Space (Str (js "&nbsp;")))].

(** The visible-content check of the sanitizer: the [hasContent] that
    [sanitizeAndCheck] reports. *)
Definition hasVisibleContent (env : Env) (html : jsstring) : Exc bool :=
  r ← sanitizeAndCheck env html; Return (hasContent r).

(** *** Image signatures *)

Definition hasSignature (sig : list byte) (at_offset : nat) (bytes : Uint8Array) : Prop :=
  take (length sig) (drop at_offset bytes) = sig.

Definition isPNG (bytes : Uint8Array) : Prop := hasSignature [x89; x50; x4e; x47] 0 bytes.
Definition isGIF (bytes : Uint8Array) : Prop := hasSignature [x47; x49; x46] 0 bytes.
Definition isBMP (bytes : Uint8Array) : Prop := hasSignature [x42; x4d] 0 bytes.
Definition isJPEG (bytes : Uint8Array) : Prop := hasSignature [xff; xd8] 0 bytes.
Definition isWEBP (bytes : Uint8Array) : Prop :=
  hasSignature [x52; x49; x46; x46] 0 bytes /\ hasSignature [x57; x45; x42; x50] 8 bytes.

Definition Unrecognized (bytes : Uint8Array) : Prop :=
  ~ isPNG bytes /\ ~ isGIF bytes /\ ~ isBMP bytes /\ ~ isJPEG bytes /\ ~ isWEBP bytes.

(** A recognized container whose header cannot be read: it is cut short,
    the JPEG marker scan ends without a frame header, or the WEBP chunk is
    neither VP8X nor a VP8L with its signature byte. *)
Definition Malformed (bytes : Uint8Array) : Prop :=
  (isPNG bytes /\ length bytes < 24)
  \/ (isGIF bytes /\ length bytes < 10)
  \/ (isBMP bytes /\ length bytes < 26)
  \/ (isJPEG bytes /\ (length bytes < 4 \/ jpegScan (length bytes) bytes 2 = NoSof))
  \/ (isWEBP bytes
      /\ (length bytes < 30
          \/ (chunkType bytes <> js "VP8X"
              /\ (chunkType bytes <> js "VP8L" \/ bytes !! 20 <> Some x2f)))).

(** The patterns the streaming sanitizer removes, in its order. *)
Definition streamingPatterns : list pattern :=
  [re_comment; re_element (js "script"); re_element (js "iframe");
   re_element (js "object"); re_element (js "embed"); re_element (js "audio");
   re_element (js "video"); re_handler; re_js_href].

(** No pattern of the streaming sanitizer is found in [html]. *)
Definition StreamingClean (html : jsstring) : Prop :=
  Forall (fun p => test p html = false) streamingPatterns.

(** The dimensions an element places its image with. *)
Definition placedDimensions {T : Type} (e : DocxElement T) : option (ImageDimensions T) :=
  match e with
  | Inline (NewImageRun o) => Some (ir_transformation o)
  | NewParagraph {| p_children := [NewImageRun o] |} => Some (ir_transformation o)
  | _ => None
  end.

(** The four bytes from [o] on as a little-endian integer, unsigned and in
    two's complement. *)
Definition le32 (bytes : Uint8Array) (o : nat) : Z :=
  (at_ bytes o + 2 ^ 8 * at_ bytes (o + 1) + 2 ^ 16 * at_ bytes (o + 2)
   + 2 ^ 24 * at_ bytes (o + 3))%Z.

Definition signed32 (u : Z) : Z := if (u <? 2 ^ 31)%Z then u else (u - 2 ^ 32)%Z.

(** *** Color resolution, in the words of the specification *)

Section Resolve.
Variable table : gmap jsstring jsstring.

(** strip the namespace prefix if present, normalize hyphens *)
Definition stripPrefix (token : jsstring) : jsstring :=
  if startsWith token (js "hljs-") then drop 5 token else token.

Definition normalizeHyphens (token : jsstring) : jsstring :=
  map (fun c => if (c =? ch "-")%N then ch "_" else c) token.

(** the color a class token resolves to: the table's entry, written
    without its [#] *)
Definition resolveToken (token : jsstring) : option jsstring :=
  removeFirst (ch "#") <$> table !! normalizeHyphens (stripPrefix token).

(** the first token that resolves, scopes innermost first *)
Fixpoint firstResolved (tokens : list jsstring) : option jsstring :=
  match tokens with
  | [] => None
  | t :: tokens' =>
      match resolveToken t with
      | Some c => Some c
      | None => firstResolved tokens'
      end
  end.

Definition resolveColor (foreground : jsstring) (stack : list (list jsstring)) : jsstring :=
  default foreground (firstResolved (concat stack)).

(** A table with a color under every name it has: no entry under the
    empty name, and no entry that is empty or a bare [#]. *)
Definition ProperTable : Prop :=
  table !! [] = None
  /\ forall name c, table !! name = Some c -> removeFirst (ch "#") c <> [].

End Resolve.

(** No token names, once its prefix is stripped and its hyphens are
    normalized, a member that every object inherits. *)
Definition OwnNames (tokens : list jsstring) : Prop :=
  Forall (fun token => normalizeHyphens (stripPrefix token) ∉ objectPrototypeNames) tokens.

(** The tags of a markup, as the text between a [<] and the next [>],
    trimmed; a [<] with no [>] after it opens no tag. *)
Fixpoint rawTags (skip : nat) (html : jsstring) : list jsstring :=
  match html with
  | [] => []
  | c :: html' =>
      match skip with
      | S n => rawTags n html'
      | O =>
          if negb (c =? ch "<")%N then rawTags 0 html'
          else
            match indexOf (ch ">") html' with
            | None => []
            | Some n => trim (take n html') :: rawTags (S n) html'
            end
      end
  end.

Definition isSpanTag (rawTag : jsstring) : bool :=
  startsWith (toLowerCase rawTag) (js "span").

(** The class tokens of the [span] tags of a markup. *)
Definition markupClasses (html : jsstring) : list jsstring :=
  flat_map spanClasses (List.filter isSpanTag (rawTags 0 html)).

(** *** Runs and lines *)

Definition newline : char := 10%N.

Definition isBreak (r : TextRun) : bool :=
  match run_break r with Some _ => true | None => false end.

(** The text a run stands for: a line break for the marker. *)
Definition runText (r : TextRun) : jsstring :=
  if isBreak r then [newline] else run_text r.

Definition NoNewline (r : TextRun) : Prop := newline ∉ run_text r.

(** No two text runs stand side by side: between two of them is a break. *)
Fixpoint separated (l : list TextRun) : Prop :=
  match l with
  | r1 :: (r2 :: _) as l' => (isBreak r1 = true \/ isBreak r2 = true) /\ separated l'
  | _ => True
  end.

Definition endsWithBreak (l : list TextRun) : Prop :=
  match last l with
  | Some r => isBreak r = true
  | None => True
  end.

(** The lines of a text, joined again by line breaks. *)
Fixpoint joinLines (lines : list jsstring) : jsstring :=
  match lines with
  | [] => []
  | [l] => l
  | l :: lines' => l ++ [newline] ++ joinLines lines'
  end.

(** The runs of a sequence of text pieces, each split on its own with its
    color. *)
Definition splitsOf (themeStyles : option DOCXThemeStyles)
    (pieces : list (jsstring * option jsstring)) : list TextRun :=
  flat_map (fun piece => appendCodeTextRuns themeStyles (fst piece) [] (snd piece)) pieces.

(** A theme with a given default foreground and color table. *)
Definition themeOf (fg : jsstring) (table : gmap jsstring jsstring)
    (style : option CodeStyle) : option DOCXThemeStyles :=
  Some {| codeColors := Some {| foreground := fg; colors := Some table |};
          characterStyles_code := style |}.

(** The markup of the scenario: a keyword span around [if], then [ x]. *)
Definition keywordMarkup : jsstring :=
  js "<span class=" ++ [dquote] ++ js "hljs-keyword" ++ [dquote] ++ js ">if</span> x".

(** *** Clean trees *)

Fixpoint cleanNode (n : Node) : bool :=
  match n with
  | Element tag attrs kids =>
      negb (isBlocked tag)
      && forallb (fun a => negb (isDangerousAttr a)) attrs
      && forallb cleanNode kids
  | Comment _ => false
  | Text _ => true
  end.

(** Attribute names are unique in an element of a document. *)
Fixpoint uniqueAttrs (n : Node) : Prop :=
  match n with
  | Element _ attrs kids =>
      NoDup (map attr_name attrs)
      /\ (fix all (l : list Node) : Prop :=
            match l with
            | [] => True
            | k :: l' => uniqueAttrs k /\ all l'
            end) kids
  | _ => True
  end.

End Spec.
Export Spec.

(** ** What the further properties are stated with *)

Module Terms.

(** The least number of code units a match of [r] consumes. *)
Fixpoint minLength (r : regex) : nat :=
  match r with
  | Cls _ _ => 1
  | Seq r1 r2 => minLength r1 + minLength r2
  | Alt r1 r2 => Nat.min (minLength r1) (minLength r2)
  | Group _ r1 => minLength r1
  | Eps | Star _ _ | Backref _ | WordB | Bol | Eol => 0
  end.

(** Whenever [body] leads to a match, it has consumed [n] code units or
    more before its continuation. *)
Definition consumes (n : nat) (body : cont -> cont) : Prop :=
  forall k st fin, body k st = Matched fin ->
                   exists st', k st' = Matched fin /\ length (rest st') + n <= length (rest st).

(** The passes of [sanitizeHtmlWithoutDom]: each pattern with what its
    matches are replaced by. *)
Definition streamingStages : list (pattern * jsstring) :=
  [(re_comment, []);
   (re_element (js "script"), []); (re_element (js "iframe"), []);
   (re_element (js "object"), []); (re_element (js "embed"), []);
   (re_element (js "audio"), []); (re_element (js "video"), []);
   (re_handler, []);
   (re_js_href, js " href=" ++ [dquote] ++ js "#" ++ [dquote])].

Definition runStages (stages : list (pattern * jsstring)) (s : jsstring) : jsstring :=
  fold_left (fun out stage => replaceAllWith (fst stage) (snd stage) out) stages s.

(** No blocked element anywhere in the tree. *)
Fixpoint blockedFree (n : Node) : bool :=
  match n with
  | Element tag _ kids => negb (isBlocked tag) && forallb blockedFree kids
  | _ => true
  end.

Definition visible (c : char) : bool := negb (isWhiteSpace c).

(** The bytes from [o] on as an unsigned integer, most or least
    significant byte first. *)
Definition be32 (bytes : Uint8Array) (o : nat) : Z :=
  (2 ^ 24 * at_ bytes o + 2 ^ 16 * at_ bytes (o + 1) + 2 ^ 8 * at_ bytes (o + 2)
   + at_ bytes (o + 3))%Z.
Definition be16 (bytes : Uint8Array) (o : nat) : Z :=
  (2 ^ 8 * at_ bytes o + at_ bytes (o + 1))%Z.
Definition le16 (bytes : Uint8Array) (o : nat) : Z :=
  (at_ bytes o + 2 ^ 8 * at_ bytes (o + 1))%Z.
Definition le24 (bytes : Uint8Array) (o : nat) : Z :=
  (at_ bytes o + 2 ^ 8 * at_ bytes (o + 1) + 2 ^ 16 * at_ bytes (o + 2))%Z.

(** A marker segment of a JPEG stream: [FF], the marker, the two bytes of
    the length (which counts itself) and the payload. *)
Record Segment := {
  seg_marker : byte;
  seg_hi : byte;
  seg_lo : byte;
  seg_payload : list byte
}.

Definition segmentBytes (s : Segment) : list byte :=
  [xff; seg_marker s; seg_hi s; seg_lo s] ++ seg_payload s.

(** A segment the marker loop steps over: its marker is no fill byte, no
    end of image, no start of scan and no frame header, and its length
    field is the length of what follows the marker. *)
Definition Skipped (s : Segment) : Prop :=
  byteZ (seg_marker s) <> 255%Z
  /\ byteZ (seg_marker s) <> 217%Z
  /\ byteZ (seg_marker s) <> 218%Z
  /\ isSOF (Some (byteZ (seg_marker s))) = false
  /\ (2 ^ 8 * byteZ (seg_hi s) + byteZ (seg_lo s) = 2 + Z.of_nat (length (seg_payload s)))%Z.

(** The literal a pattern begins with, when it begins with one. *)
Fixpoint firstLit (r : regex) : option char :=
  match r with
  | Cls false [IChar c] => Some c
  | Seq r1 _ => firstLit r1
  | Group _ r1 => firstLit r1
  | _ => None
  end.

End Terms.
Export Terms.

(** ** Binary64 values and rounding

    What the arithmetic of the image utilities is measured against: the
    rational a float stands for, and the place of a real in the grid of the
    multiples of a power of two, as the rounding of the IEEE operations
    sees it. *)

Module Binary64.

Definition pow2 (e : Z) : Q := (2 ^ e)%Q.

(** The rational a finite float stands for. *)
Definition SFvalue (x : spec_float) : option Q :=
  match x with
  | S754_zero _ => Some 0%Q
  | S754_finite s m e =>
      Some ((if s then - inject_Z (Z.pos m) else inject_Z (Z.pos m)) * pow2 e)%Q
  | _ => None
  end.

Definition f64_value (x : float) : option Q := SFvalue (Prim2SF x).

(** [x] lies in the interval from m * 2^e to (m + 1) * 2^e, at the place
    that [l] tells: at its start, below, at or above its middle. *)
Definition located (m e : Z) (l : location) (x : Q) : Prop :=
  match l with
  | loc_Exact => (x == inject_Z m * pow2 e)%Q
  | loc_Inexact Lt =>
      (inject_Z m * pow2 e < x)%Q /\ (x < inject_Z m * pow2 e + (1 # 2) * pow2 e)%Q
  | loc_Inexact Eq => (x == inject_Z m * pow2 e + (1 # 2) * pow2 e)%Q
  | loc_Inexact Gt =>
      (inject_Z m * pow2 e + (1 # 2) * pow2 e < x)%Q
      /\ (x < inject_Z m * pow2 e + pow2 e)%Q
  end.

(** What rounding to nearest makes of a real that is not negative: zero
    when it is at most half the least positive float, a float within half
    a unit of its last place, or infinity when it is huge. *)
Inductive Rounded (x : Q) : spec_float -> Prop :=
| Rounded_zero : (x <= pow2 (-1075))%Q -> Rounded x (S754_zero false)
| Rounded_finite m e :
    (inject_Z (Z.pos m) * pow2 e - x <= pow2 (e - 1))%Q ->
    (x - inject_Z (Z.pos m) * pow2 e <= pow2 (e - 1))%Q ->
    Rounded x (S754_finite false m e)
| Rounded_infinity : (pow2 971 <= x)%Q -> Rounded x (S754_infinity false).

(** [R] is +0 or a positive finite float, and stands for [v]. *)
Definition NonNegative (R : spec_float) (v : Q) : Prop :=
  match R with
  | S754_zero false => (v == 0)%Q
  | S754_finite false m e => (v == inject_Z (Z.pos m) * pow2 e)%Q
  | _ => False
  end.

(** [R] is within the rounding error of [x]: a relative error of 2^-53
    and an absolute one of 2^-1075, or infinity for a huge [x]. *)
Definition Near (x : Q) (R : spec_float) : Prop :=
  (R = S754_infinity false /\ (pow2 971 <= x)%Q)
  \/ exists v,
       NonNegative R v
       /\ ((1 - (1 # 9007199254740992)) * v - pow2 (-1075) <= x)%Q
       /\ (x <= (1 + (1 # 9007199254740992)) * v + pow2 (-1075))%Q.

(** The float [x] is finite and stands for the rational [q]. *)
Definition f64_is (x : float) (q : Q) : Prop :=
  match f64_value x with
  | Some v => (v == q)%Q
  | None => False
  end.

End Binary64.
Export Binary64.

(** * Properties *)

(** ** The matcher *)

Section RegexTotal.

Lemma star_loop_total (body : cont -> cont) :
  (forall k, never_exhausted k -> never_exhausted (body k)) ->
  forall fuel greedy k st,
    never_exhausted k -> length (rest st) < fuel ->
    star_loop fuel body greedy k st <> Exhausted.
Proof.
  intros Hbody fuel. induction fuel as [|f IH]; intros greedy k st Hk Hlt; [lia|].
  assert (Hin : never_exhausted
            (fun st' => if length (rest st') <? length (rest st)
                        then star_loop f body greedy k st' else Mismatch)).
  { intros st'. destruct (Nat.ltb_spec (length (rest st')) (length (rest st))); [|discriminate].
    apply IH; [assumption | lia]. }
  specialize (Hbody _ Hin st). specialize (Hk st).
  cbn [star_loop]. destruct greedy.
  - destruct (body _ st); congruence.
  - destruct (k st); congruence.
Qed.

Lemma run_total icase r : forall k, never_exhausted k -> never_exhausted (run icase r k).
Proof.
  induction r as [|neg items|r1 IH1 r2 IH2|r1 IH1 r2 IH2|g r IH|n r IH|n| | |];
    intros k Hk st; cbn [run].
  - apply Hk.
  - destruct (rest st); [discriminate|]. destruct cls_mem; [apply Hk|discriminate].
  - apply IH1, IH2, Hk.
  - specialize (IH1 k Hk st). specialize (IH2 k Hk st).
    destruct (run icase r1 k st); congruence.
  - apply star_loop_total; auto.
  - apply IH. intros st'. apply Hk.
  - destruct cap_lookup; [|apply Hk]. destruct canon_prefix; [apply Hk|discriminate].
  - destruct xorb; [apply Hk|discriminate].
  - destruct (prev st); [discriminate|apply Hk].
  - destruct (rest st); [apply Hk|discriminate].
Qed.

Lemma Matched_never_exhausted : never_exhausted Matched.
Proof. intros st. discriminate. Qed.

(** A match attempt ends within the budget of its loops: it matches or it
    does not. *)
Lemma exec_here_total (p : pattern) pv s :
  run (pat_icase p) (pat_regex p) Matched (MState pv s []) <> Exhausted.
Proof. apply run_total, Matched_never_exhausted. Qed.

End RegexTotal.

Section RegexComplete.
Variable icase : bool.

Lemma succeeds_or_else (a b : outcome) :
  a <> Exhausted -> succeeds b ->
  succeeds (match a with Mismatch => b | Matched x => Matched x | Exhausted => Exhausted end).
Proof. intros Ha Hb. destruct a; [assumption | eexists; reflexivity | congruence]. Qed.

Lemma run_complete_aux r st st' :
  Matches icase r st st' -> completes icase r st st' /\ star_completes icase r st st'.
Proof.
  induction 1 as [st|neg items p c tl cs Hmem|r1 r2 st st1 st2 _ [IH1 _] _ [IH2 _]
                 |r1 r2 st st' _ [IH _]|r1 r2 st st' _ [IH _]
                 |g r st|g r st st1 st2 _ [IHr _] Hlt _ [_ IHs]|st Hp|st Hr].
  - split; [|exact I]. intros k _ Hk. exact Hk.
  - split; [|exact I]. intros k _ Hk. cbn [run rest caps]. rewrite Hmem. exact Hk.
  - split; [|exact I]. intros k Hne Hk. cbn [run].
    apply IH1; [apply run_total, Hne|]. apply IH2; assumption.
  - split; [|exact I]. intros k Hne Hk. cbn [run].
    specialize (IH k Hne Hk). destruct IH as [fin ->]. eexists; reflexivity.
  - split; [|exact I]. intros k Hne Hk. cbn [run].
    apply succeeds_or_else; [apply run_total, Hne|]. apply IH; assumption.
  - assert (Hs : star_completes icase (Star g r) st st).
    { intros fuel k Hf Hne Hk. destruct fuel as [|f]; [lia|]. cbn [star_loop].
      destruct g.
      - apply succeeds_or_else; [|assumption].
        apply run_total. intros st'.
        destruct (Nat.ltb_spec (length (rest st')) (length (rest st))); [|discriminate].
        apply star_loop_total; [apply run_total|assumption|lia].
      - destruct Hk as [fin ->]. eexists; reflexivity. }
    split; [|exact Hs]. intros k Hne Hk. cbn [run]. apply Hs; auto.
  - assert (Hs : star_completes icase (Star g r) st st2).
    { intros fuel k Hf Hne Hk. destruct fuel as [|f]; [lia|]. cbn [star_loop].
      assert (Hin : never_exhausted
                (fun st' => if length (rest st') <? length (rest st)
                            then star_loop f (run icase r) g k st' else Mismatch)).
      { intros st'.
        destruct (Nat.ltb_spec (length (rest st')) (length (rest st))); [|discriminate].
        apply star_loop_total; [apply run_total|assumption|lia]. }
      assert (Hagain : succeeds (run icase r
                (fun st' => if length (rest st') <? length (rest st)
                            then star_loop f (run icase r) g k st' else Mismatch) st)).
      { apply IHr; [exact Hin|]. cbv beta.
        destruct (Nat.ltb_spec (length (rest st1)) (length (rest st))); [|lia].
        apply IHs; [lia|assumption|assumption]. }
      destruct g.
      - destruct Hagain as [fin ->]. eexists; reflexivity.
      - apply succeeds_or_else; [apply Hne|assumption]. }
    split; [|exact Hs]. intros k Hne Hk. cbn [run]. apply Hs; auto.
  - split; [|exact I]. intros k _ Hk. cbn [run]. rewrite Hp. exact Hk.
  - split; [|exact I]. intros k _ Hk. cbn [run]. rewrite Hr. exact Hk.
Qed.

Lemma run_complete r st st' : Matches icase r st st' -> completes icase r st st'.
Proof. intros H. apply run_complete_aux, H. Qed.

End RegexComplete.

Lemma test_complete (p : pattern) (s : jsstring) st' :
  Matches (pat_icase p) (pat_regex p) (MState None s []) st' -> test p s = true.
Proof.
  intros H. unfold test, exec. destruct s as [|c s]; cbn [exec_from]; unfold exec_here.
  - destruct (run_complete _ _ _ _ H Matched Matched_never_exhausted) as [fin ->];
      [eexists; reflexivity|reflexivity].
  - destruct (run_complete _ _ _ _ H Matched Matched_never_exhausted) as [fin ->];
      [eexists; reflexivity|reflexivity].
Qed.

Section Steps.
Variable icase : bool.

Lemma Steps_Eps : Steps icase Eps [].
Proof. intros p tl cs. exists p. apply M_Eps. Qed.

Lemma Steps_Cls negated items c :
  cls_mem icase negated items c = true -> Steps icase (Cls negated items) [c].
Proof. intros H p tl cs. exists (Some c). apply M_Cls, H. Qed.

Lemma Steps_Seq r1 r2 t1 t2 :
  Steps icase r1 t1 -> Steps icase r2 t2 -> Steps icase (Seq r1 r2) (t1 ++ t2).
Proof.
  intros H1 H2 p tl cs. destruct (H1 p (t2 ++ tl) cs) as [p1 M1].
  destruct (H2 p1 tl cs) as [p2 M2]. exists p2.
  rewrite <- app_assoc. eapply M_Seq; eassumption.
Qed.

Lemma Steps_AltL r1 r2 t : Steps icase r1 t -> Steps icase (Alt r1 r2) t.
Proof. intros H p tl cs. destruct (H p tl cs) as [p' M]. exists p'. apply M_AltL, M. Qed.

Lemma Steps_AltR r1 r2 t : Steps icase r2 t -> Steps icase (Alt r1 r2) t.
Proof. intros H p tl cs. destruct (H p tl cs) as [p' M]. exists p'. apply M_AltR, M. Qed.

Lemma Steps_Star_nil greedy r : Steps icase (Star greedy r) [].
Proof. intros p tl cs. exists p. apply M_StarO. Qed.

Lemma Steps_Star_cons greedy r t1 t2 :
  Steps icase r t1 -> t1 <> [] -> Steps icase (Star greedy r) t2 ->
  Steps icase (Star greedy r) (t1 ++ t2).
Proof.
  intros H1 Hne H2 p tl cs. destruct (H1 p (t2 ++ tl) cs) as [p1 M1].
  destruct (H2 p1 tl cs) as [p2 M2]. exists p2.
  rewrite <- app_assoc. eapply M_StarS; [exact M1| |exact M2].
  cbn [rest]. rewrite !length_app. destruct t1; [congruence|]. cbn [length]. lia.
Qed.

Lemma Steps_Star_each greedy negated items t :
  Forall (fun c => cls_mem icase negated items c = true) t ->
  Steps icase (Star greedy (Cls negated items)) t.
Proof.
  induction 1 as [|c t Hc _ IH]; [apply Steps_Star_nil|].
  change (c :: t) with ([c] ++ t).
  apply Steps_Star_cons; [apply Steps_Cls, Hc|discriminate|exact IH].
Qed.

Lemma Steps_Str pat t :
  pat <> [] ->
  Forall2 (fun a c => canon icase a = canon icase c) pat t ->
  Steps icase (Str pat) t.
Proof.
  intros Hne H. induction H as [|a c pat t Hac H IH]; [congruence|].
  assert (Hc : Steps icase (Lit a) [c]).
  { apply Steps_Cls. unfold cls_mem. cbn. rewrite Hac, N.eqb_refl. reflexivity. }
  destruct pat as [|a' pat].
  - inversion H; subst. exact Hc.
  - change (Str (a :: a' :: pat)) with (Seq (Lit a) (Str (a' :: pat))).
    change (c :: t) with ([c] ++ t). apply Steps_Seq; [exact Hc|].
    apply IH. discriminate.
Qed.

End Steps.

Lemma canon_lowerChar c : canon true (lowerChar c) = canon true c.
Proof.
  unfold canon, lowerChar, isLowerAscii, isUpperAscii, in_range. cbn [andb].
  destruct (N.leb_spec 65 c), (N.leb_spec c 90); cbn [andb];
    repeat match goal with
           | |- context [(?a <=? ?b)%N] => destruct (N.leb_spec a b); cbn [andb]
           end; lia.
Qed.

Lemma Forall2_canon_lower pat e :
  toLowerCase e = pat -> Forall2 (fun a c => canon true a = canon true c) pat e.
Proof.
  intros <-. induction e as [|c e IH]; constructor; [apply canon_lowerChar|exact IH].
Qed.

Lemma Steps_filler f :
  Filler f -> Steps true (Star true (Alt Space (Str (js "&nbsp;")))) f.
Proof.
  induction 1 as [|c s Hc _ IH|e s He _ IH].
  - apply Steps_Star_nil.
  - change (c :: s) with ([c] ++ s). apply Steps_Star_cons; [|discriminate|exact IH].
    apply Steps_AltL, Steps_Cls. unfold cls_mem. cbn. rewrite Hc. reflexivity.
  - apply Steps_Star_cons; [|intros ->; discriminate|exact IH].
    apply Steps_AltR, Steps_Str; [discriminate|]. apply Forall2_canon_lower, He.
Qed.

Lemma Steps_line_break t :
  LineBreak t ->
  Steps true (Seqs [Str (js "<br"); Star true Space; Opt (Lit (ch "/")); Lit (ch ">")]) t.
Proof.
  intros [b r ws slash Hb Hr Hws Hslash].
  change (ch "<" :: b :: r :: ws ++ slash ++ js ">")
    with ([ch "<"; b; r] ++ ws ++ slash ++ js ">").
  cbn [Seqs]. apply Steps_Seq; [|apply Steps_Seq; [|apply Steps_Seq]].
  - apply Steps_Str; [discriminate|]. apply Forall2_canon_lower. cbn. rewrite Hb, Hr. reflexivity.
  - apply Steps_Star_each. eapply Forall_impl; [exact Hws|].
    intros c Hc. unfold cls_mem. cbn. rewrite Hc. reflexivity.
  - destruct Hslash as [-> | ->].
    + apply Steps_AltR, Steps_Eps.
    + apply Steps_AltL, Steps_Cls. reflexivity.
  - apply Steps_Cls. reflexivity.
Qed.

Lemma Steps_br_unit t f : LineBreak t -> Filler f -> Steps true br_unit (t ++ f).
Proof.
  intros Ht Hf. pose proof (Steps_line_break t Ht) as H1. pose proof (Steps_filler f Hf) as H2.
  intros p tl cs. destruct (H1 p (f ++ tl) cs) as [p1 M1]. destruct (H2 p1 tl cs) as [p2 M2].
  exists p2. rewrite <- app_assoc. unfold br_unit. cbn [Seqs] in *.
  inversion M1 as [| |? ? ? s1 ? Ma Mb| | | | | |]; subst.
  inversion Mb as [| |? ? ? s2 ? Mc Md| | | | | |]; subst.
  inversion Md as [| |? ? ? s3 ? Me Mf| | | | | |]; subst.
  eapply M_Seq; [exact Ma|]. eapply M_Seq; [exact Mc|]. eapply M_Seq; [exact Me|].
  eapply M_Seq; [exact Mf|exact M2].
Qed.

Lemma LineBreak_nonempty t f : LineBreak t -> t ++ f <> [].
Proof. intros [] . discriminate. Qed.

Lemma Steps_units s : OnlyLineBreaks s -> Steps true (Star true br_unit) s.
Proof.
  induction 1 as [t f Ht Hf|t f s Ht Hf _ IH].
  - rewrite <- (app_nil_r (t ++ f)).
    apply Steps_Star_cons; [apply Steps_br_unit; assumption|
                            apply LineBreak_nonempty, Ht|apply Steps_Star_nil].
  - rewrite app_assoc.
    apply Steps_Star_cons; [apply Steps_br_unit; assumption|
                            apply LineBreak_nonempty, Ht|exact IH].
Qed.

Lemma only_breaks_matches s : OnlyLineBreaks s -> test re_only_breaks s = true.
Proof.
  intros H.
  assert (Hplus : Steps true (Plus true br_unit) s).
  { destruct H as [t f Ht Hf|t f s Ht Hf Hs].
    - rewrite <- (app_nil_r (t ++ f)).
      apply Steps_Seq; [apply Steps_br_unit; assumption|apply Steps_Star_nil].
    - rewrite app_assoc.
      apply Steps_Seq; [apply Steps_br_unit; assumption|apply Steps_units, Hs]. }
  destruct (Hplus None [] []) as [p' M]. rewrite app_nil_r in M.
  eapply test_complete with (st' := MState p' [] []).
  change (pat_regex re_only_breaks) with (Seq Bol (Seq (Plus true br_unit) Eol)).
  eapply M_Seq; [apply M_Bol; reflexivity|]. eapply M_Seq; [exact M|]. apply M_Eol. reflexivity.
Qed.

Section RegexSound.
Variable icase : bool.

Lemma star_loop_sound greedy r :
  sound icase r ->
  forall fuel k st fin,
    star_loop fuel (run icase r) greedy k st = Matched fin ->
    exists st', Matches icase (Star greedy r) st st' /\ k st' = Matched fin.
Proof.
  intros Hr fuel. induction fuel as [|f IH]; intros k st fin; cbn [star_loop]; [discriminate|].
  set (k' := fun st' => if length (rest st') <? length (rest st)
                        then star_loop f (run icase r) greedy k st' else Mismatch).
  assert (Hagain : run icase r k' st = Matched fin ->
                   exists st', Matches icase (Star greedy r) st st' /\ k st' = Matched fin).
  { intros H. apply Hr in H as (st1 & M1 & Hk'). unfold k' in Hk'.
    destruct (Nat.ltb_spec (length (rest st1)) (length (rest st))); [|discriminate].
    apply IH in Hk' as (st2 & M2 & Hk). exists st2. split; [|exact Hk].
    eapply M_StarS; eassumption. }
  destruct greedy.
  - destruct (run icase r k' st) eqn:E; intros H.
    + exists st. split; [apply M_StarO|exact H].
    + apply Hagain. exact H.
    + discriminate.
  - destruct (k st) eqn:E; intros H.
    + apply Hagain. exact H.
    + exists st. split; [apply M_StarO|]. congruence.
    + discriminate.
Qed.

Lemma run_sound r : simple r -> sound icase r.
Proof.
  induction r as [|neg items|r1 IH1 r2 IH2|r1 IH1 r2 IH2|g r IH|n r IH|n| | |];
    cbn [simple]; intros Hs k st fin; cbn [run]; try contradiction.
  - intros H. exists st. split; [apply M_Eps|exact H].
  - destruct st as [p [|c tl] cs]; cbn [rest caps]; [discriminate|].
    destruct cls_mem eqn:E; [|discriminate]. intros H.
    eexists. split; [apply M_Cls, E|exact H].
  - destruct Hs as [H1 H2]. intros H.
    apply (IH1 H1) in H as (st1 & M1 & H). apply (IH2 H2) in H as (st2 & M2 & H).
    exists st2. split; [eapply M_Seq; eassumption|exact H].
  - destruct Hs as [H1 H2]. destruct (run icase r1 k st) eqn:E; intros H.
    + apply (IH2 H2) in H as (st' & M & H). exists st'. split; [apply M_AltR, M|exact H].
    + injection H as <-. apply (IH1 H1) in E as (st' & M & E).
      exists st'. split; [apply M_AltL, M|exact E].
    + discriminate.
  - apply star_loop_sound, IH, Hs.
  - destruct (prev st) eqn:E; [discriminate|]. intros H.
    exists st. split; [apply M_Bol, E|exact H].
  - destruct (rest st) eqn:E; [|discriminate]. intros H.
    exists st. split; [apply M_Eol, E|exact H].
Qed.

End RegexSound.

(** What a match of a context-free pattern consumes. *)
Lemma canon_eq_lowerChar x y : canon true x = canon true y -> lowerChar x = lowerChar y.
Proof.
  unfold canon, lowerChar, isLowerAscii, isUpperAscii, in_range. cbn [andb].
  repeat match goal with
         | |- context [(?a <=? ?b)%N] => destruct (N.leb_spec a b); cbn [andb]
         end; lia.
Qed.

Lemma canon_eq_caseless a c :
  isLowerAscii a = false -> isUpperAscii a = false -> canon true a = canon true c -> c = a.
Proof.
  unfold canon, isLowerAscii, isUpperAscii, in_range. cbn [andb].
  repeat match goal with
         | |- context [(?a <=? ?b)%N] => destruct (N.leb_spec a b); cbn [andb]
         end; intros; try discriminate; lia.
Qed.

Lemma lowerChar_caseless a c :
  isLowerAscii a = false -> isUpperAscii a = false -> lowerChar c = a -> c = a.
Proof.
  unfold lowerChar, isLowerAscii, isUpperAscii, in_range.
  repeat match goal with
         | |- context [(?a <=? ?b)%N] => destruct (N.leb_spec a b); cbn [andb]
         end; intros; try discriminate; lia.
Qed.

Section MatchesInv.
Variable icase : bool.

Lemma Matches_Cls_inv negated items st st' :
  Matches icase (Cls negated items) st st' ->
  exists c, rest st = c :: rest st' /\ cls_mem icase negated items c = true.
Proof. inversion 1; subst. eexists. split; [reflexivity|assumption]. Qed.

Lemma Matches_Lit_inv a st st' :
  Matches icase (Lit a) st st' ->
  exists c, rest st = c :: rest st' /\ canon icase a = canon icase c.
Proof.
  intros M. apply Matches_Cls_inv in M as (c & E & Hc). exists c. split; [exact E|].
  unfold cls_mem in Hc. cbn [existsb item_mem xorb] in Hc. rewrite orb_false_r in Hc.
  apply N.eqb_eq, Hc.
Qed.

Lemma Matches_Eps_inv st st' : Matches icase Eps st st' -> st = st'.
Proof. inversion 1; reflexivity. Qed.

Lemma Matches_Seq_inv r1 r2 st st' :
  Matches icase (Seq r1 r2) st st' ->
  exists st1, Matches icase r1 st st1 /\ Matches icase r2 st1 st'.
Proof. inversion 1; subst. eexists. split; eassumption. Qed.

Lemma Matches_Alt_inv r1 r2 st st' :
  Matches icase (Alt r1 r2) st st' -> Matches icase r1 st st' \/ Matches icase r2 st st'.
Proof. inversion 1; subst; [left|right]; assumption. Qed.

Lemma Matches_Bol_inv st st' : Matches icase Bol st st' -> st = st' /\ prev st = None.
Proof. inversion 1; subst. split; [reflexivity|assumption]. Qed.

Lemma Matches_Eol_inv st st' : Matches icase Eol st st' -> st = st' /\ rest st = [].
Proof. inversion 1; subst. split; [reflexivity|assumption]. Qed.

Lemma Matches_Star_ind greedy r (P : mstate -> mstate -> Prop) :
  (forall st, P st st) ->
  (forall st st1 st2,
      Matches icase r st st1 -> length (rest st1) < length (rest st) ->
      Matches icase (Star greedy r) st1 st2 -> P st1 st2 -> P st st2) ->
  forall st st', Matches icase (Star greedy r) st st' -> P st st'.
Proof.
  intros H0 HS st st' M. remember (Star greedy r) as q eqn:Eq.
  induction M; try discriminate.
  - apply H0.
  - injection Eq as -> ->. eapply HS; eauto.
Qed.

End MatchesInv.

Lemma Matches_Str_inv pat : pat <> [] -> forall st st',
  Matches true (Str pat) st st' ->
  exists t, rest st = t ++ rest st' /\ toLowerCase t = toLowerCase pat.
Proof.
  induction pat as [|a pat IH]; [congruence|]. intros _ st st' M.
  destruct pat as [|a' pat].
  - apply Matches_Lit_inv in M as (c & -> & Hc). exists [c]. split; [reflexivity|].
    cbn. f_equal. symmetry. apply canon_eq_lowerChar, Hc.
  - change (Str (a :: a' :: pat)) with (Seq (Lit a) (Str (a' :: pat))) in M.
    apply Matches_Seq_inv in M as (st1 & M1 & M2).
    apply Matches_Lit_inv in M1 as (c & -> & Hc).
    apply IH in M2 as (t & -> & Ht); [|discriminate].
    exists (c :: t). split; [reflexivity|].
    cbn [toLowerCase map] in *. f_equal; [|exact Ht]. symmetry. apply canon_eq_lowerChar, Hc.
Qed.

Lemma Matches_Space_inv st st' :
  Matches true Space st st' -> exists c, rest st = c :: rest st' /\ isWhiteSpace c = true.
Proof.
  intros M. apply Matches_Cls_inv in M as (c & E & Hc). exists c. split; [exact E|].
  unfold cls_mem in Hc. cbn [existsb item_mem xorb] in Hc. rewrite orb_false_r in Hc. exact Hc.
Qed.

Lemma Matches_Star_Space_inv greedy st st' :
  Matches true (Star greedy Space) st st' ->
  exists ws, rest st = ws ++ rest st' /\ Forall (fun c => isWhiteSpace c = true) ws.
Proof.
  revert st st'. apply Matches_Star_ind.
  - intros st. exists []. split; [reflexivity|constructor].
  - intros st st1 st2 M _ _ (ws & E & Hws).
    apply Matches_Space_inv in M as (c & -> & Hc).
    exists (c :: ws). split; [cbn; f_equal; exact E|]. constructor; assumption.
Qed.

Lemma Matches_filler_inv pat st st' :
  pat <> [] -> toLowerCase pat = js "&nbsp;" ->
  Matches true (Star true (Alt Space (Str pat))) st st' ->
  exists f, rest st = f ++ rest st' /\ Filler f.
Proof.
  intros Hne Hpat. revert st st'. apply Matches_Star_ind.
  - intros st. exists []. split; [reflexivity|constructor].
  - intros st st1 st2 M _ _ (f & Ef & Hf).
    apply Matches_Alt_inv in M as [Ma | Mb].
    + apply Matches_Space_inv in Ma as (c & -> & Hc). exists (c :: f).
      split; [cbn; f_equal; exact Ef|]. apply Filler_space; assumption.
    + apply Matches_Str_inv in Mb as (t & -> & Ht); [|exact Hne].
      exists (t ++ f). split; [rewrite <- app_assoc; f_equal; exact Ef|].
      apply Filler_nbsp; [congruence|exact Hf].
Qed.

Lemma Matches_br_unit_inv st st' :
  Matches true br_unit st st' ->
  exists t f, rest st = (t ++ f) ++ rest st' /\ LineBreak t /\ Filler f.
Proof.
  unfold br_unit. cbn [Seqs]. intros M.
  apply Matches_Seq_inv in M as (s1 & Ma & M).
  apply Matches_Seq_inv in M as (s2 & Mc & M).
  apply Matches_Seq_inv in M as (s3 & Me & M).
  apply Matches_Seq_inv in M as (s4 & Mg & Mh).
  apply Matches_Str_inv in Ma as (t1 & E1 & H1); [|discriminate].
  apply Matches_Star_Space_inv in Mc as (ws & E2 & Hws).
  apply Matches_Lit_inv in Mg as (c & E4 & Hc).
  apply Matches_filler_inv in Mh as (f & E5 & Hf); [|discriminate|reflexivity].
  assert (Hgt : c = ch ">").
  { apply canon_eq_caseless in Hc; [exact Hc|reflexivity|reflexivity]. }
  assert (E3 : exists slash, rest s2 = slash ++ rest s3 /\ (slash = [] \/ slash = js "/")).
  { apply Matches_Alt_inv in Me as [Mx | My].
    - apply Matches_Lit_inv in Mx as (d & -> & Hd). exists [d]. split; [reflexivity|].
      right. apply canon_eq_caseless in Hd; [rewrite Hd|reflexivity|reflexivity]. reflexivity.
    - apply Matches_Eps_inv in My as ->. exists []. split; [reflexivity|]. left. reflexivity. }
  destruct E3 as (slash & E3 & Hslash).
  destruct t1 as [|a [|b [|r [|? ?]]]]; try discriminate.
  cbn in H1. injection H1 as Ha Hb Hr.
  assert (a = ch "<").
  { apply lowerChar_caseless in Ha; [exact Ha|reflexivity|reflexivity]. }
  subst a c.
  exists (ch "<" :: b :: r :: ws ++ slash ++ js ">"), f. split; [|split].
  - rewrite E1, E2, E3, E4, E5. cbn. rewrite <- !app_assoc. reflexivity.
  - constructor; assumption.
  - exact Hf.
Qed.

Lemma Matches_units_inv st st' :
  Matches true (Star true br_unit) st st' ->
  rest st = rest st' \/ exists s, rest st = s ++ rest st' /\ OnlyLineBreaks s.
Proof.
  revert st st'. apply Matches_Star_ind.
  - intros st. left. reflexivity.
  - intros st st1 st2 M _ _ IH. right.
    apply Matches_br_unit_inv in M as (t & f & E & Ht & Hf).
    destruct IH as [E2 | (s & E2 & Hs)].
    + exists (t ++ f). split; [rewrite E, E2; reflexivity|]. constructor; assumption.
    + exists (t ++ f ++ s). split; [rewrite E, E2, <- !app_assoc; reflexivity|].
      apply OnlyLineBreaks_more; assumption.
Qed.

Lemma only_breaks_never_later c s : exec_from re_only_breaks (Some c) s = None.
Proof.
  revert c. induction s as [|d s IH]; intros c; cbn [exec_from]; unfold exec_here;
    cbn [pat_regex pat_icase re_only_breaks Seqs run prev]; [reflexivity|apply IH].
Qed.

Lemma only_breaks_sound s : test re_only_breaks s = true -> OnlyLineBreaks s.
Proof.
  unfold test, exec. intros H.
  assert (Hhere : exists fin, run true (pat_regex re_only_breaks) Matched (MState None s [])
                              = Matched fin).
  { destruct s as [|c s]; cbn [exec_from] in H; unfold exec_here in H;
      change (pat_icase re_only_breaks) with true in H;
      destruct (run true (pat_regex re_only_breaks) Matched _) eqn:E;
      try (eexists; reflexivity); try discriminate.
    - rewrite only_breaks_never_later in H. discriminate.
    - rewrite only_breaks_never_later in H. discriminate. }
  destruct Hhere as [fin Hrun].
  apply run_sound in Hrun as (st' & M & _).
  2:{ cbn. tauto. }
  change (pat_regex re_only_breaks) with (Seq Bol (Seq (Seq br_unit (Star true br_unit)) Eol)) in M.
  apply Matches_Seq_inv in M as (s1 & Ma & M).
  apply Matches_Bol_inv in Ma as [<- _].
  apply Matches_Seq_inv in M as (s2 & Mc & Md).
  apply Matches_Eol_inv in Md as [<- Hend].
  apply Matches_Seq_inv in Mc as (s3 & Me & Mf).
  apply Matches_br_unit_inv in Me as (t & f & E & Ht & Hf).
  apply Matches_units_inv in Mf as [E2 | (u & E2 & Hu)]; cbn [rest] in E.
  - rewrite E, E2, Hend, app_nil_r. constructor; assumption.
  - rewrite E, E2, Hend, app_nil_r, <- app_assoc. apply OnlyLineBreaks_more; assumption.
Qed.

(** ** The sanitizer *)

Lemma str_eqb_eq a b : str_eqb a b = true <-> a = b.
Proof.
  revert b. induction a as [|x a IH]; intros [|y b]; cbn; split; try congruence.
  - intros [Hx Hab]%andb_true_iff. apply N.eqb_eq in Hx. apply IH in Hab. congruence.
  - intros [= -> ->]. rewrite N.eqb_refl. apply IH. reflexivity.
Qed.

Lemma str_eqb_refl a : str_eqb a a = true.
Proof. apply str_eqb_eq. reflexivity. Qed.

Lemma Node_induction (P : Node -> Prop) :
  (forall tag attrs kids, Forall P kids -> P (Element tag attrs kids)) ->
  (forall d, P (Comment d)) ->
  (forall d, P (Text d)) ->
  forall n, P n.
Proof.
  intros HE HC HT. fix IH 1. intros [tag attrs kids|d|d]; [|apply HC|apply HT].
  apply HE. induction kids as [|k kids IHk]; constructor; [apply IH|exact IHk].
Qed.

Lemma uniqueAttrs_Element tag attrs kids :
  uniqueAttrs (Element tag attrs kids) <->
  NoDup (map attr_name attrs) /\ Forall uniqueAttrs kids.
Proof.
  cbn [uniqueAttrs]. apply and_iff_compat_l.
  induction kids as [|k kids IH]; [split; constructor|].
  rewrite Forall_cons, IH. reflexivity.
Qed.

Lemma removeAttribute_fresh name pre a tl :
  name ∉ map attr_name pre -> attr_name a = name ->
  removeAttribute name (pre ++ a :: tl) = pre ++ tl.
Proof.
  intros Hpre <-. induction pre as [|b pre IH]; cbn [app removeAttribute].
  - rewrite str_eqb_refl. reflexivity.
  - cbn [map] in Hpre. apply not_elem_of_cons in Hpre as [Hb Hpre].
    destruct (str_eqb (attr_name b) (attr_name a)) eqn:E.
    + apply str_eqb_eq in E. congruence.
    + rewrite IH by exact Hpre. reflexivity.
Qed.

Lemma sanitizeAttributes_loop snap : forall pre,
  NoDup (map attr_name (pre ++ snap)) ->
  fold_left
    (fun live a => if isDangerousAttr a then removeAttribute (attr_name a) live else live)
    snap (pre ++ snap)
  = pre ++ List.filter (fun a => negb (isDangerousAttr a)) snap.
Proof.
  induction snap as [|a snap IH]; intros pre Hnd; cbn [fold_left List.filter]; [reflexivity|].
  destruct (isDangerousAttr a) eqn:Ha; cbn [negb].
  - rewrite map_app in Hnd. cbn [map] in Hnd. apply NoDup_app in Hnd as (Hpre & Hdisj & Hsnap).
    rewrite removeAttribute_fresh; [|intros Hin; apply (Hdisj _ Hin); left|reflexivity].
    apply IH. rewrite map_app. apply NoDup_app. split; [exact Hpre|]. split.
    + intros x Hx Hx'. apply (Hdisj x Hx). right. exact Hx'.
    + apply NoDup_cons in Hsnap as [_ Hsnap]. exact Hsnap.
  - change (pre ++ a :: snap) with (pre ++ [a] ++ snap). rewrite app_assoc.
    rewrite IH; [rewrite <- app_assoc; reflexivity|].
    rewrite <- app_assoc. exact Hnd.
Qed.

Lemma sanitizeAttributes_filter attrs :
  NoDup (map attr_name attrs) ->
  sanitizeAttributes attrs = List.filter (fun a => negb (isDangerousAttr a)) attrs.
Proof. intros H. apply (sanitizeAttributes_loop attrs []), H. Qed.

Lemma filter_names_NoDup (f : Attr -> bool) attrs :
  NoDup (map attr_name attrs) -> NoDup (map attr_name (List.filter f attrs)).
Proof.
  induction attrs as [|a attrs IH]; cbn [map List.filter]; [auto|].
  intros [Ha Hnd]%NoDup_cons. destruct (f a); [|auto]. cbn [map]. apply NoDup_cons.
  split; [|auto]. intros Hin. apply Ha.
  apply list_elem_of_fmap in Hin as (b & Hb & Hin). apply list_elem_of_fmap.
  exists b. split; [exact Hb|]. apply list_elem_of_In. apply list_elem_of_In in Hin.
  apply filter_In in Hin. tauto.
Qed.

Lemma filter_idem {A} (f : A -> bool) l : List.filter f (List.filter f l) = List.filter f l.
Proof.
  induction l as [|x l IH]; cbn [List.filter]; [reflexivity|].
  destruct (f x) eqn:E; cbn [List.filter]; rewrite ?E, IH; reflexivity.
Qed.

(** On a tree of a document the walk leaves no blocked element, no comment
    and no dangerous attribute, and a second walk changes nothing. *)
Lemma sanitizeNode_clean n :
  uniqueAttrs n ->
  forallb cleanNode (sanitizeNode n) = true
  /\ Forall uniqueAttrs (sanitizeNode n)
  /\ flat_map sanitizeNode (sanitizeNode n) = sanitizeNode n.
Proof.
  induction n as [tag attrs kids IH|d|d] using Node_induction; intros Hu; cbn [sanitizeNode].
  - apply uniqueAttrs_Element in Hu as [Hnd Hkids].
    destruct (isBlocked tag) eqn:Hb; [repeat split; constructor|].
    assert (Hk : forallb cleanNode (flat_map sanitizeNode kids) = true
                 /\ Forall uniqueAttrs (flat_map sanitizeNode kids)
                 /\ flat_map sanitizeNode (flat_map sanitizeNode kids)
                    = flat_map sanitizeNode kids).
    { clear Hnd Hb. induction kids as [|k kids IHk]; [repeat split; constructor|].
      apply Forall_cons in IH as [IHhd IHtl]. apply Forall_cons in Hkids as [Hk Hkids].
      destruct (IHhd Hk) as (C1 & U1 & I1). destruct (IHk IHtl Hkids) as (C2 & U2 & I2).
      cbn [flat_map]. rewrite forallb_app, flat_map_app, C1, C2, I1, I2.
      repeat split. apply Forall_app. split; assumption. }
    destruct Hk as (Ck & Uk & Ik).
    rewrite (sanitizeAttributes_filter _ Hnd).
    cbn [forallb cleanNode flat_map sanitizeNode]. rewrite Hb, Ck, app_nil_r. cbn [negb andb].
    split; [|split].
    + rewrite !andb_true_r. apply forallb_forall. intros a Ha. apply filter_In in Ha. tauto.
    + constructor; [|constructor]. apply uniqueAttrs_Element.
      split; [apply filter_names_NoDup, Hnd|exact Uk].
    + rewrite sanitizeAttributes_filter by apply filter_names_NoDup, Hnd.
      rewrite filter_idem, Ik. reflexivity.
  - repeat split; constructor.
  - repeat split; repeat constructor.
Qed.

Lemma sanitizeNodeTree_clean root :
  Forall uniqueAttrs root ->
  forallb cleanNode (sanitizeNodeTree root) = true
  /\ sanitizeNodeTree (sanitizeNodeTree root) = sanitizeNodeTree root.
Proof.
  unfold sanitizeNodeTree. induction 1 as [|n root Hn _ [IHc IHi]]; [split; reflexivity|].
  destruct (sanitizeNode_clean n Hn) as (C & _ & I).
  cbn [flat_map]. rewrite forallb_app, flat_map_app, C, IHc, I, IHi. split; reflexivity.
Qed.

(** With a document, what [sanitizeHtml] returns is the serialization of a
    clean tree. *)
Lemma sanitizeHtml_serializes_clean_tree doc html content out :
  setInnerHTML doc html = Return content ->
  Forall uniqueAttrs content ->
  getInnerHTML doc (sanitizeNodeTree content) = Return out ->
  sanitizeHtml (Some doc) html = out
  /\ forallb cleanNode (sanitizeNodeTree content) = true.
Proof.
  intros Hparse Hu Hser. split; [|apply sanitizeNodeTree_clean, Hu].
  unfold sanitizeHtml, sanitizeWithDom, mbind, Exc_bind. rewrite Hparse.
  cbn [Exc.bind]. rewrite Hser. reflexivity.
Qed.

(** C1 (the code departs from the claim): the streaming strategy leaves a
    script element that removing an inner one assembles, a comment assembled
    the same way, an unquoted [javascript:] link, and an event handler that
    follows a slash; the first two outputs still match the patterns that the
    strategy removes. *)
Theorem C1_streaming_leaves_active_content :
  sanitizeHtml None (js "<scr<script></script>ipt>alert(1)</script>")
    = js "<script>alert(1)</script>"
  /\ test (re_element (js "script"))
        (sanitizeHtml None (js "<scr<script></script>ipt>alert(1)</script>")) = true
  /\ sanitizeHtml None (js "<!-<!---->--->") = js "<!---->"
  /\ test re_comment (sanitizeHtml None (js "<!-<!---->--->")) = true
  /\ sanitizeHtml None (js "<a href=javascript:alert(1)>x</a>")
     = js "<a href=javascript:alert(1)>x</a>"
  /\ sanitizeHtml None (js "<img/onerror=alert(1) src=x>") = js "<img/onerror=alert(1) src=x>".
Proof. repeat split; vm_compute; reflexivity. Qed.

(** C2 (the code departs from the claim): sanitizing the output of the
    streaming strategy once more can change it. *)
Theorem C2_streaming_not_idempotent :
  sanitizeHtml None (js "<scr<script></script>ipt>alert(1)</script>")
    = js "<script>alert(1)</script>"
  /\ sanitizeHtml None (sanitizeHtml None (js "<scr<script></script>ipt>alert(1)</script>")) = [].
Proof. split; vm_compute; reflexivity. Qed.

(** C10: when a step of the tree-walking strategy throws (building the
    template from the markup, or serializing the walked tree), [sanitizeHtml]
    returns its input unchanged. *)
Theorem C10_throw_returns_input (doc : Document) (html : jsstring) :
  throws (setInnerHTML doc html)
  \/ (exists content, setInnerHTML doc html = Return content
                      /\ throws (getInnerHTML doc (sanitizeNodeTree content))) ->
  sanitizeHtml (Some doc) html = html.
Proof.
  unfold sanitizeHtml, sanitizeWithDom, throws, mbind, Exc_bind.
  intros [[e He] | (content & Hc & [e He])].
  - rewrite He. reflexivity.
  - rewrite Hc. cbn [Exc.bind]. rewrite He. reflexivity.
Qed.

Lemma C10_throw_returns_input_witness :
  sanitizeHtml
    (Some {| setInnerHTML := fun _ => Throw (js "SyntaxError");
             getInnerHTML := fun _ => Return [] |})
    (js "<script>alert(1)</script>")
  = js "<script>alert(1)</script>".
Proof.
  apply (C10_throw_returns_input
           {| setInnerHTML := fun _ => Throw (js "SyntaxError");
              getInnerHTML := fun _ => Return [] |}).
  left. exists (js "SyntaxError"). reflexivity.
Defined.



(** ** When a second streaming pass changes nothing *)

Lemma replace_go_no_match p f pv s :
  exec_from p pv s = None -> replace_go p f 0 pv s = s.
Proof.
  revert pv. induction s as [|c s IH]; intros pv H; simpl in *.
  - destruct (exec_here p pv []); [discriminate | reflexivity].
  - destruct (exec_here p pv (c :: s)); [discriminate|].
    f_equal. apply IH. exact H.
Qed.

Lemma replaceAllWith_no_match p by_ s :
  test p s = false -> replaceAllWith p by_ s = s.
Proof.
  unfold test, exec, replaceAllWith, replaceAll. intros H.
  apply replace_go_no_match. destruct (exec_from p None s); [discriminate | reflexivity].
Qed.

(** The streaming sanitizer leaves alone a string in which none of its
    patterns is found; so a second pass changes the first one's result
    only where the first pass has put a pattern together. *)
Lemma sanitizeHtmlWithoutDom_fixed html :
  StreamingClean html -> sanitizeHtmlWithoutDom html = html.
Proof.
  unfold StreamingClean, streamingPatterns. intros H.
  repeat match type of H with
         | Forall _ (_ :: _) => apply Forall_cons_1 in H; destruct H as [? H]
         end.
  unfold sanitizeHtmlWithoutDom. cbv zeta.
  repeat match goal with
         | Hp : test ?p html = false |- context [replaceAllWith ?p ?b html] =>
             rewrite (replaceAllWith_no_match p b html Hp)
         end.
  reflexivity.
Qed.

Lemma streaming_second_pass html :
  StreamingClean (sanitizeHtml None html) ->
  sanitizeHtml None (sanitizeHtml None html) = sanitizeHtml None html.
Proof. apply sanitizeHtmlWithoutDom_fixed. Qed.

(** ** Binary64: powers of two *)

Section Pow2.
Local Open Scope Q_scope.

Lemma pow2_pos e : 0 < pow2 e.
Proof. apply Qpower_0_lt. reflexivity. Qed.

Lemma pow2_add a b : pow2 (a + b) == pow2 a * pow2 b.
Proof. apply Qpower_plus. discriminate. Qed.

Lemma pow2_succ e : pow2 (e + 1) == 2 * pow2 e.
Proof. rewrite pow2_add. change (pow2 1) with 2. ring. Qed.

Lemma pow2_pred e : pow2 (e - 1) == (1 # 2) * pow2 e.
Proof.
  assert (H : pow2 e == 2 * pow2 (e - 1)).
  { rewrite <- pow2_succ. replace (e - 1 + 1)%Z with e by lia. reflexivity. }
  rewrite H. ring.
Qed.

Lemma pow2_le a b : (a <= b)%Z -> pow2 a <= pow2 b.
Proof. intros H. apply Qpower_le_compat_l; [exact H|discriminate]. Qed.

Lemma pow2_lt a b : (a < b)%Z -> pow2 a < pow2 b.
Proof. intros H. apply Qpower_lt_compat_l; [exact H|reflexivity]. Qed.

Lemma pow2_Z n : (0 <= n)%Z -> pow2 n == inject_Z (2 ^ n).
Proof. intros H. unfold pow2. rewrite Zpower_Qpower by exact H. reflexivity. Qed.

End Pow2.

(** ** Binary64: shifting a mantissa right *)

Section Shift.
Local Open Scope Q_scope.

Lemma inject_Z_xO p : inject_Z (Z.pos p~0) == 2 * inject_Z (Z.pos p).
Proof. change (Z.pos p~0) with (2 * Z.pos p)%Z. rewrite inject_Z_mult. reflexivity. Qed.

Lemma inject_Z_xI p : inject_Z (Z.pos p~1) == 2 * inject_Z (Z.pos p) + 1.
Proof.
  change (Z.pos p~1) with (2 * Z.pos p + 1)%Z. rewrite inject_Z_plus, inject_Z_mult.
  reflexivity.
Qed.

Lemma shr_1_located m r s e x :
  (0 <= m)%Z ->
  located m e (loc_of_shr_record (Build_shr_record m r s)) x ->
  located (shr_m (shr_1 (Build_shr_record m r s))) (e + 1)
    (loc_of_shr_record (shr_1 (Build_shr_record m r s))) x
  /\ (0 <= shr_m (shr_1 (Build_shr_record m r s)))%Z.
Proof.
  intros Hm. pose proof (pow2_pos e) as HP. pose proof (pow2_succ e) as HS.
  destruct m as [|[p|p|]|p]; [| | | |lia];
    destruct r, s; cbn [shr_1 shr_m loc_of_shr_record orb located];
    rewrite ?inject_Z_xO, ?inject_Z_xI, ?HS;
    change (inject_Z 0) with 0; change (inject_Z 1) with 1;
    (split; [|lia]);
    try set (A := inject_Z (Z.pos p)) in *;
    try (pose proof (Qmult_lt_0_compat _ _ (eq_refl : 0 < 2) HP));
    intros; nra.
Qed.

End Shift.

Lemma iter_pos_nat {A} (f : A -> A) p : forall x, SpecFloat.iter_pos f p x = Nat.iter (Pos.to_nat p) f x.
Proof.
  induction p as [p IH|p IH|]; intros x; cbn [SpecFloat.iter_pos].
  - rewrite !IH, Pos2Nat.inj_xI, Nat.iter_succ.
    replace (2 * Pos.to_nat p) with (Pos.to_nat p + Pos.to_nat p) by lia.
    rewrite Nat.iter_add, !Nat.iter_swap. reflexivity.
  - rewrite !IH, Pos2Nat.inj_xO.
    replace (2 * Pos.to_nat p) with (Pos.to_nat p + Pos.to_nat p) by lia.
    rewrite Nat.iter_add. reflexivity.
  - reflexivity.
Qed.

Lemma loc_of_record_of_loc m l :
  loc_of_shr_record (shr_record_of_loc m l) = l /\ shr_m (shr_record_of_loc m l) = m.
Proof. destruct l as [|[| |]]; split; reflexivity. Qed.

Section Shifts.
Local Open Scope Q_scope.

Lemma shr_iter_located n : forall mrs e x,
  (0 <= shr_m mrs)%Z ->
  located (shr_m mrs) e (loc_of_shr_record mrs) x ->
  located (shr_m (Nat.iter n shr_1 mrs)) (e + Z.of_nat n)
    (loc_of_shr_record (Nat.iter n shr_1 mrs)) x
  /\ (0 <= shr_m (Nat.iter n shr_1 mrs))%Z.
Proof.
  induction n as [|n IH]; intros mrs e x Hm Hl.
  - change (Nat.iter 0 shr_1 mrs) with mrs. rewrite Z.add_0_r. split; assumption.
  - destruct (IH mrs e x Hm Hl) as [Hl' Hm']. rewrite Nat.iter_succ.
    destruct (Nat.iter n shr_1 mrs) as [m r s]. cbn [shr_m] in *.
    replace (e + Z.of_nat (S n))%Z with (e + Z.of_nat n + 1)%Z by lia.
    apply shr_1_located; assumption.
Qed.

Lemma shr_located mrs e n x :
  (0 <= shr_m mrs)%Z ->
  located (shr_m mrs) e (loc_of_shr_record mrs) x ->
  located (shr_m (fst (shr mrs e n))) (snd (shr mrs e n))
    (loc_of_shr_record (fst (shr mrs e n))) x
  /\ (0 <= shr_m (fst (shr mrs e n)))%Z
  /\ snd (shr mrs e n) = Z.max e (e + n).
Proof.
  intros Hm Hl. destruct n as [|p|p]; cbn [shr fst snd].
  - repeat split; [assumption|assumption|lia].
  - rewrite iter_pos_nat.
    destruct (shr_iter_located (Pos.to_nat p) mrs e x Hm Hl) as [Hl' Hm'].
    rewrite positive_nat_Z in Hl'. repeat split; [assumption|assumption|lia].
  - repeat split; [assumption|assumption|lia].
Qed.

Lemma shr_fexp_located mx ex lx x :
  (0 <= mx)%Z -> located mx ex lx x ->
  located (shr_m (fst (shr_fexp prec emax mx ex lx))) (snd (shr_fexp prec emax mx ex lx))
    (loc_of_shr_record (fst (shr_fexp prec emax mx ex lx))) x
  /\ (0 <= shr_m (fst (shr_fexp prec emax mx ex lx)))%Z
  /\ snd (shr_fexp prec emax mx ex lx)
     = Z.max ex (fexp prec emax (Zdigits2 mx + ex)).
Proof.
  intros Hm Hl. unfold shr_fexp.
  destruct (loc_of_record_of_loc mx lx) as [E1 E2].
  destruct (shr_located (shr_record_of_loc mx lx) ex
              (fexp prec emax (Zdigits2 mx + ex) - ex) x) as (H1 & H2 & H3).
  - rewrite E2. exact Hm.
  - rewrite E1, E2. exact Hl.
  - repeat split; [exact H1|exact H2|]. rewrite H3. f_equal. lia.
Qed.

Lemma located_bounds m e l x :
  located m e l x -> inject_Z m * pow2 e <= x /\ x < inject_Z m * pow2 e + pow2 e.
Proof.
  pose proof (pow2_pos e). destruct l as [|[| |]]; cbn [located]; intros; lra.
Qed.

End Shifts.

(** ** Binary64: the number of digits *)

Lemma digits2_pos_bounds p :
  (2 ^ (Z.pos (digits2_pos p) - 1) <= Z.pos p < 2 ^ Z.pos (digits2_pos p))%Z.
Proof.
  induction p as [p IH|p IH|]; cbn [digits2_pos]; [| |cbn; lia];
    rewrite Pos2Z.inj_succ; replace (Z.succ (Z.pos (digits2_pos p)) - 1)%Z
      with (Z.succ (Z.pos (digits2_pos p) - 1)) by lia;
    rewrite !Z.pow_succ_r by lia; lia.
Qed.

Lemma Zdigits2_bounds m :
  (0 < m)%Z -> (2 ^ (Zdigits2 m - 1) <= m < 2 ^ Zdigits2 m)%Z /\ (0 < Zdigits2 m)%Z.
Proof.
  destruct m as [|p|p]; [lia| |lia]. intros _. cbn [Zdigits2].
  split; [apply digits2_pos_bounds|lia].
Qed.

Lemma Zdigits2_le m k : (0 <= k)%Z -> (0 <= m < 2 ^ k)%Z -> (Zdigits2 m <= k)%Z.
Proof.
  intros Hk [H0 Hm]. destruct (Z.eq_dec m 0%Z) as [->|Hne]; [cbn; lia|].
  assert (Hpos : (0 < m)%Z) by lia.
  destruct (Zdigits2_bounds m Hpos) as [[Hlo _] Hd].
  destruct (Z_le_gt_dec (Zdigits2 m) k) as [|Hgt]; [assumption|].
  assert (2 ^ k <= 2 ^ (Zdigits2 m - 1))%Z by (apply Z.pow_le_mono_r; lia). lia.
Qed.

Lemma Zdigits2_ge m k : (0 <= k)%Z -> (2 ^ k <= m)%Z -> (k + 1 <= Zdigits2 m)%Z.
Proof.
  intros Hk Hm. assert (0 < m)%Z by (pose proof (Z.pow_pos_nonneg 2 k); lia).
  destruct (Zdigits2_bounds m H) as [[_ Hhi] Hd].
  destruct (Z_le_gt_dec (k + 1) (Zdigits2 m)) as [|Hgt]; [assumption|].
  assert (2 ^ Zdigits2 m <= 2 ^ k)%Z by (apply Z.pow_le_mono_r; lia). lia.
Qed.

(** ** Binary64: rounding to nearest *)

Lemma fexp_eq e : fexp prec emax e = Z.max (e - 53) (-1074).
Proof. reflexivity. Qed.

Section Round.
Local Open Scope Q_scope.

Lemma pow2_cancel (a b : Z) e : inject_Z a * pow2 e < inject_Z b * pow2 e -> (a < b)%Z.
Proof.
  intros H. pose proof (pow2_pos e) as HP. rewrite Zlt_Qlt.
  apply Qmult_lt_r with (pow2 e); assumption.
Qed.

Lemma round_nearest_even_near m e l x :
  located m e l x ->
  (m <= round_nearest_even m l <= m + 1)%Z
  /\ inject_Z (round_nearest_even m l) * pow2 e - x <= (1 # 2) * pow2 e
  /\ x - inject_Z (round_nearest_even m l) * pow2 e <= (1 # 2) * pow2 e.
Proof.
  pose proof (pow2_pos e) as HP.
  destruct l as [|[| |]]; cbn [located round_nearest_even]; intros Hl.
  - split; [lia|]. lra.
  - split; [destruct (Z.even m); lia|].
    destruct (Z.even m); rewrite ?inject_Z_plus; change (inject_Z 1) with 1; lra.
  - split; [lia|]. lra.
  - split; [lia|]. rewrite inject_Z_plus. change (inject_Z 1) with 1. lra.
Qed.

Lemma second_shift m e :
  (0 <= m <= 2 ^ 53)%Z -> (-1074 <= e)%Z ->
  exists m' e',
    shr_fexp prec emax m e loc_Exact
    = (Build_shr_record m' false false, e')
    /\ inject_Z m' * pow2 e' == inject_Z m * pow2 e
    /\ (e <= e')%Z /\ (0 <= m')%Z /\ (m = 0 -> e' = e)%Z.
Proof.
  intros [H0 Hm] He. destruct (Z.eq_dec m (2 ^ 53)%Z) as [->|Hne].
  - exists (2 ^ 52)%Z, (e + 1)%Z. unfold shr_fexp. rewrite fexp_eq.
    change (Zdigits2 (2 ^ 53)) with 54%Z.
    replace (Z.max (54 + e - 53) (-1074) - e)%Z with 1%Z by lia.
    split; [reflexivity|]. split; [|lia].
    rewrite pow2_succ. change (inject_Z (2 ^ 53)) with (2 * inject_Z (2 ^ 52)). ring.
  - exists m, e. unfold shr_fexp. rewrite fexp_eq.
    assert (Hd : (Zdigits2 m <= 53)%Z) by (apply Zdigits2_le; lia).
    destruct (Z.max (Zdigits2 m + e - 53) (-1074) - e)%Z as [|p|p] eqn:En; [| lia |];
      (split; [reflexivity|]); (split; [reflexivity|lia]).
Qed.

Theorem binary_round_aux_rounded mx ex lx x :
  (0 <= mx)%Z ->
  (ex <= fexp prec emax (Zdigits2 mx + ex))%Z ->
  located mx ex lx x ->
  Rounded x (binary_round_aux prec emax false mx ex lx).
Proof.
  intros Hmx Hpre Hl. unfold binary_round_aux.
  destruct (shr_fexp_located mx ex lx x Hmx Hl) as (L1 & Hm' & He').
  destruct (shr_fexp prec emax mx ex lx) as [mrs' e']. cbn [fst snd] in *.
  set (m' := shr_m mrs') in *. set (l' := loc_of_shr_record mrs') in *.
  rewrite Z.max_r in He' by exact Hpre. rewrite fexp_eq in He'.
  set (d := Zdigits2 mx) in *.
  pose proof (pow2_pos ex) as HP. pose proof (pow2_pos e') as HP'.
  destruct (located_bounds _ _ _ _ Hl) as [Hlo Hhi].
  destruct (located_bounds _ _ _ _ L1) as [Hlo' Hhi'].
  (* the shifted mantissa has at most 53 digits *)
  assert (Hd0 : (0 <= d)%Z).
  { unfold d. destruct mx as [|p|p]; cbn; lia. }
  assert (Hmx1 : (mx + 1 <= 2 ^ d)%Z).
  { destruct (Z.eq_dec mx 0%Z) as [E|E]; [subst mx; cbn; lia|].
    assert (Hpos : (0 < mx)%Z) by lia.
    destruct (Zdigits2_bounds mx Hpos) as [[_ Hh] _]. fold d in Hh. lia. }
  assert (Hx53 : x < pow2 (e' + 53)).
  { apply Qlt_le_trans with (inject_Z (mx + 1) * pow2 ex).
    - rewrite inject_Z_plus. change (inject_Z 1) with 1. lra.
    - apply Qle_trans with (inject_Z (2 ^ d) * pow2 ex).
      + apply Qmult_le_compat_r; [|lra]. rewrite <- Zle_Qle. exact Hmx1.
      + rewrite <- pow2_Z by exact Hd0. rewrite <- pow2_add. apply pow2_le. lia. }
  assert (Hm53 : (m' < 2 ^ 53)%Z).
  { apply (pow2_cancel _ _ e'). rewrite <- pow2_Z by lia.
    rewrite <- pow2_add. replace (53 + e')%Z with (e' + 53)%Z by lia. lra. }
  destruct (round_nearest_even_near _ _ _ _ L1) as (Hr & Hup & Hdown).
  set (m'' := round_nearest_even m' l') in *.
  destruct (second_shift m'' e') as (mf & ef & -> & Hval & Hef & Hmf & Hzero); [lia|lia|].
  cbn [shr_m]. rewrite <- pow2_pred in Hup, Hdown.
  assert (Hpe : pow2 (e' - 1) <= pow2 (ef - 1)) by (apply pow2_le; lia).
  destruct mf as [|p|p]; [| |lia].
  - (* zero *)
    constructor.
    assert (Hm0 : m'' = 0%Z).
    { apply Z.le_antisymm; [|lia]. apply Z.lt_succ_r. apply (pow2_cancel _ _ e').
      rewrite <- Hval. change (inject_Z 0) with 0. change (inject_Z (Z.succ 0)) with 1. lra. }
    assert (Hm0' : m' = 0%Z) by lia.
    assert (Hemin : e' = (-1074)%Z).
    { destruct (Z.eq_dec e' (-1074)%Z) as [|Hne]; [assumption|]. exfalso.
      assert (Ee : e' = (d + ex - 53)%Z) by lia.
      destruct (Z.eq_dec mx 0%Z) as [E|E].
      - subst mx. unfold d in *. cbn [Zdigits2] in *. rewrite fexp_eq in Hpre. lia.
      - assert (Hpos : (0 < mx)%Z) by lia.
        destruct (Zdigits2_bounds mx Hpos) as [[Hl2 _] Hd1]. fold d in Hl2, Hd1.
        assert (pow2 (e' + 52) <= x).
        { apply Qle_trans with (inject_Z mx * pow2 ex); [|exact Hlo].
          apply Qle_trans with (inject_Z (2 ^ (d - 1)) * pow2 ex).
          - rewrite <- pow2_Z by lia. rewrite <- pow2_add. apply pow2_le. lia.
          - apply Qmult_le_compat_r; [|lra]. rewrite <- Zle_Qle. exact Hl2. }
        rewrite Hm0' in Hhi'. change (inject_Z 0) with 0 in Hhi'.
        assert (pow2 e' <= pow2 (e' + 52)) by (apply pow2_le; lia). lra. }
    rewrite Hm0 in Hdown. change (inject_Z 0) with 0 in Hdown.
    rewrite Hemin in Hdown. change (-1074 - 1)%Z with (-1075)%Z in Hdown. lra.
  - destruct (ef <=? emax - prec)%Z eqn:Ele.
    + constructor; rewrite Hval; lra.
    + constructor. apply Z.leb_gt in Ele. change (emax - prec)%Z with 971%Z in Ele.
      assert (H1 : pow2 ef <= inject_Z (Z.pos p) * pow2 ef).
      { pose proof (pow2_pos ef). rewrite <- (Qmult_1_l (pow2 ef)) at 1.
        apply Qmult_le_compat_r; [|lra]. change 1 with (inject_Z 1). rewrite <- Zle_Qle. lia. }
      assert (H2 : pow2 ef == 2 * pow2 (ef - 1)).
      { rewrite <- pow2_succ. replace (ef - 1 + 1)%Z with ef by lia. reflexivity. }
      assert (H3 : pow2 971 <= pow2 (ef - 1)) by (apply pow2_le; lia).
      rewrite Hval in H1. lra.
Qed.

End Round.

(** ** Binary64: valid floats *)

Lemma valid_finite s m e :
  valid_binary (S754_finite s m e) = true ->
  fexp prec emax (Zdigits2 (Z.pos m) + e) = e /\ (e <= 971)%Z.
Proof.
  cbn [SpecFloat.valid_binary]. unfold bounded, canonical_mantissa.
  intros [H1 H2]%andb_true_iff. apply Z.eqb_eq in H1. apply Z.leb_le in H2.
  split; [exact H1|exact H2].
Qed.

Lemma valid_digits s m e :
  valid_binary (S754_finite s m e) = true ->
  (-1074 <= e <= 971)%Z /\ (Z.pos m < 2 ^ 53)%Z
  /\ ((2 ^ 52 <= Z.pos m)%Z \/ e = (-1074)%Z).
Proof.
  intros [Hc He]%valid_finite. rewrite fexp_eq in Hc.
  destruct (Zdigits2_bounds (Z.pos m) eq_refl) as [[Hlo Hhi] Hd].
  set (d := Zdigits2 (Z.pos m)) in *.
  assert (Hd53 : (d <= 53)%Z) by lia.
  split; [lia|]. split.
  - apply Z.lt_le_trans with (2 ^ d)%Z; [exact Hhi|]. apply Z.pow_le_mono_r; lia.
  - destruct (Z.eq_dec e (-1074)%Z) as [|Hne]; [right; assumption|left].
    assert (d = 53%Z) by lia. subst d. rewrite H in Hlo. exact Hlo.
Qed.

Section Values.
Local Open Scope Q_scope.

(** The relative and the absolute rounding error. *)
Lemma half_ulp m e :
  valid_binary (S754_finite false m e) = true ->
  pow2 (e - 1) <= (1 # 9007199254740992) * (inject_Z (Z.pos m) * pow2 e) + pow2 (-1075).
Proof.
  intros (He & Hm & Hn)%valid_digits. pose proof (pow2_pos (e - 1)) as HP.
  pose proof (pow2_pos (-1075)) as HQ.
  assert (Hp : pow2 e == 2 * pow2 (e - 1)).
  { rewrite <- pow2_succ. replace (e - 1 + 1)%Z with e by lia. reflexivity. }
  destruct Hn as [Hn | ->]; [|change (-1074 - 1)%Z with (-1075)%Z;
    assert (0 <= inject_Z (Z.pos m) * pow2 (-1074));
    [apply Qmult_le_0_compat; [rewrite <- (Zle_Qle 0); lia|apply Qlt_le_weak, pow2_pos]|lra]].
  rewrite Hp.
  assert (Hi : inject_Z (2 ^ 52) <= inject_Z (Z.pos m)) by (rewrite <- Zle_Qle; exact Hn).
  change (inject_Z (2 ^ 52)) with 4503599627370496 in Hi.
  assert (4503599627370496 * pow2 (e - 1) <= inject_Z (Z.pos m) * pow2 (e - 1)).
  { apply Qmult_le_compat_r; lra. }
  lra.
Qed.

Lemma value_below m e :
  valid_binary (S754_finite false m e) = true ->
  0 < inject_Z (Z.pos m) * pow2 e /\ inject_Z (Z.pos m) * pow2 e < pow2 1024.
Proof.
  intros (He & Hm & _)%valid_digits. pose proof (pow2_pos e) as HP. split.
  - apply Qmult_lt_0_compat; [|exact HP]. rewrite <- (Zlt_Qlt 0). lia.
  - apply Qlt_le_trans with (inject_Z (2 ^ 53) * pow2 e).
    + apply Qmult_lt_r; [exact HP|]. rewrite <- Zlt_Qlt. exact Hm.
    + rewrite <- pow2_Z by lia. rewrite <- pow2_add. apply pow2_le. lia.
Qed.

(** A rounded real that is not sent to infinity, and its float. *)
Lemma Rounded_value x R :
  0 <= x -> Rounded x R -> valid_binary R = true ->
  (R = S754_infinity false /\ pow2 971 <= x)
  \/ exists v,
       SFvalue R = Some v /\ 0 <= v
       /\ (1 - (1 # 9007199254740992)) * v - pow2 (-1075) <= x
       /\ x <= (1 + (1 # 9007199254740992)) * v + pow2 (-1075)
       /\ (R = S754_zero false \/ exists m e, R = S754_finite false m e).
Proof.
  intros Hx [Hz | m e Hup Hdown | Hinf] Hv.
  - right. exists 0. pose proof (pow2_pos (-1075)).
    split; [reflexivity|]. split; [lra|]. split; [lra|]. split; [lra|].
    left. reflexivity.
  - right. exists (inject_Z (Z.pos m) * pow2 e).
    pose proof (half_ulp m e Hv) as Hu. destruct (value_below m e Hv) as [Hpos _].
    split; [reflexivity|]. split; [lra|]. split; [lra|]. split; [lra|].
    right. eauto.
  - left. split; [reflexivity|exact Hinf].
Qed.

End Values.

(** ** Binary64: product and quotient *)

Lemma Zdigits2_nonneg m : (0 <= Zdigits2 m)%Z.
Proof. destruct m; cbn [Zdigits2]; lia. Qed.

Section Operations.
Local Open Scope Q_scope.

Lemma SFmul_rounded mx ex my ey :
  valid_binary (S754_finite false mx ex) = true ->
  valid_binary (S754_finite false my ey) = true ->
  Rounded ((inject_Z (Z.pos mx) * pow2 ex) * (inject_Z (Z.pos my) * pow2 ey))
    (SFmul prec emax (S754_finite false mx ex) (S754_finite false my ey)).
Proof.
  intros (Hex & Hmx & Hnx)%valid_digits (Hey & Hmy & Hny)%valid_digits.
  cbn [SFmul xorb]. apply binary_round_aux_rounded.
  - lia.
  - rewrite fexp_eq.
    assert (Hbig : forall a b : positive, (2 ^ 52 <= Z.pos a)%Z ->
                     (53 <= Zdigits2 (Z.pos (a * b)))%Z).
    { intros a b Ha. apply (Zdigits2_ge (Z.pos (a * b)) 52); [lia|].
      rewrite Pos2Z.inj_mul. nia. }
    destruct Hnx as [Hnx | ->].
    { pose proof (Hbig mx my Hnx). lia. }
    destruct Hny as [Hny | ->]; [|lia].
    pose proof (Hbig my mx Hny) as H. rewrite Pos.mul_comm in H. lia.
  - cbn [located]. rewrite Pos2Z.inj_mul, inject_Z_mult, pow2_add. ring.
Qed.

Lemma new_location_located m2 r q P x :
  (0 < m2)%Z -> (0 <= r < m2)%Z -> 0 < P ->
  x == (inject_Z q + inject_Z r / inject_Z m2) * P ->
  match new_location m2 r with
  | loc_Exact => x == inject_Z q * P
  | loc_Inexact Lt => inject_Z q * P < x /\ x < inject_Z q * P + (1 # 2) * P
  | loc_Inexact Eq => x == inject_Z q * P + (1 # 2) * P
  | loc_Inexact Gt => inject_Z q * P + (1 # 2) * P < x /\ x < inject_Z q * P + P
  end.
Proof.
  intros Hm2 Hr HP Hx.
  assert (HM : 0 < inject_Z m2) by (rewrite <- (Zlt_Qlt 0); exact Hm2).
  set (t := inject_Z r / inject_Z m2) in *.
  assert (Hx' : x == inject_Z q * P + t * P) by (rewrite Hx; ring).
  assert (Ht1 : t < 1).
  { apply Qlt_shift_div_r; [exact HM|]. rewrite Qmult_1_l, <- Zlt_Qlt. lia. }
  assert (Hlow : (2 * r < m2)%Z -> t < 1 # 2).
  { intros H. apply Qlt_shift_div_r; [exact HM|].
    assert (inject_Z (2 * r) < inject_Z m2) by (rewrite <- Zlt_Qlt; exact H).
    rewrite inject_Z_mult in H0. change (inject_Z 2) with 2 in H0. lra. }
  assert (Hhigh : (m2 < 2 * r)%Z -> 1 # 2 < t).
  { intros H. apply Qlt_shift_div_l; [exact HM|].
    assert (inject_Z m2 < inject_Z (2 * r)) by (rewrite <- Zlt_Qlt; exact H).
    rewrite inject_Z_mult in H0. change (inject_Z 2) with 2 in H0. lra. }
  assert (Hmid : (2 * r = m2)%Z -> t == 1 # 2).
  { intros H. unfold t. rewrite <- H, inject_Z_mult. change (inject_Z 2) with 2.
    assert (~ inject_Z r == 0).
    { intros E. assert (inject_Z 0 < inject_Z r) by (rewrite <- Zlt_Qlt; lia).
      change (inject_Z 0) with 0 in H0. lra. }
    field. exact H0. }
  assert (Hpos : (0 < r)%Z -> 0 < t).
  { intros H. apply Qlt_shift_div_l; [exact HM|]. rewrite Qmult_0_l.
    rewrite <- (Zlt_Qlt 0). exact H. }
  assert (Hmul : forall a b, a < b -> a * P < b * P).
  { intros a b Hab. apply Qmult_lt_r; assumption. }
  assert (Hzero : r = 0%Z -> x == inject_Z q * P).
  { intros ->. assert (t == 0) by (unfold t; change (inject_Z 0) with 0; apply Qmult_0_l).
    rewrite Hx', H. ring. }
  pose proof (Hmul _ _ Ht1) as H1.
  unfold new_location. destruct (Z.even m2) eqn:Ev.
  - unfold new_location_even. destruct (Z.eqb_spec r 0) as [E0|Hr0]; [exact (Hzero E0)|].
    assert (Hrp : (0 < r)%Z) by lia. pose proof (Hmul _ _ (Hpos Hrp)) as Hp.
    destruct (Z.compare_spec (2 * r) m2) as [E|L|G].
    + rewrite Hx', (Hmid E). reflexivity.
    + pose proof (Hmul _ _ (Hlow L)). lra.
    + pose proof (Hmul _ _ (Hhigh G)). lra.
  - unfold new_location_odd. destruct (Z.eqb_spec r 0) as [E0|Hr0]; [exact (Hzero E0)|].
    assert (Hrp : (0 < r)%Z) by lia. pose proof (Hmul _ _ (Hpos Hrp)) as Hp.
    assert (Hne : (2 * r <> m2)%Z).
    { intros E. rewrite <- E, Z.even_mul in Ev. discriminate Ev. }
    destruct (Z.compare_spec (2 * r + 1) m2) as [E|L|G].
    + assert (L : (2 * r < m2)%Z) by lia. pose proof (Hmul _ _ (Hlow L)). lra.
    + assert (L' : (2 * r < m2)%Z) by lia. pose proof (Hmul _ _ (Hlow L')). lra.
    + assert (G' : (m2 < 2 * r)%Z) by lia. pose proof (Hmul _ _ (Hhigh G')). lra.
Qed.

Lemma SFdiv_core_located m1 e1 m2 e2 :
  (0 < m1)%Z -> (0 < m2)%Z ->
  let '(q, e', l) := SFdiv_core_binary prec emax m1 e1 m2 e2 in
  (0 <= q)%Z /\ (e' <= fexp prec emax (Zdigits2 q + e'))%Z
  /\ located q e' l ((inject_Z m1 * pow2 e1) / (inject_Z m2 * pow2 e2)).
Proof.
  intros H1 H2. unfold SFdiv_core_binary.
  set (d1 := Zdigits2 m1). set (d2 := Zdigits2 m2).
  set (e' := Z.min (fexp prec emax (d1 + e1 - (d2 + e2))) (e1 - e2)).
  set (s := (e1 - e2 - e')%Z).
  assert (Hs : (0 <= s)%Z) by (unfold s, e'; lia).
  set (m' := match s with Z.pos _ => Z.shiftl m1 s | 0%Z => m1 | Z.neg _ => 0%Z end).
  assert (Hm' : m' = (m1 * 2 ^ s)%Z).
  { unfold m'. destruct s as [|p|p] eqn:Es; [cbn; lia| |lia].
    rewrite Z.shiftl_mul_pow2 by lia. reflexivity. }
  clearbody m'.
  destruct (Z.div_eucl m' m2) as [q r] eqn:E.
  assert (Hdm : (m' = m2 * q + r /\ 0 <= r < m2)%Z).
  { pose proof (Z_div_mod m' m2 ltac:(lia)) as H. rewrite E in H. exact H. }
  destruct Hdm as [Hdiv Hr].
  assert (Hp2 : (0 < 2 ^ s)%Z) by (apply Z.pow_pos_nonneg; lia).
  assert (Hq : (0 <= q)%Z) by nia.
  destruct (Zdigits2_bounds m1 H1) as [[Hlo1 _] Hd1].
  destruct (Zdigits2_bounds m2 H2) as [[_ Hhi2] Hd2].
  fold d1 in Hlo1, Hd1. fold d2 in Hhi2, Hd2.
  split; [exact Hq|]. split.
  - assert (Hd : (d1 + s - d2 <= Zdigits2 q)%Z).
    { destruct (Z_lt_le_dec (d1 + s - d2 - 1) 0) as [Hneg|Hk].
      { pose proof (Zdigits2_nonneg q). lia. }
      pose proof (Zdigits2_ge q (d1 + s - d2 - 1) Hk) as Hge.
      assert ((2 ^ (d1 + s - d2 - 1) <= q)%Z); [|lia].
      assert (Hpow : (2 ^ (d1 - 1) * 2 ^ s = 2 ^ (d1 + s - d2 - 1) * 2 ^ d2)%Z).
      { rewrite <- !Z.pow_add_r by lia. f_equal. lia. }
      assert (Hk2 : (0 < 2 ^ (d1 + s - d2 - 1))%Z) by (apply Z.pow_pos_nonneg; lia).
      assert (Hlt : (2 ^ (d1 + s - d2 - 1) * m2 < m2 * (q + 1))%Z).
      { apply Z.lt_le_trans with (2 ^ (d1 + s - d2 - 1) * 2 ^ d2)%Z.
        - apply Z.mul_lt_mono_pos_l; [exact Hk2|exact Hhi2].
        - rewrite <- Hpow. apply Z.le_trans with (m1 * 2 ^ s)%Z.
          + apply Z.mul_le_mono_nonneg_r; lia.
          + lia. }
      rewrite (Z.mul_comm _ m2) in Hlt. apply Z.mul_lt_mono_pos_l in Hlt; lia. }
    rewrite fexp_eq. unfold e' at 1. rewrite fexp_eq. unfold s in Hd. lia.
  - pose proof (pow2_pos e') as HP. pose proof (pow2_pos e2) as HP2.
    assert (HM : 0 < inject_Z m2) by (rewrite <- (Zlt_Qlt 0); exact H2).
    assert (Hx : (inject_Z m1 * pow2 e1) / (inject_Z m2 * pow2 e2)
                 == (inject_Z q + inject_Z r / inject_Z m2) * pow2 e').
    { assert (He1 : pow2 e1 == pow2 s * pow2 e' * pow2 e2).
      { rewrite <- !pow2_add. replace (s + e' + e2)%Z with e1 by (unfold s; lia).
        reflexivity. }
      assert (Hi : inject_Z m1 * pow2 s == inject_Z m2 * inject_Z q + inject_Z r).
      { rewrite pow2_Z by exact Hs. rewrite <- !inject_Z_mult, <- inject_Z_plus.
        rewrite <- Hdiv, Hm'. reflexivity. }
      rewrite He1.
      assert (Hn1 : ~ inject_Z m2 == 0) by lra.
      assert (Hn2 : ~ pow2 e2 == 0) by lra.
      setoid_replace (inject_Z m1 * (pow2 s * pow2 e' * pow2 e2) / (inject_Z m2 * pow2 e2))
        with ((inject_Z m1 * pow2 s) * pow2 e' / inject_Z m2) using relation Qeq
        by (field; split; assumption).
      rewrite Hi. field. exact Hn1. }
    pose proof (new_location_located m2 r q (pow2 e') _ H2 Hr HP Hx) as Hloc.
    unfold located. destruct (new_location m2 r) as [|[| |]]; exact Hloc.
Qed.

Lemma SFdiv_rounded mx ex my ey :
  Rounded ((inject_Z (Z.pos mx) * pow2 ex) / (inject_Z (Z.pos my) * pow2 ey))
    (SFdiv prec emax (S754_finite false mx ex) (S754_finite false my ey)).
Proof.
  cbn [SFdiv xorb].
  pose proof (SFdiv_core_located (Z.pos mx) ex (Z.pos my) ey eq_refl eq_refl) as H.
  destruct (SFdiv_core_binary prec emax (Z.pos mx) ex (Z.pos my) ey) as [[q e'] l].
  destruct H as (Hq & He & Hl). apply binary_round_aux_rounded; assumption.
Qed.

End Operations.

(** ** Binary64: order *)

Section Order.
Local Open Scope Q_scope.

Lemma exponent_order m1 e1 m2 e2 :
  valid_binary (S754_finite false m1 e1) = true ->
  valid_binary (S754_finite false m2 e2) = true ->
  (e1 < e2)%Z ->
  inject_Z (Z.pos m1) * pow2 e1 < inject_Z (Z.pos m2) * pow2 e2.
Proof.
  intros (He1 & Hm1 & _)%valid_digits (He2 & _ & Hn2)%valid_digits Hlt.
  destruct Hn2 as [Hn2|Hn2]; [|lia].
  pose proof (pow2_pos e1) as HP1. pose proof (pow2_pos e2) as HP2.
  apply Qlt_le_trans with (inject_Z (2 ^ 53) * pow2 e1).
  { apply Qmult_lt_r; [exact HP1|]. rewrite <- Zlt_Qlt. exact Hm1. }
  apply Qle_trans with (inject_Z (2 ^ 52) * pow2 e2).
  - change (inject_Z (2 ^ 53)) with (2 * inject_Z (2 ^ 52)).
    assert (pow2 (e1 + 1) <= pow2 e2) by (apply pow2_le; lia).
    rewrite pow2_succ in H.
    assert (0 < inject_Z (2 ^ 52)) by reflexivity.
    setoid_replace (2 * inject_Z (2 ^ 52) * pow2 e1)
      with (inject_Z (2 ^ 52) * (2 * pow2 e1)) using relation Qeq by ring.
    apply Qmult_le_l; assumption.
  - apply Qmult_le_compat_r; [|lra]. rewrite <- Zle_Qle. exact Hn2.
Qed.

Lemma SFcompare_finite m1 e1 m2 e2 :
  valid_binary (S754_finite false m1 e1) = true ->
  valid_binary (S754_finite false m2 e2) = true ->
  SFcompare (S754_finite false m1 e1) (S754_finite false m2 e2)
  = Some (inject_Z (Z.pos m1) * pow2 e1 ?= inject_Z (Z.pos m2) * pow2 e2).
Proof.
  intros V1 V2. cbn [SFcompare]. f_equal. symmetry.
  destruct (Z.compare_spec e1 e2) as [E|L|G].
  - subst e2. pose proof (pow2_pos e1) as HP.
    change (Pos.compare_cont Eq m1 m2) with (Pos.compare m1 m2).
    destruct (Pos.compare_spec m1 m2) as [E|L|G].
    + subst m2. apply Qeq_alt. reflexivity.
    + apply Qlt_alt. apply Qmult_lt_r; [exact HP|]. rewrite <- Zlt_Qlt. lia.
    + apply Qgt_alt. apply Qmult_lt_r; [exact HP|]. rewrite <- Zlt_Qlt. lia.
  - apply Qlt_alt. apply exponent_order; assumption.
  - apply Qgt_alt. apply exponent_order; [assumption|assumption|lia].
Qed.

(** The order of floats that are not negative is the order of what they
    stand for. *)
Lemma SFcompare_value X Y qx qy :
  valid_binary X = true -> valid_binary Y = true ->
  NonNegative X qx -> NonNegative Y qy ->
  SFcompare X Y = Some (qx ?= qy).
Proof.
  intros VX VY HX HY.
  destruct X as [[|]| | |[|] mx ex]; try contradiction;
    destruct Y as [[|]| | |[|] my ey]; try contradiction; cbn [NonNegative] in HX, HY.
  - cbn [SFcompare]. f_equal. symmetry. apply Qeq_alt. rewrite HX, HY. reflexivity.
  - cbn [SFcompare]. f_equal. symmetry. apply Qlt_alt.
    destruct (value_below my ey VY). rewrite HX, HY. assumption.
  - cbn [SFcompare]. f_equal. symmetry. apply Qgt_alt.
    destruct (value_below mx ex VX). rewrite HX, HY. assumption.
  - rewrite (SFcompare_finite mx ex my ey VX VY). f_equal.
    rewrite HX, HY. reflexivity.
Qed.

Lemma SFltb_value X Y qx qy :
  valid_binary X = true -> valid_binary Y = true ->
  NonNegative X qx -> NonNegative Y qy ->
  SFltb X Y = true <-> qx < qy.
Proof.
  intros VX VY HX HY. unfold SFltb. rewrite (SFcompare_value X Y qx qy) by assumption.
  rewrite Qlt_alt. destruct (qx ?= qy); split; congruence.
Qed.

Lemma SFleb_value X Y qx qy :
  valid_binary X = true -> valid_binary Y = true ->
  NonNegative X qx -> NonNegative Y qy ->
  SFleb X Y = true <-> qx <= qy.
Proof.
  intros VX VY HX HY. unfold SFleb. rewrite (SFcompare_value X Y qx qy) by assumption.
  rewrite Qle_alt. destruct (qx ?= qy); split; congruence.
Qed.

Lemma NonNegative_nonneg X q : valid_binary X = true -> NonNegative X q -> 0 <= q.
Proof.
  intros V H. destruct X as [[|]| | |[|] m e]; try contradiction; cbn [NonNegative] in H.
  - lra.
  - destruct (value_below m e V). lra.
Qed.

Lemma NonNegative_not_nan X q : NonNegative X q -> SFeqb X X = true.
Proof.
  intros H. destruct X as [[|]| | |[|] m e]; try contradiction; [reflexivity|].
  unfold SFeqb. cbn [SFcompare]. rewrite Z.compare_refl.
  change (Pos.compare_cont Eq m m) with (Pos.compare m m). rewrite Pos.compare_refl.
  reflexivity.
Qed.

End Order.

(** ** Binary64: the operations of the program *)

Section Floats.
Local Open Scope Q_scope.

Lemma Rounded_Near x R :
  0 <= x -> Rounded x R -> valid_binary R = true -> Near x R.
Proof.
  intros Hx HR V. destruct (Rounded_value x R Hx HR V) as [[-> Hinf]|(v & Hv & Hv0 & Hlo & Hhi & Hs)].
  - left. split; [reflexivity|exact Hinf].
  - right. exists v. split; [|split; assumption].
    destruct Hs as [->|(m & e & ->)]; cbn [SFvalue] in Hv; injection Hv as <-;
      cbn [NonNegative]; reflexivity.
Qed.

Lemma Near_comp x x' R : x == x' -> Near x R -> Near x' R.
Proof.
  intros E [[-> H]|(v & Hv & Hlo & Hhi)].
  - left. split; [reflexivity|]. rewrite <- E. exact H.
  - right. exists v. split; [exact Hv|]. rewrite <- E. split; assumption.
Qed.

Lemma positive_finite X q :
  NonNegative X q -> 0 < q ->
  exists m e, X = S754_finite false m e /\ q == inject_Z (Z.pos m) * pow2 e.
Proof.
  intros H Hq. destruct X as [[|]| | |[|] m e]; try contradiction; cbn [NonNegative] in H.
  - lra.
  - exists m, e. split; [reflexivity|exact H].
Qed.

Lemma SFdiv_Near X Y qx qy :
  valid_binary (SFdiv prec emax X Y) = true ->
  NonNegative X qx -> NonNegative Y qy -> 0 < qx -> 0 < qy ->
  Near (qx / qy) (SFdiv prec emax X Y).
Proof.
  intros V HX HY Hx Hy.
  destruct (positive_finite X qx HX Hx) as (mx & ex & -> & Ex).
  destruct (positive_finite Y qy HY Hy) as (my & ey & -> & Ey).
  apply Near_comp with ((inject_Z (Z.pos mx) * pow2 ex) / (inject_Z (Z.pos my) * pow2 ey)).
  { rewrite Ex, Ey. reflexivity. }
  apply Rounded_Near; [|apply SFdiv_rounded|exact V].
  rewrite <- Ex, <- Ey. apply Qlt_le_weak, Qlt_shift_div_l; lra.
Qed.

Lemma SFmul_Near X Y qx qy :
  valid_binary X = true -> valid_binary Y = true ->
  valid_binary (SFmul prec emax X Y) = true ->
  NonNegative X qx -> NonNegative Y qy ->
  Near (qx * qy) (SFmul prec emax X Y).
Proof.
  intros VX VY V HX HY.
  assert (Hzero : forall a b, a == 0 \/ b == 0 -> Near (a * b) (S754_zero false)).
  { intros a b Hab. right. exists 0. pose proof (pow2_pos (-1075)).
    assert (a * b == 0) by (destruct Hab as [E|E]; rewrite E; ring).
    split; [reflexivity|]. split; lra. }
  destruct X as [[|]| | |[|] mx ex]; try contradiction;
    destruct Y as [[|]| | |[|] my ey]; try contradiction; cbn [NonNegative] in HX, HY;
    cbn [SFmul xorb]; try (apply Hzero; auto; fail).
  apply Near_comp with ((inject_Z (Z.pos mx) * pow2 ex) * (inject_Z (Z.pos my) * pow2 ey)).
  { rewrite HX, HY. reflexivity. }
  apply Rounded_Near; [|apply SFmul_rounded; assumption|exact V].
  destruct (value_below mx ex VX), (value_below my ey VY).
  apply Qmult_le_0_compat; lra.
Qed.

(** Math.round of a float that is not negative and below 2^52. *)
Lemma f64_round_near p v :
  NonNegative (Prim2SF p) v -> v < pow2 52 ->
  exists n : Z,
    f64_round p = f64_of_Z n /\ (0 <= n)%Z
    /\ inject_Z n <= v + (1 # 2) /\ v + (1 # 2) < inject_Z n + 1.
Proof.
  intros H Hv. pose proof (Prim2SF_valid p) as V. unfold f64_round.
  destruct (Prim2SF p) as [[|]| | |[|] m e] eqn:E; try contradiction; cbn [NonNegative] in H.
  - exists 0%Z. split.
    { rewrite <- (SF2Prim_Prim2SF p), E. reflexivity. }
    split; [lia|]. change (inject_Z 0) with 0. lra.
  - destruct (valid_digits _ _ _ V) as (He & Hm & Hn).
    pose proof (pow2_pos e) as HP.
    assert (Hneg : (e < 0)%Z).
    { destruct (Z_lt_le_dec e 0) as [|Hge]; [assumption|exfalso].
      destruct Hn as [Hn|Hn]; [|lia].
      assert (pow2 52 <= inject_Z (Z.pos m) * pow2 e); [|lra].
      apply Qle_trans with (inject_Z (Z.pos m) * pow2 0).
      - rewrite (pow2_Z 52) by lia. change (pow2 0) with 1. rewrite Qmult_1_r.
        rewrite <- Zle_Qle. exact Hn.
      - apply Qmult_le_l; [rewrite <- (Zlt_Qlt 0); lia|]. apply pow2_le. lia. }
    destruct (Z.leb_spec 0 e) as [|_]; [lia|]. cbn [andb].
    set (b := (2 ^ (1 - e))%Z). set (a := (2 * Z.pos m + 2 ^ (- e))%Z).
    exists (a / b)%Z.
    assert (Hb : (0 < b)%Z) by (apply Z.pow_pos_nonneg; lia).
    assert (Hk : (0 < 2 ^ (- e))%Z) by (apply Z.pow_pos_nonneg; lia).
    assert (Hbk : b = (2 * 2 ^ (- e))%Z).
    { unfold b. replace (1 - e)%Z with (Z.succ (- e)) by lia.
      rewrite Z.pow_succ_r by lia. reflexivity. }
    pose proof (Z.mul_div_le a b Hb) as Hlo.
    pose proof (Z.mul_succ_div_gt a b Hb) as Hhi.
    split; [reflexivity|]. split; [apply Z.div_pos; unfold a; lia|].
    set (n := (a / b)%Z) in *.
    assert (HKP : pow2 (- e) * pow2 e == 1).
    { rewrite <- pow2_add. replace (- e + e)%Z with 0%Z by lia. reflexivity. }
    assert (HK : inject_Z (2 ^ (- e)) == pow2 (- e)) by (rewrite pow2_Z by lia; reflexivity).
    pose proof (pow2_pos (- e)) as HKpos.
    assert (Ha : inject_Z a == 2 * inject_Z (Z.pos m) + pow2 (- e)).
    { unfold a. rewrite inject_Z_plus, inject_Z_mult, HK. reflexivity. }
    assert (Hbq : inject_Z b == 2 * pow2 (- e)).
    { rewrite Hbk, inject_Z_mult, HK. reflexivity. }
    assert (Hmul : forall u w, u <= w -> u * pow2 e <= w * pow2 e).
    { intros u w Huw. apply Qmult_le_compat_r; lra. }
    assert (Hmull : forall u w, u < w -> u * pow2 e < w * pow2 e).
    { intros u w Huw. apply Qmult_lt_r; assumption. }
    assert (E1 : forall u, 2 * pow2 (- e) * u * pow2 e == 2 * u * (pow2 (- e) * pow2 e))
      by (intros; ring).
    assert (E2 : (2 * inject_Z (Z.pos m) + pow2 (- e)) * pow2 e
                 == 2 * (inject_Z (Z.pos m) * pow2 e) + pow2 (- e) * pow2 e) by ring.
    split.
    + assert (Hq : inject_Z (b * n) <= inject_Z a) by (rewrite <- Zle_Qle; exact Hlo).
      rewrite inject_Z_mult, Hbq, Ha in Hq. apply Hmul in Hq.
      rewrite E1, E2, HKP in Hq. lra.
    + assert (Hq : inject_Z a < inject_Z (b * Z.succ n)) by (rewrite <- Zlt_Qlt; exact Hhi).
      unfold Z.succ in Hq. rewrite inject_Z_mult, inject_Z_plus, Hbq, Ha in Hq.
      change (inject_Z 1) with 1 in Hq. apply Hmull in Hq.
      rewrite E1, E2, HKP in Hq. lra.
Qed.

(** Math.min of two quotients of which one is small. *)
Lemma f64_min_Near a b A B :
  Near A (Prim2SF a) -> Near B (Prim2SF b) -> Qmin A B < pow2 971 ->
  exists v,
    NonNegative (Prim2SF (f64_min a b)) v
    /\ (1 - (1 # 9007199254740992)) * v - pow2 (-1075) <= Qmin A B
    /\ Qmin A B <= (1 + (1 # 9007199254740992)) * v + pow2 (-1075).
Proof.
  intros Ha Hb Hmin. pose proof (Prim2SF_valid a) as Va. pose proof (Prim2SF_valid b) as Vb.
  unfold f64_min, f64_is_nan. rewrite !FloatAxioms.eqb_spec, !FloatAxioms.ltb_spec.
  set (M := Qmin A B) in *.
  assert (Hinf : forall X v, NonNegative X v ->
                   SFltb (S754_infinity false) X = false
                   /\ SFltb X (S754_infinity false) = true).
  { intros X v H. destruct X as [[|]| | |[|] m e]; try contradiction; split; reflexivity. }
  assert (Hcmp : forall X Y x y, valid_binary X = true -> valid_binary Y = true ->
                   NonNegative X x -> NonNegative Y y ->
                   (SFltb X Y = true /\ x < y) \/ (SFltb X Y = false /\ y <= x)).
  { intros X Y x y VX VY NX NY. pose proof (SFltb_value X Y x y VX VY NX NY) as Hv.
    destruct (SFltb X Y); [left; split; [reflexivity|apply Hv; reflexivity]|].
    right. split; [reflexivity|]. apply Qnot_lt_le. intros C. apply Hv in C. discriminate C. }
  destruct (Q.min_spec A B) as [[Hlt Em]|[Hle Em]]; fold M in Em;
    destruct Ha as [[Ea Ia]|(va & Na & La & Ua)];
    destruct Hb as [[Eb Ib]|(vb & Nb & Lb & Ub)]; try lra.
  - (* A < B, b is infinite *)
    rewrite (NonNegative_not_nan _ _ Na), Eb. cbn [negb SFeqb SFcompare].
    destruct (Hinf _ _ Na) as [-> ->].
    exists va. split; [exact Na|]. split; lra.
  - (* A < B, both finite *)
    rewrite (NonNegative_not_nan _ _ Na), (NonNegative_not_nan _ _ Nb). cbn [negb].
    destruct (Hcmp _ _ vb va Vb Va Nb Na) as [[-> Hc]|[-> Hc]].
    { exists vb. split; [exact Nb|]. split; lra. }
    destruct (Hcmp _ _ va vb Va Vb Na Nb) as [[-> Hd]|[-> Hd]].
    { exists va. split; [exact Na|]. split; lra. }
    exists vb. split; [|split; lra].
    destruct (Prim2SF a) as [[|]| | |]; try exact Nb. contradiction.
  - (* B <= A, a is infinite *)
    rewrite (NonNegative_not_nan _ _ Nb), Ea. cbn [negb SFeqb SFcompare].
    destruct (Hinf _ _ Nb) as [_ ->].
    exists vb. split; [exact Nb|]. split; lra.
  - (* B <= A, both finite *)
    rewrite (NonNegative_not_nan _ _ Na), (NonNegative_not_nan _ _ Nb). cbn [negb].
    destruct (Hcmp _ _ vb va Vb Va Nb Na) as [[-> Hc]|[-> Hc]].
    { exists vb. split; [exact Nb|]. split; lra. }
    destruct (Hcmp _ _ va vb Va Vb Na Nb) as [[-> Hd]|[-> Hd]].
    { exists va. split; [exact Na|]. split; lra. }
    exists vb. split; [|split; lra].
    destruct (Prim2SF a) as [[|]| | |]; try exact Nb. contradiction.
Qed.

End Floats.

(** ** The display fit *)

Section Fit.
Local Open Scope Q_scope.

Lemma Qround_half_up_near q :
  Qabs (inject_Z (Qround_half_up q) - q) <= 1 # 2.
Proof.
  unfold Qround_half_up. pose proof (Qfloor_le (q + (1 # 2))) as Hlo.
  pose proof (Qlt_floor (q + (1 # 2))) as Hhi. rewrite inject_Z_plus in Hhi.
  change (inject_Z 1) with 1 in Hhi.
  apply Qabs_Qle_condition. split; lra.
Qed.

Lemma scaled_within (a b x y : Q) :
  0 < x -> 0 < y -> 0 < a -> 0 < b ->
  let r := Qmin (a / x) (b / y) in
  x * r <= a /\ y * r <= b.
Proof.
  intros Hx Hy Ha Hb r.
  assert (Hxa : x * (a / x) == a) by (apply Qmult_div_r; lra).
  assert (Hyb : y * (b / y) == b) by (apply Qmult_div_r; lra).
  split.
  - apply Qle_trans with (x * (a / x)); [|rewrite Hxa; apply Qle_refl].
    apply Qmult_le_l; [exact Hx|]. apply Q.le_min_l.
  - apply Qle_trans with (y * (b / y)); [|rewrite Hyb; apply Qle_refl].
    apply Qmult_le_l; [exact Hy|]. apply Q.le_min_r.
Qed.

Lemma f64_is_positive x q : f64_is x q -> 0 < q -> NonNegative (Prim2SF x) q.
Proof.
  unfold f64_is, f64_value. intros H Hq. pose proof (Prim2SF_valid x) as V.
  destruct (Prim2SF x) as [[|]| | |[|] m e]; cbn [SFvalue NonNegative] in *;
    try contradiction; try lra.
  destruct (value_below m e V) as [Hp _]. lra.
Qed.

Lemma NonNegative_below X q : valid_binary X = true -> NonNegative X q -> q < pow2 1024.
Proof.
  intros V H. destruct X as [[|]| | |[|] m e]; try contradiction; cbn [NonNegative] in H.
  - pose proof (pow2_pos 1024). lra.
  - destruct (value_below m e V). lra.
Qed.

Lemma whole_sizes_are_floats n :
  (0 <= n <= 912)%Z -> f64_is (f64_of_Z n) (inject_Z n).
Proof.
  intros Hn.
  assert (Hall : forallb (fun k => match f64_value (f64_of_Z (Z.of_nat k)) with
                                   | Some v => Qeq_bool v (inject_Z (Z.of_nat k))
                                   | None => false
                                   end) (seq 0 913) = true) by (vm_compute; reflexivity).
  rewrite forallb_forall in Hall. specialize (Hall (Z.to_nat n)).
  rewrite Z2Nat.id in Hall by lia. unfold f64_is.
  assert (Hin : In (Z.to_nat n) (seq 0 913)) by (apply in_seq; lia).
  specialize (Hall Hin).
  destruct (f64_value (f64_of_Z n)); [apply Qeq_bool_iff; exact Hall|discriminate Hall].
Qed.

(** One axis of the scaled result: the product with the ratio the program
    holds, rounded. *)
Lemma axis_fit (x r : float) (qx vr rm : Q) (cap : Z) :
  NonNegative (Prim2SF x) qx -> 0 < qx ->
  NonNegative (Prim2SF r) vr ->
  (1 - (1 # 9007199254740992)) * vr - pow2 (-1075) <= rm ->
  rm <= (1 + (1 # 9007199254740992)) * vr + pow2 (-1075) ->
  qx * rm <= inject_Z cap -> (0 <= cap <= 912)%Z ->
  exists n : Z,
    f64_round (x * r) = f64_of_Z n /\ (0 <= n <= cap)%Z
    /\ Qabs (inject_Z n - qx * rm) <= (1 # 2) + (1 # 1000000000).
Proof.
  intros Nx Hx Nr Lr Ur Hcap Hc.
  pose proof (Prim2SF_valid x) as Vx. pose proof (Prim2SF_valid r) as Vr.
  pose proof (Prim2SF_valid (x * r)) as Vp.
  pose proof (NonNegative_nonneg _ _ Vr Nr) as Hvr.
  pose proof (NonNegative_below _ _ Vx Nx) as Hbig.
  assert (Hcapq : inject_Z cap <= inject_Z 912) by (rewrite <- Zle_Qle; lia).
  change (inject_Z 912) with 912 in Hcapq.
  pose proof (pow2_pos (-1075)) as Heta.
  assert (Heta' : pow2 (-1075) <= 1 # 2251799813685248).
  { apply Qle_trans with (pow2 (-51)); [apply pow2_le; lia|]. apply Qle_lteq. right. reflexivity. }
  assert (Hd : qx * pow2 (-1075) <= 1 # 2251799813685248).
  { apply Qle_trans with (pow2 1024 * pow2 (-1075)).
    - apply Qmult_le_compat_r; lra.
    - rewrite <- pow2_add. apply Qle_lteq. right. reflexivity. }
  assert (Hd0 : 0 <= qx * pow2 (-1075)) by (apply Qmult_le_0_compat; lra).
  assert (Hx0 : 0 <= qx * vr) by (apply Qmult_le_0_compat; lra).
  assert (L1 : qx * ((1 - (1 # 9007199254740992)) * vr - pow2 (-1075)) <= qx * rm)
    by (apply Qmult_le_l; assumption).
  assert (U1 : qx * rm <= qx * ((1 + (1 # 9007199254740992)) * vr + pow2 (-1075)))
    by (apply Qmult_le_l; assumption).
  assert (L1' : (1 - (1 # 9007199254740992)) * (qx * vr) - qx * pow2 (-1075) <= qx * rm).
  { apply Qle_trans with (qx * ((1 - (1 # 9007199254740992)) * vr - pow2 (-1075)));
      [apply Qle_lteq; right; ring|exact L1]. }
  assert (U1' : qx * rm <= (1 + (1 # 9007199254740992)) * (qx * vr) + qx * pow2 (-1075)).
  { apply Qle_trans with (qx * ((1 + (1 # 9007199254740992)) * vr + pow2 (-1075)));
      [exact U1|apply Qle_lteq; right; ring]. }
  clear L1 U1.
  set (X := qx * vr) in *. set (D := qx * pow2 (-1075)) in *. set (T := qx * rm) in *.
  assert (HN : Near X (Prim2SF (x * r))).
  { rewrite mul_spec. apply SFmul_Near; try assumption. rewrite <- mul_spec. exact Vp. }
  assert (H971 : 1024 <= pow2 971).
  { apply Qle_trans with (pow2 10); [apply Qle_lteq; right; reflexivity|apply pow2_le; lia]. }
  destruct HN as [[_ Hinf]|(vp & Np & Lp & Up)]; [lra|].
  pose proof (NonNegative_nonneg _ _ Vp Np) as Hvp.
  assert (H52 : vp < pow2 52).
  { apply Qlt_le_trans with 1024; [lra|].
    apply Qle_trans with (pow2 10); [apply Qle_lteq; right; reflexivity|apply pow2_le; lia]. }
  destruct (f64_round_near (x * r) vp Np H52) as (n & En & Hn0 & Hlo & Hhi).
  exists n. split; [exact En|]. split.
  - split; [exact Hn0|].
    assert (Hlt : inject_Z n < inject_Z (cap + 1)).
    { rewrite inject_Z_plus. change (inject_Z 1) with 1. lra. }
    rewrite <- Zlt_Qlt in Hlt. lia.
  - apply Qabs_Qle_condition. split; lra.
Qed.

End Fit.

(** C4: in the program's arithmetic (IEEE binary64), an image within 576 by
    912 keeps its size; a larger one of finite positive size w by h comes
    back as round(w * r) by round(h * r), the ratio r and the products
    being the floats the program computes, and these are whole numbers W
    and H that exceed neither maximum and lie within half a unit (and a
    rounding error below 10^-9) of w * r and h * r for the exact
    r = min(576/w, 912/h); 2000 by 3000 gives 576 by 864. *)
Theorem C4_display_fit :
  (forall w h : float,
      PrimFloat.leb w 576 = true -> PrimFloat.leb h 912 = true ->
      calculateImageDimensions w h = {| width := w; height := h |})
  /\ (forall (w h : float) (qw qh : Q),
         f64_is w qw -> f64_is h qh -> (0 < qw)%Q -> (0 < qh)%Q ->
         let r := Qmin (576 / qw) (912 / qh) in
         ((qw <= 576)%Q /\ (qh <= 912)%Q ->
          calculateImageDimensions w h = {| width := w; height := h |})
         /\ (~ ((qw <= 576)%Q /\ (qh <= 912)%Q) ->
             calculateImageDimensions w h
             = {| width := f64_round (w * f64_min (576 / w) (912 / h))%float;
                  height := f64_round (h * f64_min (576 / w) (912 / h))%float |}
             /\ exists W H : Z,
                 calculateImageDimensions w h
                 = {| width := f64_of_Z W; height := f64_of_Z H |}
                 /\ f64_is (f64_of_Z W) (inject_Z W) /\ f64_is (f64_of_Z H) (inject_Z H)
                 /\ (0 <= W <= 576)%Z /\ (0 <= H <= 912)%Z
                 /\ (Qabs (inject_Z W - qw * r) <= (1 # 2) + (1 # 1000000000))%Q
                 /\ (Qabs (inject_Z H - qh * r) <= (1 # 2) + (1 # 1000000000))%Q))
  /\ calculateImageDimensions 2000%float 3000%float
     = {| width := 576%float; height := 864%float |}.
Proof.
  assert (Hcalc : forall w h : float,
             calculateImageDimensions w h
             = if PrimFloat.leb w 576 && PrimFloat.leb h 912
               then {| width := w; height := h |}
               else {| width := f64_round (w * f64_min (576 / w) (912 / h))%float;
                       height := f64_round (h * f64_min (576 / w) (912 / h))%float |})
    by reflexivity.
  split; [|split; [|vm_compute; reflexivity]].
  { intros w h Hw Hh. rewrite Hcalc, Hw, Hh. reflexivity. }
  intros w h qw qh Hw Hh Hqw Hqh r.
  pose proof (f64_is_positive w qw Hw Hqw) as Nw.
  pose proof (f64_is_positive h qh Hh Hqh) as Nh.
  assert (N576 : NonNegative (Prim2SF 576) 576) by (vm_compute; reflexivity).
  assert (N912 : NonNegative (Prim2SF 912) 912) by (vm_compute; reflexivity).
  assert (Tw : PrimFloat.leb w 576 = true <-> (qw <= 576)%Q).
  { rewrite leb_spec. apply SFleb_value; auto using Prim2SF_valid. }
  assert (Th : PrimFloat.leb h 912 = true <-> (qh <= 912)%Q).
  { rewrite leb_spec. apply SFleb_value; auto using Prim2SF_valid. }
  split.
  { intros [Fw Fh]. apply Tw in Fw. apply Th in Fh. rewrite Hcalc, Fw, Fh. reflexivity. }
  intros Hbig.
  assert (Htest : PrimFloat.leb w 576 && PrimFloat.leb h 912 = false).
  { destruct (PrimFloat.leb w 576) eqn:Ew; [|reflexivity].
    destruct (PrimFloat.leb h 912) eqn:Eh; [|reflexivity].
    exfalso. apply Hbig. split; [apply Tw|apply Th]; reflexivity. }
  rewrite Hcalc, Htest. split; [reflexivity|].
  assert (Ha : Near (576 / qw) (Prim2SF (576 / w))).
  { rewrite div_spec. apply SFdiv_Near;
      [rewrite <- div_spec; apply Prim2SF_valid|exact N576|exact Nw|reflexivity|exact Hqw]. }
  assert (Hb : Near (912 / qh) (Prim2SF (912 / h))).
  { rewrite div_spec. apply SFdiv_Near;
      [rewrite <- div_spec; apply Prim2SF_valid|exact N912|exact Nh|reflexivity|exact Hqh]. }
  assert (Hmin : (r < pow2 971)%Q).
  { apply Qlt_le_trans with 1%Q;
      [|apply Qle_trans with (pow2 0); [apply Qle_refl|apply pow2_le; lia]].
    destruct (Qlt_le_dec 576 qw) as [Lw|Lw].
    - apply Qle_lt_trans with (576 / qw)%Q; [apply Q.le_min_l|].
      apply Qlt_shift_div_r; [exact Hqw|]. rewrite Qmult_1_l. exact Lw.
    - assert (Lh : (912 < qh)%Q).
      { apply Qnot_le_lt. intros C. apply Hbig. split; assumption. }
      apply Qle_lt_trans with (912 / qh)%Q; [apply Q.le_min_r|].
      apply Qlt_shift_div_r; [exact Hqh|]. rewrite Qmult_1_l. exact Lh. }
  destruct (f64_min_Near _ _ _ _ Ha Hb Hmin) as (vr & Nr & Lr & Ur). fold r in Lr, Ur.
  destruct (scaled_within 576 912 qw qh Hqw Hqh eq_refl eq_refl) as [Bw Bh]. fold r in Bw, Bh.
  destruct (axis_fit w _ qw vr r 576 Nw Hqw Nr Lr Ur Bw) as (W & EW & HW & AW); [lia|].
  destruct (axis_fit h _ qh vr r 912 Nh Hqh Nr Lr Ur Bh) as (H & EH & HH & AH); [lia|].
  exists W, H. rewrite EW, EH. split; [reflexivity|].
  split; [apply whole_sizes_are_floats; lia|]. split; [apply whole_sizes_are_floats; lia|].
  repeat split; try assumption; lia.
Qed.

Lemma C4_display_fit_witness :
  exists W H : Z,
    calculateImageDimensions 50%float 1600%float
    = {| width := f64_of_Z W; height := f64_of_Z H |}
    /\ (0 <= W <= 576)%Z /\ (0 <= H <= 912)%Z.
Proof.
  assert (Hw : f64_is 50%float 50%Q) by (vm_compute; reflexivity).
  assert (Hh : f64_is 1600%float 1600%Q) by (vm_compute; reflexivity).
  assert (Hbig : ~ ((50 <= 576)%Q /\ (1600 <= 912)%Q)).
  { intros [_ C]. apply C. reflexivity. }
  destruct (proj2 (proj1 (proj2 C4_display_fit) 50%float 1600%float 50%Q 1600%Q
                     Hw Hh eq_refl eq_refl) Hbig)
    as (_ & W & H & E & _ & _ & HW & HH & _).
  exists W, H. split; [exact E|]. split; [exact HW|exact HH].
Defined.

(** ** The render-result adapter *)

(** C9: an image result is placed with the fit of its raster size divided
    by 4 and rounded, axis by axis; on exact numbers the rounded quarter is
    an integer within half a unit of the quarter. *)
Theorem C9_quarter_scale :
  (forall (T : Type) (N : JSNumber T) (r : UnifiedRenderResult T) (pluginType : jsstring),
      type r = js "image" ->
      placedDimensions (convertPluginResultToDOCX r pluginType)
      = Some (calculateImageDimensions
                (num_round (num_div (orZero (c_width (content r))) (num_of_Z 4)))
                (num_round (num_div (orZero (c_height (content r))) (num_of_Z 4)))))
  /\ (forall w : Q,
         exists n : Z,
           num_round (num_div (Num w) (num_of_Z 4)) = Num (inject_Z n)
           /\ (Qabs (inject_Z n - w / 4) <= 1 # 2)%Q).
Proof.
  split.
  - intros T N r pluginType Ht. unfold convertPluginResultToDOCX. rewrite Ht.
    change (str_eqb (js "image") (js "empty")) with false.
    change (str_eqb (js "image") (js "error")) with false.
    change (str_eqb (js "image") (js "text")) with false.
    change (str_eqb (js "image") (js "image")) with true.
    cbv iota. destruct (inline (display r)); reflexivity.
  - intros w. exists (Qround_half_up (w / 4)). split; [|apply Qround_half_up_near].
    reflexivity.
Qed.

Lemma C9_quarter_scale_witness :
  placedDimensions
    (convertPluginResultToDOCX
       {| type := js "image";
          content := {| data := None; c_width := Some (Num 4000); c_height := Some (Num 6000);
                        text := None |};
          display := {| inline := false; alignment := None |} |}
       (js "mermaid"))
  = Some {| width := Num 576; height := Num 864 |}.
Proof.
  rewrite (proj1 C9_quarter_scale number exact_number) by reflexivity.
  vm_compute. reflexivity.
Defined.

(** ** Reading the bytes *)

Section Bits.
Local Open Scope Z_scope.

Lemma byteZ_range b : 0 <= byteZ b < 256.
Proof.
  unfold byteZ. pose proof (Byte.to_N_bounded b). lia.
Qed.

Lemma at_range bytes o : 0 <= at_ bytes o < 256.
Proof. unfold at_. destruct (bytes !! o); [apply byteZ_range|lia]. Qed.

Lemma ToInt32_small z : - 2 ^ 31 <= z < 2 ^ 31 -> ToInt32 z = z.
Proof.
  intros H. unfold ToInt32. cbv zeta.
  destruct (Z.ltb_spec (z mod 2 ^ 32) (2 ^ 31)) as [Hlt|Hge].
  - destruct (Z_lt_le_dec z 0) as [Hn|Hp].
    + exfalso. assert (z mod 2 ^ 32 = z + 2 ^ 32); [|lia].
      symmetry. apply Z.mod_unique with (-1); lia.
    + apply Z.mod_small. lia.
  - destruct (Z_lt_le_dec z 0) as [Hn|Hp].
    + assert (z mod 2 ^ 32 = z + 2 ^ 32); [|lia].
      symmetry. apply Z.mod_unique with (-1); lia.
    + rewrite Z.mod_small in Hge; lia.
Qed.

Lemma ToInt32_mod z : ToInt32 z mod 2 ^ 32 = z mod 2 ^ 32.
Proof.
  unfold ToInt32. cbv zeta. destruct (Z.ltb_spec (z mod 2 ^ 32) (2 ^ 31)).
  - apply Z.mod_mod. lia.
  - rewrite Zminus_mod, Z.mod_same, Z.sub_0_r, !Z.mod_mod by lia. reflexivity.
Qed.

Lemma lor_mod a b : Z.lor a b mod 2 ^ 32 = Z.lor (a mod 2 ^ 32) (b mod 2 ^ 32).
Proof.
  rewrite <- !Z.land_ones by lia. apply Z.land_lor_distr_l.
Qed.

Lemma lor_shifted a b n :
  0 <= n -> 0 <= a < 2 ^ n -> 0 <= b -> Z.lor a (b * 2 ^ n) = a + b * 2 ^ n.
Proof.
  intros Hn Ha Hb.
  assert (Hland : Z.land a (b * 2 ^ n) = 0).
  { apply Z.bits_inj'. intros i Hi. rewrite Z.land_spec, Z.bits_0.
    destruct (Z_lt_le_dec i n) as [Hlt|Hge].
    - rewrite Z.mul_pow2_bits_low by lia. apply andb_false_r.
    - destruct (Z.eq_dec a 0) as [->|Hne]; [rewrite Z.bits_0; reflexivity|].
      rewrite (Z.bits_above_log2 a i); [reflexivity|lia|].
      apply Z.log2_lt_pow2; [lia|]. apply Z.lt_le_trans with (2 ^ n); [lia|].
      apply Z.pow_le_mono_r; lia. }
  rewrite <- Z.lxor_lor by exact Hland. symmetry. apply Z.add_nocarry_lxor, Hland.
Qed.

(** [readU32LE] is the little-endian value of the four bytes. *)
Lemma readU32LE_le32 bytes o : readU32LE bytes o = le32 bytes o.
Proof.
  unfold readU32LE, le32.
  pose proof (at_range bytes o) as H0. pose proof (at_range bytes (o + 1)) as H1.
  pose proof (at_range bytes (o + 2)) as H2. pose proof (at_range bytes (o + 3)) as H3.
  set (b0 := at_ bytes o) in *. set (b1 := at_ bytes (o + 1)) in *.
  set (b2 := at_ bytes (o + 2)) in *. set (b3 := at_ bytes (o + 3)) in *.
  clearbody b0 b1 b2 b3.
  assert (S1 : shl b1 8 = b1 * 2 ^ 8).
  { unfold shl. change (8 mod 32) with 8. rewrite (ToInt32_small b1) by lia.
    rewrite Z.shiftl_mul_pow2 by lia. apply ToInt32_small. lia. }
  assert (S2 : shl b2 16 = b2 * 2 ^ 16).
  { unfold shl. change (16 mod 32) with 16. rewrite (ToInt32_small b2) by lia.
    rewrite Z.shiftl_mul_pow2 by lia. apply ToInt32_small. lia. }
  assert (O1 : bor b0 (shl b1 8) = b0 + b1 * 2 ^ 8).
  { unfold bor. rewrite S1, (ToInt32_small b0), (ToInt32_small (b1 * 2 ^ 8)) by lia.
    rewrite lor_shifted by lia. apply ToInt32_small. lia. }
  assert (O2 : bor (bor b0 (shl b1 8)) (shl b2 16) = b0 + b1 * 2 ^ 8 + b2 * 2 ^ 16).
  { unfold bor at 1. rewrite O1, S2, (ToInt32_small (b0 + b1 * 2 ^ 8)),
      (ToInt32_small (b2 * 2 ^ 16)) by lia.
    rewrite lor_shifted by lia. apply ToInt32_small. lia. }
  rewrite O2. unfold ushr, ToUint32, bor, shl. change (0 mod 32) with 0.
  change (24 mod 32) with 24. rewrite Z.shiftr_0_r.
  rewrite ToInt32_mod, lor_mod, !ToInt32_mod.
  rewrite (ToInt32_small b3) by lia. rewrite Z.shiftl_mul_pow2 by lia.
  rewrite !Z.mod_small by lia. rewrite lor_shifted by lia. lia.
Qed.

End Bits.

(** ** Sniffing the container *)

Lemma byteZ_inj b b' : byteZ b = byteZ b' -> b = b'.
Proof.
  unfold byteZ. intros H. apply N2Z.inj in H.
  pose proof (Byte.of_to_N b) as Hb. rewrite H, Byte.of_to_N in Hb. congruence.
Qed.

Lemma byteIs_true bytes i (b : byte) :
  byteIs bytes i (byteZ b) = true <-> bytes !! i = Some b.
Proof.
  unfold byteIs. destruct (bytes !! i) as [c|]; split; try discriminate.
  - intros H. apply Z.eqb_eq, byteZ_inj in H. congruence.
  - intros [= ->]. apply Z.eqb_refl.
Qed.

Lemma hasSignature_prefix sig bytes :
  hasSignature sig 0 bytes -> exists tl, bytes = sig ++ tl.
Proof.
  unfold hasSignature. rewrite drop_0. intros H. exists (drop (length sig) bytes).
  rewrite <- H at 1. symmetry. apply take_drop.
Qed.

(** The marker loop ends within its budget. *)
Lemma jpegScan_fuel bytes : forall fuel offset,
  1 <= fuel -> length bytes <= fuel + offset + 3 ->
  jpegScan fuel bytes offset <> OutOfFuel.
Proof.
  induction fuel as [|fuel IH]; intros offset Hf Hlen; [lia|]. cbn [jpegScan].
  destruct (Nat.ltb_spec (offset + 4) (length bytes)) as [Hin|Hout]; cbn [negb];
    [|discriminate].
  destruct (byteIs bytes offset 255); cbn [negb]; [|apply IH; lia].
  pose proof (eq_refl : skipFill bytes offset = offset + fillBytes (drop offset bytes)) as Hs.
  set (offset1 := skipFill bytes offset) in *.
  destruct (markerIs _ 217 || markerIs _ 218); [discriminate|].
  destruct (length bytes <=? offset1 + 1 + 1); [discriminate|].
  destruct (readU16BE bytes (offset1 + 1) <? 2)%Z; [discriminate|].
  destruct (isSOF _ && _); [discriminate|]. apply IH; lia.
Qed.

Section Unrecognized.
Context {T : Type} `{JSNumber T}.

Lemma sniff_fallback bytes contentType :
  sniffDimensions bytes = None ->
  getImageDimensions None bytes contentType
  = Return {| width := num_of_Z 96; height := num_of_Z 96 |}.
Proof. intros Hs. unfold getImageDimensions. rewrite Hs. reflexivity. Qed.

End Unrecognized.

Lemma png_cond (len : bool) bytes :
  len && byteIs bytes 0 137 && byteIs bytes 1 80 && byteIs bytes 2 78 && byteIs bytes 3 71
  = true ->
  isPNG bytes.
Proof.
  rewrite !andb_true_iff. intros [[[[_ H0] H1] H2] H3].
  apply (byteIs_true _ _ x89) in H0. apply (byteIs_true _ _ x50) in H1.
  apply (byteIs_true _ _ x4e) in H2. apply (byteIs_true _ _ x47) in H3.
  destruct bytes as [|b0 [|b1 [|b2 [|b3 tl]]]]; try discriminate.
  cbn in *. unfold isPNG, hasSignature. cbn. rewrite ?take_0. congruence.
Qed.

Lemma gif_cond (len : bool) bytes :
  len && byteIs bytes 0 71 && byteIs bytes 1 73 && byteIs bytes 2 70 = true -> isGIF bytes.
Proof.
  rewrite !andb_true_iff. intros [[[_ H0] H1] H2].
  apply (byteIs_true _ _ x47) in H0. apply (byteIs_true _ _ x49) in H1.
  apply (byteIs_true _ _ x46) in H2.
  destruct bytes as [|b0 [|b1 [|b2 tl]]]; try discriminate.
  cbn in *. unfold isGIF, hasSignature. cbn. rewrite ?take_0. congruence.
Qed.

Lemma bmp_cond (len : bool) bytes :
  len && byteIs bytes 0 66 && byteIs bytes 1 77 = true -> isBMP bytes.
Proof.
  rewrite !andb_true_iff. intros [[_ H0] H1].
  apply (byteIs_true _ _ x42) in H0. apply (byteIs_true _ _ x4d) in H1.
  destruct bytes as [|b0 [|b1 tl]]; try discriminate.
  cbn in *. unfold isBMP, hasSignature. cbn. rewrite ?take_0. congruence.
Qed.

Lemma jpeg_cond (len : bool) bytes :
  len && byteIs bytes 0 255 && byteIs bytes 1 216 = true -> isJPEG bytes.
Proof.
  rewrite !andb_true_iff. intros [[_ H0] H1].
  apply (byteIs_true _ _ xff) in H0. apply (byteIs_true _ _ xd8) in H1.
  destruct bytes as [|b0 [|b1 tl]]; try discriminate.
  cbn in *. unfold isJPEG, hasSignature. cbn. rewrite ?take_0. congruence.
Qed.

Lemma webp_cond (len : bool) bytes :
  len && byteIs bytes 0 82 && byteIs bytes 1 73 && byteIs bytes 2 70 && byteIs bytes 3 70
  && byteIs bytes 8 87 && byteIs bytes 9 69 && byteIs bytes 10 66 && byteIs bytes 11 80 = true ->
  isWEBP bytes.
Proof.
  rewrite !andb_true_iff. intros [[[[[[[[_ H0] H1] H2] H3] H8] H9] H10] H11].
  apply (byteIs_true _ _ x52) in H0. apply (byteIs_true _ _ x49) in H1.
  apply (byteIs_true _ _ x46) in H2. apply (byteIs_true _ _ x46) in H3.
  apply (byteIs_true _ _ x57) in H8. apply (byteIs_true _ _ x45) in H9.
  apply (byteIs_true _ _ x42) in H10. apply (byteIs_true _ _ x50) in H11.
  destruct bytes as [|b0 [|b1 [|b2 [|b3 [|b4 [|b5 [|b6 [|b7 [|b8 [|b9 [|b10 [|b11 tl]]]]]]]]]]]];
    try discriminate.
  cbn in *. unfold isWEBP, hasSignature. cbn. rewrite ?take_0. split; congruence.
Qed.

Lemma first_byte_excludes bytes (b : byte) (v : Z) :
  bytes !! 0 = Some b -> (byteZ b =? v)%Z = false -> byteIs bytes 0 v = false.
Proof. intros Hb Hv. unfold byteIs. rewrite Hb. exact Hv. Qed.

Lemma signature_first_byte b sig bytes :
  hasSignature (b :: sig) 0 bytes -> bytes !! 0 = Some b.
Proof. intros [tl ->]%hasSignature_prefix. reflexivity. Qed.

Lemma sniff_unrecognized bytes : Unrecognized bytes -> sniffDimensions bytes = None.
Proof.
  intros (Hpng & Hgif & Hbmp & Hjpeg & Hwebp). unfold sniffDimensions.
  destruct (_ && byteIs bytes 3 71) eqn:E1; [exfalso; apply png_cond in E1; exact (Hpng E1)|].
  destruct (_ && byteIs bytes 2 70) eqn:E2; [exfalso; apply gif_cond in E2; exact (Hgif E2)|].
  destruct (_ && byteIs bytes 1 77) eqn:E3; [exfalso; apply bmp_cond in E3; exact (Hbmp E3)|].
  destruct (_ && byteIs bytes 1 216) eqn:E4; [exfalso; apply jpeg_cond in E4; exact (Hjpeg E4)|].
  destruct (_ && byteIs bytes 11 80) eqn:E5; [exfalso; apply webp_cond in E5; exact (Hwebp E5)|].
  reflexivity.
Qed.

Ltac exclude_first_byte Hb :=
  repeat match goal with
         | |- context [byteIs ?bytes 0 ?v] =>
             rewrite (first_byte_excludes bytes _ v Hb) by reflexivity
         end;
  rewrite ?andb_false_r; cbn [andb].

Lemma sniff_malformed bytes : Malformed bytes -> sniffDimensions bytes = None.
Proof.
  intros [[Hsig Hlen] | [[Hsig Hlen] | [[Hsig Hlen] | [[Hsig Hscan] | [Hsig Hchunk]]]]];
    unfold sniffDimensions.
  - pose proof (signature_first_byte _ _ _ Hsig) as Hb.
    apply Nat.leb_gt in Hlen. rewrite Hlen. cbn [andb]. exclude_first_byte Hb. reflexivity.
  - pose proof (signature_first_byte _ _ _ Hsig) as Hb.
    apply Nat.leb_gt in Hlen. rewrite Hlen. cbn [andb]. exclude_first_byte Hb. reflexivity.
  - pose proof (signature_first_byte _ _ _ Hsig) as Hb.
    apply Nat.leb_gt in Hlen. rewrite Hlen. cbn [andb]. exclude_first_byte Hb. reflexivity.
  - pose proof (signature_first_byte _ _ _ Hsig) as Hb.
    rewrite (first_byte_excludes bytes _ 137 Hb), (first_byte_excludes bytes _ 71 Hb),
      (first_byte_excludes bytes _ 66 Hb), (first_byte_excludes bytes _ 82 Hb) by reflexivity.
    rewrite ?andb_false_r. cbn [andb].
    destruct ((4 <=? length bytes) && byteIs bytes 0 255 && byteIs bytes 1 216) eqn:E;
      [|reflexivity].
    destruct Hscan as [Hlen | ->]; [|reflexivity].
    apply Nat.leb_gt in Hlen. rewrite Hlen in E. discriminate.
  - destruct Hsig as [Hsig _]. pose proof (signature_first_byte _ _ _ Hsig) as Hb.
    rewrite (first_byte_excludes bytes _ 137 Hb), (first_byte_excludes bytes _ 71 Hb),
      (first_byte_excludes bytes _ 66 Hb), (first_byte_excludes bytes _ 255 Hb) by reflexivity.
    rewrite ?andb_false_r. cbn [andb].
    destruct Hchunk as [Hlen | [Hx Hl]].
    + apply Nat.leb_gt in Hlen. rewrite Hlen. reflexivity.
    + destruct (_ && byteIs bytes 11 80); [|reflexivity].
      destruct (str_eqb (chunkType bytes) (js "VP8X")) eqn:Ex;
        [apply str_eqb_eq in Ex; contradiction|]. cbn [andb].
      destruct Hl as [Hl | Hl].
      * destruct (str_eqb (chunkType bytes) (js "VP8L")) eqn:El;
          [apply str_eqb_eq in El; contradiction|]. reflexivity.
      * destruct (byteIs bytes 20 47) eqn:E20;
          [apply (byteIs_true _ _ x2f) in E20; contradiction|].
        rewrite andb_false_r. reflexivity.
Qed.

(** C3: a buffer with none of the five signatures, or with one but no
    readable header, gets the fallback 96 by 96; the byte parser always
    returns (and its marker scan stays within its budget). *)
Theorem C3_fallback_dimensions :
  (forall (T : Type) (N : JSNumber T) (bytes : Uint8Array) (contentType : jsstring),
      Unrecognized bytes \/ Malformed bytes ->
      getImageDimensions None bytes contentType
      = Return {| width := num_of_Z 96; height := num_of_Z 96 |})
  /\ (forall (T : Type) (N : JSNumber T) (bytes : Uint8Array) (contentType : jsstring),
         ~ throws (getImageDimensions None bytes contentType))
  /\ (forall bytes : Uint8Array,
         4 <= length bytes -> jpegScan (length bytes) bytes 2 <> OutOfFuel).
Proof.
  split; [|split].
  - intros T N bytes contentType [Hu | Hm]; apply sniff_fallback;
      [apply sniff_unrecognized, Hu|apply sniff_malformed, Hm].
  - intros T N bytes contentType [e He]. unfold getImageDimensions in He.
    destruct (sniffDimensions bytes) as [[w h]|]; discriminate.
  - intros bytes Hlen. apply jpegScan_fuel; lia.
Qed.

Lemma C3_fallback_dimensions_witness :
  getImageDimensions (T := number) None [x00; x01; x02] (js "image/png")
  = Return {| width := Num 96; height := Num 96 |}
  /\ getImageDimensions (T := number) None [xff; xd8; xff; xd9; x00; x00; x00] (js "image/jpeg")
     = Return {| width := Num 96; height := Num 96 |}.
Proof.
  split.
  - apply (proj1 C3_fallback_dimensions number exact_number). left.
    unfold Unrecognized, isPNG, isGIF, isBMP, isJPEG, isWEBP, hasSignature.
    repeat split; try discriminate. intros [H _]. discriminate.
  - apply (proj1 C3_fallback_dimensions number exact_number). right.
    right. right. right. left. split; [reflexivity|]. right. reflexivity.
Defined.

(** C8: a BMP is read with the 32-bit little-endian width at offset 18 and
    with the magnitude of the two's-complement height at offset 22. *)
Theorem C8_bmp_height
    (T : Type) (N : JSNumber T) (bytes : Uint8Array) (contentType : jsstring) :
  isBMP bytes -> 26 <= length bytes ->
  getImageDimensions None bytes contentType
  = Return {| width := num_of_Z (le32 bytes 18);
              height := num_of_Z (Z.abs (signed32 (le32 bytes 22))) |}
  /\ ((signed32 (le32 bytes 22) < 0)%Z ->
      Z.abs (signed32 (le32 bytes 22)) = (- signed32 (le32 bytes 22))%Z
      /\ (0 < Z.abs (signed32 (le32 bytes 22)))%Z).
Proof.
  intros Hsig Hlen. split; [|lia].
  pose proof (signature_first_byte _ _ _ Hsig) as Hb.
  assert (H1 : bytes !! 1 = Some x4d).
  { apply hasSignature_prefix in Hsig as [tl ->]. reflexivity. }
  unfold getImageDimensions, sniffDimensions.
  rewrite (first_byte_excludes bytes _ 137 Hb), (first_byte_excludes bytes _ 71 Hb)
    by reflexivity.
  rewrite ?andb_false_r. cbn [andb].
  apply Nat.leb_le in Hlen. rewrite Hlen.
  assert (B0 : byteIs bytes 0 66 = true) by apply (byteIs_true bytes 0 x42), Hb.
  assert (B1 : byteIs bytes 1 77 = true) by apply (byteIs_true bytes 1 x4d), H1.
  rewrite B0, B1.
  cbn [andb]. rewrite !readU32LE_le32. do 3 f_equal.
  unfold signed32. pose proof (at_range bytes 22). pose proof (at_range bytes (22 + 1)).
  pose proof (at_range bytes (22 + 2)). pose proof (at_range bytes (22 + 3)).
  destruct (Z.ltb_spec 2147483647 (le32 bytes 22)), (Z.ltb_spec (le32 bytes 22) (2 ^ 31)); lia.
Qed.

Lemma C8_bmp_height_witness :
  getImageDimensions (T := number) None
    ([x42; x4d] ++ repeat x00 16 ++ [x40; x01; x00; x00] ++ [x10; xff; xff; xff])
    (js "image/bmp")
  = Return {| width := Num 320; height := Num 240 |}.
Proof.
  apply (C8_bmp_height number exact_number
           ([x42; x4d] ++ repeat x00 16 ++ [x40; x01; x00; x00] ++ [x10; xff; xff; xff])
           (js "image/bmp")).
  - reflexivity.
  - vm_compute. lia.
Defined.

(** ** Runs and lines *)

Lemma splitLines_join s : forall cur, joinLines (splitLines cur s) = rev cur ++ s.
Proof.
  induction s as [|c s IH]; intros cur; cbn [splitLines].
  - cbn. rewrite app_nil_r. reflexivity.
  - destruct (N.eqb_spec c 10) as [->|Hc].
    + specialize (IH []). cbn [rev app] in IH.
      destruct (splitLines [] s) as [|l ls] eqn:E.
      * destruct s; discriminate.
      * change (joinLines (rev cur :: l :: ls)) with (rev cur ++ [newline] ++ joinLines (l :: ls)).
        rewrite IH. reflexivity.
    + rewrite IH. cbn [rev]. rewrite <- app_assoc. reflexivity.
Qed.

Lemma not_elem_of_rev {A} (x : A) l : x ∉ l -> x ∉ rev l.
Proof.
  intros H Hin. apply H. apply list_elem_of_In, in_rev, list_elem_of_In, Hin.
Qed.

Lemma splitLines_no_newline s : forall cur,
  newline ∉ cur -> Forall (fun l => newline ∉ l) (splitLines cur s).
Proof.
  induction s as [|c s IH]; intros cur Hcur; cbn [splitLines].
  - constructor; [|constructor]. apply not_elem_of_rev, Hcur.
  - destruct (N.eqb_spec c 10) as [->|Hc].
    + constructor; [apply not_elem_of_rev, Hcur|]. apply IH. apply not_elem_of_nil.
    + apply IH. apply not_elem_of_cons. split; [|exact Hcur]. intros E. apply Hc. symmetry. exact E.
Qed.

Lemma bind_Return_inv {A B} (c : Exc A) (f : A -> Exc B) (r : B) :
  (c ≫= f) = Return r -> exists a, c = Return a /\ f a = Return r.
Proof.
  unfold mbind, Exc_bind. destruct c as [a|e]; cbn [Exc.bind]; [|discriminate].
  intros H. exists a. split; [reflexivity|exact H].
Qed.

Section Runs.
Variable themeStyles : option DOCXThemeStyles.

Lemma NoNewline_lineBreak : NoNewline lineBreak.
Proof. apply not_elem_of_nil. Qed.

Lemma appendSegments_no_newline segments : forall runs color,
  Forall NoNewline runs -> Forall (fun l => newline ∉ l) segments ->
  Forall NoNewline (appendSegments themeStyles segments runs color).
Proof.
  induction segments as [|segment rest IH]; intros runs color Hruns Hsegs;
    cbn [appendSegments]; [exact Hruns|].
  apply Forall_cons in Hsegs as [Hseg Hrest]. apply IH; [|exact Hrest].
  assert (H1 : Forall NoNewline
            (if 0 <? length segment then runs ++ [styledRun themeStyles segment color]
             else runs)).
  { destruct (0 <? length segment); [|exact Hruns].
    apply Forall_app. split; [exact Hruns|]. constructor; [exact Hseg|constructor]. }
  destruct rest; [exact H1|]. apply Forall_app. split; [exact H1|].
  constructor; [apply NoNewline_lineBreak|constructor].
Qed.

Lemma appendSegments_text segments : forall runs color,
  flat_map runText (appendSegments themeStyles segments runs color)
  = flat_map runText runs ++ joinLines segments.
Proof.
  induction segments as [|segment rest IH]; intros runs color; cbn [appendSegments].
  - cbn. rewrite app_nil_r. reflexivity.
  - rewrite IH.
    assert (H1 : flat_map runText
              (if 0 <? length segment then runs ++ [styledRun themeStyles segment color]
               else runs)
            = flat_map runText runs ++ segment).
    { destruct segment as [|c segment]; cbn [length Nat.ltb Nat.leb].
      - rewrite app_nil_r. reflexivity.
      - rewrite flat_map_app. cbn. rewrite app_nil_r. reflexivity. }
    destruct rest as [|l rest].
    + rewrite H1. cbn. rewrite app_nil_r. reflexivity.
    + rewrite flat_map_app, H1. cbn [flat_map runText isBreak lineBreak run_break].
      change (joinLines (segment :: l :: rest))
        with (segment ++ [newline] ++ joinLines (l :: rest)).
      rewrite app_nil_r, <- !app_assoc. reflexivity.
Qed.

Lemma appendSegments_no_empty segments : forall runs color,
  Forall (fun r => isBreak r = false -> run_text r <> []) runs ->
  Forall (fun r => isBreak r = false -> run_text r <> [])
    (appendSegments themeStyles segments runs color).
Proof.
  induction segments as [|segment rest IH]; intros runs color Hruns;
    cbn [appendSegments]; [exact Hruns|].
  apply IH.
  assert (H1 : Forall (fun r => isBreak r = false -> run_text r <> [])
            (if 0 <? length segment then runs ++ [styledRun themeStyles segment color]
             else runs)).
  { destruct segment as [|c segment]; cbn [length Nat.ltb Nat.leb]; [exact Hruns|].
    apply Forall_app. split; [exact Hruns|]. constructor; [|constructor].
    intros _. discriminate. }
  destruct rest; [exact H1|]. apply Forall_app. split; [exact H1|].
  constructor; [|constructor]. intros H. discriminate.
Qed.

Lemma separated_snoc l r :
  separated l -> endsWithBreak l \/ isBreak r = true -> separated (l ++ [r]).
Proof.
  induction l as [|r1 l IH]; intros Hs He; [exact I|].
  destruct l as [|r2 l].
  - cbn. split; [|exact I]. destruct He as [He | He]; [left; exact He|right; exact He].
  - destruct Hs as [H12 Hs]. cbn [app]. split; [exact H12|]. apply IH; [exact Hs|].
    destruct He as [He | He]; [left|right; exact He].
    unfold endsWithBreak in *. rewrite last_cons_cons in He. exact He.
Qed.

Lemma endsWithBreak_snoc l : endsWithBreak (l ++ [lineBreak]).
Proof. unfold endsWithBreak. rewrite last_snoc. reflexivity. Qed.

Lemma appendSegments_separated segments : forall runs color,
  separated runs -> endsWithBreak runs ->
  separated (appendSegments themeStyles segments runs color).
Proof.
  induction segments as [|segment rest IH]; intros runs color Hs He;
    cbn [appendSegments]; [exact Hs|].
  assert (H1 : separated
            (if 0 <? length segment then runs ++ [styledRun themeStyles segment color]
             else runs)).
  { destruct (0 <? length segment); [|exact Hs]. apply separated_snoc; [exact Hs|].
    left. exact He. }
  destruct rest as [|l rest]; [exact H1|].
  apply IH; [|apply endsWithBreak_snoc].
  apply separated_snoc; [exact H1|]. right. reflexivity.
Qed.

Lemma appendCodeTextRuns_no_newline text runs color :
  Forall NoNewline runs -> Forall NoNewline (appendCodeTextRuns themeStyles text runs color).
Proof.
  intros Hruns. unfold appendCodeTextRuns. destruct text as [|c text]; [exact Hruns|].
  apply appendSegments_no_newline; [exact Hruns|].
  apply splitLines_no_newline, not_elem_of_nil.
Qed.

Lemma appendCodeTextRuns_text text runs color :
  flat_map runText (appendCodeTextRuns themeStyles text runs color)
  = flat_map runText runs ++ text.
Proof.
  unfold appendCodeTextRuns. destruct text as [|c text]; [rewrite app_nil_r; reflexivity|].
  rewrite appendSegments_text, splitLines_join. reflexivity.
Qed.

Lemma appendSegments_app segments : forall runs color,
  appendSegments themeStyles segments runs color
  = runs ++ appendSegments themeStyles segments [] color.
Proof.
  induction segments as [|segment rest IH]; intros runs color; cbn [appendSegments].
  - rewrite app_nil_r. reflexivity.
  - rewrite IH. rewrite (IH (match rest with [] => _ | _ :: _ => _ end)).
    rewrite app_assoc. f_equal.
    destruct (0 <? length segment), rest; cbn [app]; rewrite ?app_nil_r, <- ?app_assoc;
      reflexivity.
Qed.

Lemma appendCodeTextRuns_app text runs color :
  appendCodeTextRuns themeStyles text runs color
  = runs ++ appendCodeTextRuns themeStyles text [] color.
Proof.
  unfold appendCodeTextRuns. destruct text; [rewrite app_nil_r; reflexivity|].
  apply appendSegments_app.
Qed.

Lemma splitsOf_snoc pieces text color :
  appendCodeTextRuns themeStyles text (splitsOf themeStyles pieces) color
  = splitsOf themeStyles (pieces ++ [(text, color)]).
Proof.
  unfold splitsOf. rewrite appendCodeTextRuns_app, flat_map_app. cbn [flat_map fst snd].
  rewrite app_nil_r. reflexivity.
Qed.

(** What every run list built by [appendCodeTextRuns] alone satisfies. *)
Variable Inv : list TextRun -> Prop.
Hypothesis append_keeps :
  forall text runs color, Inv runs -> Inv (appendCodeTextRuns themeStyles text runs color).

Lemma collectHighlightedRuns_keeps node : forall runs inherited result,
  collectHighlightedRuns themeStyles node runs inherited = Return result ->
  Inv runs -> Inv result.
Proof.
  induction node as [tag attrs kids IH|d|d] using Node_induction;
    intros runs inherited result; cbn [collectHighlightedRuns].
  - destruct (getHighlightColor themeStyles _) as [color|e]; [|discriminate].
    set (nextColor := orElse _ _). clearbody nextColor. revert runs.
    induction kids as [|k kids IHk]; intros runs.
    + intros [= <-] H. exact H.
    + apply Forall_cons in IH as [IHhd IHtl].
      destruct (collectHighlightedRuns themeStyles k runs nextColor) as [runs'|e] eqn:Ek;
        [|discriminate].
      intros Hrest H. apply (IHk IHtl runs' Hrest). apply (IHhd _ _ _ Ek H).
  - intros [= <-] H. exact H.
  - intros [= <-] H. apply append_keeps, H.
Qed.

End Runs.

Section Tokenizer.
Variable getColor : option (list jsstring) -> Exc (option jsstring).
Variable appendRuns : jsstring -> list TextRun -> option jsstring -> list TextRun.
Variable defaultColor : jsstring.
Variable Inv : list TextRun -> Prop.
Hypothesis appendRuns_keeps :
  forall text runs color, Inv runs -> Inv (appendRuns text runs color).

Lemma flush_keeps sc sc' :
  flush getColor appendRuns defaultColor sc = Return sc' ->
  Inv (runs sc) -> Inv (runs sc').
Proof.
  unfold flush. destruct (buffer sc); [intros [= <-] H; exact H|].
  intros (color & _ & [= <-])%bind_Return_inv H. cbn [runs]. apply appendRuns_keeps, H.
Qed.

Lemma applyTag_keeps rawTag sc sc' :
  applyTag getColor appendRuns defaultColor rawTag sc = Return sc' ->
  Inv (runs sc) -> Inv (runs sc').
Proof.
  unfold applyTag. cbv zeta. intros (sc1 & H1 & [= <-])%bind_Return_inv H.
  assert (H' : Inv (runs sc1)).
  { destruct (_ || _); [apply (flush_keeps _ _ H1 H)|congruence]. }
  destruct (startsWith _ (js "span")); [exact H'|].
  destruct (str_eqb _ _); [exact H'|].
  destruct (startsWith _ (js "br")); exact H'.
Qed.

Lemma scan_keeps html : forall skip sc sc',
  scan getColor appendRuns defaultColor skip html sc = Return sc' ->
  Inv (runs sc) -> Inv (runs sc').
Proof.
  induction html as [|c html IH]; intros skip sc sc'; cbn [scan];
    [intros [= <-] H; exact H|].
  destruct skip as [|n]; [|apply IH].
  destruct (negb (c =? ch "<")%N); [intros Hs H; apply (IH _ _ _ Hs); exact H|].
  destruct (indexOf (ch ">") html) as [n|]; [|intros [= <-] H; exact H].
  destruct (applyTag _ _ _ _ sc) as [sc1|e] eqn:E; [|discriminate].
  intros Hs H. apply (IH _ _ _ Hs). apply (applyTag_keeps _ _ _ E H).
Qed.

Lemma appendHighlightedRunsFromHtml_keeps html runs0 result :
  appendHighlightedRunsFromHtml getColor appendRuns defaultColor html runs0 = Return result ->
  Inv runs0 -> Inv result.
Proof.
  unfold appendHighlightedRunsFromHtml.
  intros (sc & Hscan & (sc' & Hflush & [= <-])%bind_Return_inv)%bind_Return_inv H.
  apply (flush_keeps _ _ Hflush). apply (scan_keeps _ _ _ _ Hscan). exact H.
Qed.

End Tokenizer.

(** ** When the color lookup returns *)

Lemma existsb_str_eqb (x : jsstring) l : existsb (str_eqb x) l = true <-> x ∈ l.
Proof.
  rewrite existsb_exists. split.
  - intros (y & Hy & E). apply str_eqb_eq in E. subst. apply list_elem_of_In, Hy.
  - intros H. exists x. split; [apply list_elem_of_In, H|apply str_eqb_refl].
Qed.

Lemma exec_here_Lit (a : char) pv c tl :
  exec_here (Pattern (Lit a) false) pv (c :: tl)
  = if (c =? a)%N then Some (MState (Some c) tl []) else None.
Proof.
  unfold exec_here. cbn [run pat_regex pat_icase Lit rest caps].
  unfold cls_mem, canon. cbn [existsb item_mem xorb andb]. rewrite orb_false_r.
  unfold canon. cbn [andb]. rewrite N.eqb_sym. destruct (c =? a)%N; reflexivity.
Qed.

Lemma replace_char (a b : char) s : forall pv,
  replace_go (Pattern (Lit a) false) (fun _ => [b]) 0 pv s
  = map (fun c => if (c =? a)%N then b else c) s.
Proof.
  induction s as [|c s IH]; intros pv; [reflexivity|].
  cbn [replace_go map]. rewrite exec_here_Lit. destruct (c =? a)%N.
  - unfold result_of. cbn [rest matched].
    replace (length (c :: s) - length s) with 1 by (cbn [length]; lia).
    cbn [take firstn length app]. f_equal. apply IH.
  - f_equal. apply IH.
Qed.

Lemma replace_hyphen token :
  replaceAllWith re_hyphen (js "_") token = normalizeHyphens token.
Proof. apply (replace_char (ch "-") (ch "_")). Qed.

Section Returns.
Variable themeStyles : option DOCXThemeStyles.

Lemma themeColorOf_own normalized :
  normalized ∉ objectPrototypeNames ->
  themeColorOf themeStyles normalized
  = OwnString <$> (colors (codeColorsOf themeStyles) ≫= (.!! normalized)).
Proof.
  intros Hn. unfold themeColorOf. destruct (colors (codeColorsOf themeStyles)) as [table|];
    [|reflexivity].
  cbn [mbind option_bind]. destruct (table !! normalized); [reflexivity|].
  destruct (existsb (str_eqb normalized) objectPrototypeNames) eqn:E; [|reflexivity].
  apply existsb_str_eqb in E. contradiction.
Qed.

Lemma firstThemeColor_returns tokens :
  OwnNames tokens -> exists color, firstThemeColor themeStyles tokens = Return color.
Proof.
  induction 1 as [|rawToken tokens Hn _ IH]; [eexists; reflexivity|].
  cbn [firstThemeColor]. destruct (negb (truthy rawToken)) eqn:Er; [exact IH|].
  change (if startsWith rawToken (js "hljs-") then drop 5 rawToken else rawToken)
    with (stripPrefix rawToken).
  destruct (negb (truthy (stripPrefix rawToken))); [exact IH|].
  rewrite replace_hyphen, (themeColorOf_own _ Hn).
  destruct (colors (codeColorsOf themeStyles) ≫= _) as [themeColor|];
    cbn [fmap option_fmap option_map]; [|exact IH].
  destruct (truthy themeColor); [eexists; reflexivity|exact IH].
Qed.

Lemma currentColor_returns defaultColor stack :
  OwnNames (concat stack) ->
  exists color,
    currentColor (fun cls => getHighlightColor themeStyles (classListOf cls))
      defaultColor stack = Return color.
Proof.
  induction stack as [|top below IH]; intros Hs; [eexists; reflexivity|].
  cbn [concat] in Hs. apply Forall_app in Hs as [Htop Hbelow].
  cbn [currentColor classListOf getHighlightColor].
  destruct (firstThemeColor_returns top Htop) as [[c|] ->]; [|apply IH, Hbelow].
  destruct (truthy c); [eexists; reflexivity|apply IH, Hbelow].
Qed.

Lemma flush_returns defaultColor sc :
  OwnNames (concat (stack sc)) ->
  exists sc', flush (fun cls => getHighlightColor themeStyles (classListOf cls))
      (appendCodeTextRuns themeStyles) defaultColor sc = Return sc'
              /\ stack sc' = stack sc.
Proof.
  intros Hs. unfold flush. destruct (buffer sc); [eexists; split; reflexivity|].
  destruct (currentColor_returns defaultColor _ Hs) as [color Hc].
  rewrite Hc. eexists. split; reflexivity.
Qed.

Lemma applyTag_returns defaultColor rawTag sc :
  OwnNames (concat (stack sc)) ->
  (isSpanTag rawTag = true -> OwnNames (spanClasses rawTag)) ->
  exists sc', applyTag (fun cls => getHighlightColor themeStyles (classListOf cls))
      (appendCodeTextRuns themeStyles) defaultColor rawTag sc = Return sc'
              /\ OwnNames (concat (stack sc')).
Proof.
  intros Hs Hspan. unfold applyTag. cbv zeta.
  assert (H1 : exists sc1,
             (if startsWith (toLowerCase rawTag) (js "span")
                 || str_eqb (toLowerCase rawTag) (js "/span")
                 || startsWith (toLowerCase rawTag) (js "br")
              then flush (fun cls => getHighlightColor themeStyles (classListOf cls))
      (appendCodeTextRuns themeStyles) defaultColor sc else Return sc) = Return sc1
             /\ stack sc1 = stack sc).
  { destruct (_ || _); [apply flush_returns, Hs|eexists; split; reflexivity]. }
  destruct H1 as (sc1 & -> & Hst). cbn [mbind Exc_bind Exc.bind]. eexists. split; [reflexivity|].
  fold (isSpanTag rawTag). destruct (isSpanTag rawTag) eqn:Esp.
  - cbn [stack concat]. apply Forall_app. split; [apply Hspan; reflexivity|].
    rewrite Hst. exact Hs.
  - destruct (str_eqb _ _).
    + cbn [stack]. rewrite Hst. destruct (stack sc) as [|top below]; [exact Hs|].
      cbn [tail]. cbn [concat] in Hs. apply Forall_app in Hs as [_ Hs]. exact Hs.
    + destruct (startsWith _ (js "br")); cbn [stack]; rewrite ?Hst; exact Hs.
Qed.

Lemma scan_returns defaultColor html : forall skip sc,
  OwnNames (concat (stack sc)) ->
  OwnNames (flat_map spanClasses (List.filter isSpanTag (rawTags skip html))) ->
  exists sc', scan (fun cls => getHighlightColor themeStyles (classListOf cls))
      (appendCodeTextRuns themeStyles) defaultColor skip html sc = Return sc'
              /\ OwnNames (concat (stack sc')).
Proof.
  induction html as [|c html IH]; intros skip sc Hs Hm; cbn [scan rawTags] in *;
    [eexists; split; [reflexivity|exact Hs]|].
  destruct skip as [|n]; [|apply IH; assumption].
  destruct (negb (c =? ch "<")%N); [apply IH; assumption|].
  destruct (indexOf (ch ">") html) as [n|]; [|eexists; split; [reflexivity|exact Hs]].
  cbn [List.filter] in Hm.
  destruct (applyTag_returns defaultColor (trim (take n html)) sc Hs) as (sc1 & -> & Hs1).
  { intros Esp. rewrite Esp in Hm. cbn [flat_map] in Hm.
    apply Forall_app in Hm as [Hm _]. exact Hm. }
  apply IH; [exact Hs1|].
  destruct (isSpanTag (trim (take n html))); [|exact Hm].
  cbn [flat_map] in Hm. apply Forall_app in Hm as [_ Hm]. exact Hm.
Qed.

Lemma appendHighlightedRunsFromHtml_returns defaultColor html runs0 :
  OwnNames (markupClasses html) ->
  exists result,
    appendHighlightedRunsFromHtml (fun cls => getHighlightColor themeStyles (classListOf cls))
      (appendCodeTextRuns themeStyles) defaultColor html runs0 = Return result.
Proof.
  intros Hm. unfold appendHighlightedRunsFromHtml.
  destruct (scan_returns defaultColor html 0 {| stack := []; buffer := []; runs := runs0 |})
    as (sc & -> & Hs); [constructor|exact Hm|].
  cbn [mbind Exc_bind Exc.bind].
  destruct (flush_returns defaultColor sc Hs) as (sc' & -> & _).
  eexists. reflexivity.
Qed.

End Returns.

(** C7: every run that [getHighlightedRunsForCode] returns is free of
    newlines, and for a non-empty code the runs are the splits of a sequence
    of text pieces, each made by [appendCodeTextRuns]; the call returns on the
    Node/CLI path whenever no class token of the markup names a member that
    objects inherit; without a language it returns the split of the code;
    and [appendCodeTextRuns] turns a text into its non-empty lines, in order,
    with one break marker for each newline and no two text runs side by
    side: reading the runs back gives the text. *)
Theorem C7_runs_hold_no_newline :
  (forall themeStyles env hljs code language result,
      getHighlightedRunsForCode themeStyles env hljs code language = Return result ->
      Forall NoNewline result
      /\ (truthy code = true -> exists pieces, result = splitsOf themeStyles pieces))
  /\ (forall themeStyles hljs code language,
         (forall l value, language = Some l -> highlight hljs code l = Return value ->
                          OwnNames (markupClasses value)) ->
         exists result,
           getHighlightedRunsForCode themeStyles None hljs code language = Return result)
  /\ (forall themeStyles env hljs code,
         truthy code = true ->
         getHighlightedRunsForCode themeStyles env hljs code None
         = Return (appendCodeTextRuns themeStyles code []
                     (Some (foreground (codeColorsOf themeStyles)))))
  /\ (forall themeStyles text color,
         let out := appendCodeTextRuns themeStyles text [] color in
         flat_map runText out = text
         /\ Forall NoNewline out
         /\ Forall (fun r => isBreak r = false -> run_text r <> []) out
         /\ separated out).
Proof.
  split; [|split; [|split]].
  - intros themeStyles env hljs code language result.
    set (Inv := fun runs : list TextRun =>
                  Forall NoNewline runs /\ exists pieces, runs = splitsOf themeStyles pieces).
    assert (Happ : forall text runs color,
               Inv runs -> Inv (appendCodeTextRuns themeStyles text runs color)).
    { intros text runs color [Hn [pieces ->]]. split.
      - apply appendCodeTextRuns_no_newline, Hn.
      - eexists. apply splitsOf_snoc. }
    assert (Hnil : Inv []) by (split; [constructor|exists []; reflexivity]).
    unfold getHighlightedRunsForCode.
    destruct (truthy code) eqn:Ecode; cbn [negb].
    2:{ intros [= <-]. split; [|discriminate]. constructor; [apply not_elem_of_nil|constructor]. }
    set (highlightResult := match language with Some _ => _ | None => _ end).
    clearbody highlightResult.
    intros Hres. apply bind_Return_inv in Hres as (inner & Hinner & [= <-]).
    assert (Hin : Inv inner).
    { destruct highlightResult as [value|]; [|injection Hinner as <-; exact Hnil].
      destruct (truthy value); [|injection Hinner as <-; exact Hnil].
      destruct env as [document|].
      - apply bind_Return_inv in Hinner as (container & _ & Hc).
        apply (collectHighlightedRuns_keeps themeStyles Inv Happ _ _ _ _ Hc Hnil).
      - apply (appendHighlightedRunsFromHtml_keeps _ _ _ Inv Happ _ _ _ Hinner Hnil). }
    assert (Hout : Inv (match inner with
                        | [] => appendCodeTextRuns themeStyles code inner
                                  (Some (foreground (codeColorsOf themeStyles)))
                        | _ :: _ => inner
                        end)).
    { destruct inner; [apply Happ, Hnil|exact Hin]. }
    destruct Hout as [Hn Hp]. split; [exact Hn|intros _; exact Hp].
  - intros themeStyles hljs code language Hsafe. unfold getHighlightedRunsForCode.
    destruct (negb (truthy code)); [eexists; reflexivity|].
    destruct language as [l|]; [|eexists; reflexivity].
    destruct (truthy l && getLanguage hljs l); [|eexists; reflexivity].
    destruct (highlight hljs code l) as [value|e] eqn:Eh; [|eexists; reflexivity].
    destruct (truthy value); [|eexists; reflexivity].
    destruct (appendHighlightedRunsFromHtml_returns themeStyles
                (foreground (codeColorsOf themeStyles)) value []
                (Hsafe l value eq_refl Eh)) as [result ->].
    eexists. reflexivity.
  - intros themeStyles env hljs code Hcode. unfold getHighlightedRunsForCode.
    rewrite Hcode. reflexivity.
  - intros themeStyles text color out. split; [|split; [|split]].
    + apply (appendCodeTextRuns_text themeStyles text [] color).
    + apply appendCodeTextRuns_no_newline. constructor.
    + unfold out, appendCodeTextRuns. destruct text; [constructor|].
      apply appendSegments_no_empty. constructor.
    + unfold out, appendCodeTextRuns. destruct text; [exact I|].
      apply appendSegments_separated; exact I.
Qed.

Lemma C7_runs_hold_no_newline_witness :
  Forall NoNewline
    [styledRun None (js "if") (js "24292E"); lineBreak; styledRun None (js "x") (js "24292E")].
Proof.
  assert (E : getHighlightedRunsForCode None None
                {| getLanguage := fun _ => true;
                   highlight := fun _ _ =>
                     Return (js "<span class='hljs-keyword'>if</span><br>x") |}
                (js "if" ++ [newline] ++ js "x") (Some (js "js"))
              = Return [styledRun None (js "if") (js "24292E"); lineBreak;
                        styledRun None (js "x") (js "24292E")])
    by (vm_compute; reflexivity).
  exact (proj1 (proj1 C7_runs_hold_no_newline None None _ _ _ _ E)).
Defined.

(** ** Color resolution *)

Section Resolution.
Variable fg : jsstring.
Variable table : gmap jsstring jsstring.
Variable style : option CodeStyle.
Hypothesis proper : ProperTable table.

Lemma resolveToken_empty token :
  stripPrefix token = [] -> resolveToken table token = None.
Proof.
  intros E. destruct proper as [H0 _]. unfold resolveToken. rewrite E.
  change (removeFirst (ch "#") <$> table !! [] = None). rewrite H0. reflexivity.
Qed.

Lemma firstThemeColor_resolved tokens :
  OwnNames tokens ->
  firstThemeColor (themeOf fg table style) tokens = Return (firstResolved table tokens).
Proof.
  induction 1 as [|rawToken tokens Hn _ IH]; [reflexivity|].
  cbn [firstThemeColor firstResolved].
  destruct rawToken as [|c rawToken]; cbn [truthy negb].
  { rewrite resolveToken_empty by reflexivity. exact IH. }
  change (if startsWith (c :: rawToken) (js "hljs-") then drop 5 (c :: rawToken)
          else c :: rawToken) with (stripPrefix (c :: rawToken)).
  unfold resolveToken.
  destruct (stripPrefix (c :: rawToken)) as [|d token] eqn:Et; cbn [truthy negb].
  { rewrite IH. pose proof (resolveToken_empty _ Et) as Hr. unfold resolveToken in Hr.
    rewrite Et in Hr. rewrite Hr. reflexivity. }
  rewrite replace_hyphen, (themeColorOf_own _ _ Hn).
  change (colors (codeColorsOf (themeOf fg table style)) ≫= (.!! normalizeHyphens (d :: token)))
    with (table !! normalizeHyphens (d :: token)).
  destruct (table !! normalizeHyphens (d :: token)) as [themeColor|] eqn:El;
    cbn [fmap option_fmap option_map]; [|exact IH].
  pose proof (proj2 proper _ _ El) as Hcolor.
  destruct themeColor as [|x themeColor]; [contradiction Hcolor; reflexivity|].
  reflexivity.
Qed.

Lemma firstResolved_app l1 l2 :
  firstResolved table (l1 ++ l2)
  = match firstResolved table l1 with
    | Some c => Some c
    | None => firstResolved table l2
    end.
Proof.
  induction l1 as [|t l1 IH]; [reflexivity|]. cbn [app firstResolved].
  destruct (resolveToken table t); [reflexivity|exact IH].
Qed.

Lemma firstResolved_truthy tokens c : firstResolved table tokens = Some c -> truthy c = true.
Proof.
  destruct proper as [_ Hcolor].
  induction tokens as [|t tokens IH]; [discriminate|]. cbn [firstResolved].
  unfold resolveToken. destruct (table !! _) as [themeColor|] eqn:El;
    cbn [fmap option_fmap option_map]; [|exact IH].
  intros E. specialize (Hcolor _ _ El).
  assert (Ec : c = removeFirst (ch "#") themeColor) by congruence.
  rewrite Ec. destruct (removeFirst (ch "#") themeColor); [contradiction|reflexivity].
Qed.

Lemma currentColor_resolved stack :
  OwnNames (concat stack) ->
  currentColor
    (fun cls => getHighlightColor (themeOf fg table style) (classListOf cls)) fg stack
  = Return (resolveColor table fg stack).
Proof.
  unfold resolveColor. induction stack as [|top below IH]; intros Hs; [reflexivity|].
  cbn [concat] in Hs. apply Forall_app in Hs as [Htop Hbelow].
  cbn [currentColor concat classListOf getHighlightColor].
  rewrite (firstThemeColor_resolved top Htop), firstResolved_app.
  destruct (firstResolved table top) as [c|] eqn:E; [|apply IH, Hbelow].
  rewrite (firstResolved_truthy _ _ E). reflexivity.
Qed.

End Resolution.




Example bare_hash_ends_the_scan :
  currentColor
    (fun cls => getHighlightColor
                  (themeOf (js "24292E")
                     (<[ js "keyword" := js "#" ]> {[ js "title" := js "FF0000" ]}) None)
                  (classListOf cls))
    (js "24292E") [[js "hljs-keyword"; js "hljs-title"]]
  = Return (js "24292E").
Proof. vm_compute. reflexivity. Qed.

(** A class token that names a member every object inherits makes the
    lookup throw, whatever the theme: the table has no entry of its own
    under the name, the read yields the inherited member, and [replace] is
    no method of it. *)
Example inherited_name_throws :
  getHighlightColor None (Tokens [js "hljs-constructor"]) = Throw (js "TypeError")
  /\ getHighlightedRunsForCode None None
       {| getLanguage := fun _ => true;
          highlight := fun _ _ => Return (js "<span class='hljs-constructor'>x</span>") |}
       (js "x") (Some (js "js"))
     = Throw (js "TypeError").
Proof. split; vm_compute; reflexivity. Qed.

(** ** How much a match consumes *)

Lemma canon_prefix_length icase s t tl :
  canon_prefix icase s t = Some tl -> length tl <= length t.
Proof.
  revert t. induction s as [|x s IH]; intros [|y t]; cbn [canon_prefix]; try congruence.
  - intros [= <-]. reflexivity.
  - intros [= <-]. reflexivity.
  - destruct (_ =? _)%N; [|discriminate]. intros H%IH. cbn [length]. lia.
Qed.

Section Consumes.
Variable icase : bool.

Lemma star_loop_consumes n body greedy :
  consumes n body -> forall fuel, consumes 0 (fun k => star_loop fuel body greedy k).
Proof.
  intros Hb fuel. induction fuel as [|f IH]; intros k st fin; cbn [star_loop]; [discriminate|].
  set (again := body _ st).
  assert (Hagain : again = Matched fin ->
                   exists st', k st' = Matched fin /\ length (rest st') + 0 <= length (rest st)).
  { intros Ha. apply Hb in Ha as (st1 & Hk & Hlen).
    destruct (length (rest st1) <? length (rest st)); [|discriminate].
    apply IH in Hk as (st' & Hk & Hlen'). exists st'. split; [exact Hk|lia]. }
  assert (Hk : k st = Matched fin ->
               exists st', k st' = Matched fin /\ length (rest st') + 0 <= length (rest st)).
  { intros Hk. exists st. split; [exact Hk|lia]. }
  destruct greedy.
  - destruct again eqn:E; intros Hr; [auto|auto|discriminate].
  - destruct (k st) eqn:E; intros Hr; [auto|auto|discriminate].
Qed.

Lemma run_consumes r : consumes (minLength r) (run icase r).
Proof.
  induction r as [|negated items|r1 IH1 r2 IH2|r1 IH1 r2 IH2|greedy r1 IH1|n r1 IH1|n| | |];
    intros k st fin; cbn [run minLength].
  - intros Hk. exists st. split; [exact Hk|lia].
  - destruct st as [p [|c tl] cs]; cbn [rest caps]; [discriminate|].
    destruct (cls_mem _ _ _ _); [|discriminate].
    intros Hk. eexists. split; [exact Hk|]. cbn [rest length]. lia.
  - intros H. apply IH1 in H as (st1 & H & L1). apply IH2 in H as (st2 & H & L2).
    exists st2. split; [exact H|lia].
  - destruct (run icase r1 k st) eqn:E.
    + intros H. apply IH2 in H as (st' & H & L). exists st'. split; [exact H|].
      pose proof (Nat.le_min_r (minLength r1) (minLength r2)). lia.
    + intros [= ->]. apply IH1 in E as (st' & H & L). exists st'. split; [exact H|].
      pose proof (Nat.le_min_l (minLength r1) (minLength r2)). lia.
    + discriminate.
  - apply (star_loop_consumes _ _ _ IH1).
  - intros H. apply IH1 in H as (st' & H & L). eexists. split; [exact H|]. cbn [rest]. exact L.
  - destruct (cap_lookup n (caps st)) as [s|].
    + destruct (canon_prefix icase s (rest st)) as [tl|] eqn:E; [|discriminate].
      intros Hk. eexists. split; [exact Hk|]. cbn [rest].
      apply canon_prefix_length in E. lia.
    + intros Hk. exists st. split; [exact Hk|lia].
  - destruct (xorb _ _); [|discriminate]. intros Hk. exists st. split; [exact Hk|lia].
  - destruct (prev st); [discriminate|]. intros Hk. exists st. split; [exact Hk|lia].
  - destruct (rest st) eqn:E; [|discriminate]. intros Hk. exists st. split; [exact Hk|].
    rewrite E. cbn [length]. lia.
Qed.

End Consumes.

Lemma exec_here_consumes p pv s fin :
  exec_here p pv s = Some fin -> length (rest fin) + minLength (pat_regex p) <= length s.
Proof.
  unfold exec_here. destruct (run _ _ _ _) as [|st|] eqn:E; try discriminate.
  intros [= ->]. apply run_consumes in E as (st' & [= ->] & L). exact L.
Qed.

Lemma matched_length p pv s fin :
  exec_here p pv s = Some fin ->
  length (matched (result_of s fin)) = length s - length (rest fin)
  /\ minLength (pat_regex p) <= length s - length (rest fin).
Proof.
  intros H%exec_here_consumes. cbn [result_of matched]. rewrite length_firstn. lia.
Qed.

(** ** Replacing by something shorter than any match *)

Section Shorter.
Variables (p : pattern) (by_ : jsstring).

Lemma replace_go_length :
  length by_ <= minLength (pat_regex p) ->
  forall s skip pv, skip <= length s ->
    length (replace_go p (fun _ => by_) skip pv s) + skip <= length s.
Proof.
  intros Hby. induction s as [|c s IH]; intros skip pv Hskip.
  - destruct skip; [|cbn [length] in Hskip; lia]. cbn [replace_go].
    destruct (exec_here p pv []) as [fin|] eqn:E; [|cbn [length]; lia].
    apply matched_length in E as [_ E]. cbn [length] in *. rewrite app_nil_r. lia.
  - destruct skip as [|n]; cbn [replace_go].
    + destruct (exec_here p pv (c :: s)) as [fin|] eqn:E.
      * apply matched_length in E as [E1 E2]. rewrite E1, length_app.
        destruct (length (c :: s) - length (rest fin)) as [|n] eqn:En.
        -- cbn [length]. specialize (IH 0 (Some c)). lia.
        -- cbn [length] in *. specialize (IH n (Some c)). lia.
      * cbn [length]. specialize (IH 0 (Some c)). lia.
    + cbn [length] in *. specialize (IH n (Some c)). lia.
Qed.

Lemma replace_go_shorter :
  length by_ < minLength (pat_regex p) ->
  forall s pv, exec_from p pv s <> None ->
    length (replace_go p (fun _ => by_) 0 pv s) < length s.
Proof.
  intros Hby. induction s as [|c s IH]; intros pv Hex; cbn [exec_from replace_go] in *.
  - destruct (exec_here p pv []) as [fin|] eqn:E; [|congruence].
    apply matched_length in E as [_ E]. cbn [length] in *. lia.
  - destruct (exec_here p pv (c :: s)) as [fin|] eqn:E.
    + apply matched_length in E as [E1 E2]. rewrite E1, length_app.
      destruct (length (c :: s) - length (rest fin)) as [|n] eqn:En; [lia|].
      pose proof (replace_go_length ltac:(lia) s n (Some c)).
      cbn [length] in *. lia.
    + cbn [length]. specialize (IH (Some c) Hex). lia.
Qed.

Lemma replaceAllWith_length s :
  length by_ < minLength (pat_regex p) ->
  length (replaceAllWith p by_ s) <= length s
  /\ (length (replaceAllWith p by_ s) = length s -> test p s = false).
Proof.
  intros Hby. unfold replaceAllWith, replaceAll. split.
  - pose proof (replace_go_length ltac:(lia) s 0 None). lia.
  - intros Hlen. unfold test, exec. destruct (exec_from p None s) eqn:E; [|reflexivity].
    pose proof (replace_go_shorter Hby s None). rewrite E in H.
    specialize (H ltac:(discriminate)). lia.
Qed.

End Shorter.

Lemma runStages_fixed stages s :
  Forall (fun stage => test (fst stage) s = false) stages -> runStages stages s = s.
Proof.
  unfold runStages. induction 1 as [|[p b] stages Hp _ IH]; cbn [fold_left]; [reflexivity|].
  cbn [fst snd] in *. rewrite replaceAllWith_no_match by exact Hp. exact IH.
Qed.

Lemma runStages_length stages :
  Forall (fun stage => length (snd stage) < minLength (pat_regex (fst stage))) stages ->
  forall s,
    length (runStages stages s) <= length s
    /\ (length (runStages stages s) = length s ->
        Forall (fun stage => test (fst stage) s = false) stages).
Proof.
  unfold runStages. induction 1 as [|[p b] stages Hp _ IH]; intros s; cbn [fold_left fst snd] in *.
  - split; [lia|constructor].
  - destruct (replaceAllWith_length p b s Hp) as [L1 E1].
    destruct (IH (replaceAllWith p b s)) as [L2 E2].
    split; [lia|]. intros Hlen.
    assert (Hp' : test p s = false) by (apply E1; lia).
    rewrite (replaceAllWith_no_match p b s Hp') in *.
    constructor; [exact Hp'|]. apply E2. exact Hlen.
Qed.

Lemma streamingStages_shrink :
  Forall (fun stage => length (snd stage) < minLength (pat_regex (fst stage))) streamingStages.
Proof. repeat constructor. Qed.

Lemma StreamingClean_stages html :
  StreamingClean html <-> Forall (fun stage => test (fst stage) html = false) streamingStages.
Proof.
  unfold StreamingClean. change streamingPatterns with (map fst streamingStages).
  rewrite Forall_map. reflexivity.
Qed.

(** ** A pattern that begins with a literal *)

Lemma run_firstLit icase r a : firstLit r = Some a ->
  forall k st,
    match rest st with
    | c :: _ => canon icase a <> canon icase c
    | [] => True
    end ->
    run icase r k st = Mismatch.
Proof.
  induction r as [|negated items|r1 IH1 r2 IH2|r1 IH1 r2 IH2|greedy r1 IH1|n r1 IH1|n| | |];
    cbn [firstLit]; try discriminate; intros Ha k st Hst; cbn [run].
  - destruct negated; [discriminate|]. destruct items as [|[c| | |] [|? ?]]; try discriminate.
    injection Ha as ->. destruct (rest st) as [|c tl]; [reflexivity|].
    unfold cls_mem. cbn [existsb item_mem xorb orb].
    destruct (N.eqb_spec (canon icase a) (canon icase c)); [contradiction|reflexivity].
  - apply IH1; assumption.
  - apply IH1; assumption.
Qed.

Lemma canon_caseless icase a c :
  isLowerAscii a = false -> isUpperAscii a = false -> canon icase a = canon icase c -> c = a.
Proof.
  destruct icase; [apply canon_eq_caseless|].
  unfold canon. cbn [andb]. congruence.
Qed.

Lemma exec_from_firstLit p a s :
  firstLit (pat_regex p) = Some a ->
  isLowerAscii a = false -> isUpperAscii a = false ->
  a ∉ s -> forall pv, exec_from p pv s = None.
Proof.
  intros Ha Hl Hu. induction s as [|c s IH]; intros Hs pv; cbn [exec_from]; unfold exec_here.
  - rewrite (run_firstLit _ _ _ Ha); [reflexivity|exact I].
  - apply not_elem_of_cons in Hs as [Hc Hs].
    rewrite (run_firstLit _ _ _ Ha); [apply IH, Hs|]. cbn [rest].
    intros E. apply canon_caseless in E; [congruence|assumption|assumption].
Qed.

Lemma test_firstLit p a s :
  firstLit (pat_regex p) = Some a ->
  isLowerAscii a = false -> isUpperAscii a = false ->
  a ∉ s -> test p s = false.
Proof.
  intros Ha Hl Hu Hs. unfold test, exec. rewrite (exec_from_firstLit p a s); auto.
Qed.

Lemma firstLit_element tag : firstLit (pat_regex (re_element tag)) = Some (ch "<").
Proof. destruct tag; reflexivity. Qed.

(** ** Trimming and white space *)

Lemma trimStart_visible s : List.filter visible (trimStart s) = List.filter visible s.
Proof.
  induction s as [|c s IH]; [reflexivity|]. cbn [trimStart List.filter]. unfold visible at 2.
  destruct (isWhiteSpace c) eqn:E; cbn [negb]; [exact IH|].
  cbn [List.filter]. unfold visible at 1. rewrite E. reflexivity.
Qed.

Lemma filter_rev' {A} (f : A -> bool) l : List.filter f (rev l) = rev (List.filter f l).
Proof.
  induction l as [|x l IH]; [reflexivity|]. cbn [rev List.filter].
  rewrite List.filter_app, IH. cbn [List.filter]. destruct (f x); [reflexivity|].
  rewrite app_nil_r. reflexivity.
Qed.

Lemma trim_visible s : List.filter visible (trim s) = List.filter visible s.
Proof.
  unfold trim, trimEnd.
  rewrite filter_rev', trimStart_visible, filter_rev', rev_involutive, trimStart_visible.
  reflexivity.
Qed.

Lemma filter_visible_nil s :
  List.filter visible s = [] <-> Forall (fun c => isWhiteSpace c = true) s.
Proof.
  induction s as [|c s IH]; [split; constructor|]. cbn [List.filter]. unfold visible at 1.
  rewrite Forall_cons, <- IH. destruct (isWhiteSpace c); cbn [negb]; split; try tauto; try discriminate.
  intros [? _]. discriminate.
Qed.

Lemma trimStart_blank s : Forall (fun c => isWhiteSpace c = true) s -> trimStart s = [].
Proof. induction 1 as [|c s Hc _ IH]; [reflexivity|]. cbn [trimStart]. rewrite Hc. exact IH. Qed.

Lemma trim_blank s : Forall (fun c => isWhiteSpace c = true) s -> trim s = [].
Proof. intros H. unfold trim, trimEnd. rewrite (trimStart_blank s H). reflexivity. Qed.

Lemma trimStart_suffix s : exists ws, s = ws ++ trimStart s.
Proof.
  induction s as [|c s [ws IH]]; [exists []; reflexivity|]. cbn [trimStart].
  destruct (isWhiteSpace c); [|exists []; reflexivity].
  exists (c :: ws). cbn [app]. f_equal. exact IH.
Qed.

Lemma elem_of_trimStart x s : x ∈ trimStart s -> x ∈ s.
Proof.
  intros H. destruct (trimStart_suffix s) as [ws E]. rewrite E.
  apply elem_of_app. right. exact H.
Qed.

Lemma elem_of_trim x s : x ∈ trim s -> x ∈ s.
Proof.
  unfold trim, trimEnd. intros H. apply elem_of_trimStart.
  apply list_elem_of_In, in_rev, list_elem_of_In, elem_of_trimStart.
  apply list_elem_of_In, in_rev, list_elem_of_In. exact H.
Qed.

(** ** Runs of one class *)

Lemma Matches_Star_Cls_inv icase greedy negated items st st' :
  Matches icase (Star greedy (Cls negated items)) st st' ->
  exists t, rest st = t ++ rest st'
            /\ Forall (fun c => cls_mem icase negated items c = true) t.
Proof.
  revert st st'. apply Matches_Star_ind.
  - intros st. exists []. split; [reflexivity|constructor].
  - intros st st1 st2 H1 _ _ (t & E & Ht).
    apply Matches_Cls_inv in H1 as (c & Ec & Hc).
    exists (c :: t). rewrite Ec, E. split; [reflexivity|constructor; assumption].
Qed.

Lemma Matches_Plus_Cls_inv icase greedy negated items st st' :
  Matches icase (Plus greedy (Cls negated items)) st st' ->
  exists t, rest st = t ++ rest st' /\ t <> []
            /\ Forall (fun c => cls_mem icase negated items c = true) t.
Proof.
  intros (st1 & H1 & H2)%Matches_Seq_inv.
  apply Matches_Cls_inv in H1 as (c & Ec & Hc).
  apply Matches_Star_Cls_inv in H2 as (t & E & Ht).
  exists (c :: t). rewrite Ec, E. repeat split; [discriminate|constructor; assumption].
Qed.

Lemma exec_here_spaces pv s fin :
  exec_here re_spaces pv s = Some fin ->
  exists ws, s = ws ++ rest fin /\ Forall (fun c => isWhiteSpace c = true) ws.
Proof.
  unfold exec_here. destruct (run _ _ _ _) as [|st|] eqn:E; try discriminate.
  intros [= ->]. apply run_sound in E as (st' & HM & [= ->]); [|repeat split].
  apply Matches_Plus_Cls_inv in HM as (t & Et & _ & Ht). exists t. split; [exact Et|].
  eapply Forall_impl; [exact Ht|]. intros c. unfold cls_mem. cbn [existsb item_mem xorb].
  rewrite orb_false_r. tauto.
Qed.

Lemma replace_spaces_visible by_ :
  Forall (fun c => isWhiteSpace c = true) by_ ->
  forall s skip pv,
    List.filter visible (replace_go re_spaces (fun _ => by_) skip pv s)
    = List.filter visible (drop skip s).
Proof.
  intros Hby%filter_visible_nil. induction s as [|c s IH]; intros skip pv.
  - destruct skip; cbn [replace_go drop]; [|reflexivity].
    destruct (exec_here re_spaces pv []); [|reflexivity]. rewrite app_nil_r. exact Hby.
  - destruct skip as [|n]; cbn [replace_go drop]; [|apply IH].
    destruct (exec_here re_spaces pv (c :: s)) as [fin|] eqn:E.
    + destruct (matched_length _ _ _ _ E) as [Hlen _]. rewrite Hlen.
      apply exec_here_spaces in E as (ws & Es & Hws).
      rewrite List.filter_app, Hby. cbn [app].
      rewrite Es at 1. rewrite length_app, Nat.add_sub.
      destruct ws as [|w ws]; cbn [length].
      * cbn [List.filter]. rewrite (IH 0). reflexivity.
      * cbn [app] in Es. injection Es as -> ->. rewrite (IH (length ws)).
        rewrite drop_app_length. apply Forall_cons in Hws as [Hw Hws].
        cbn [List.filter]. unfold visible at 2. rewrite Hw. cbn [negb].
        rewrite List.filter_app. apply filter_visible_nil in Hws. rewrite Hws. reflexivity.
    + cbn [List.filter]. rewrite (IH 0). reflexivity.
Qed.

Lemma existsb_filter {A} (f : A -> bool) l :
  existsb f l = match List.filter f l with [] => false | _ :: _ => true end.
Proof.
  induction l as [|x l IH]; [reflexivity|]. cbn [existsb List.filter].
  destruct (f x); [reflexivity|exact IH].
Qed.

(** ** Further properties of the sanitizer *)

Lemma sanitizeNode_text n :
  blockedFree n = true -> flat_map textContent (sanitizeNode n) = textContent n.
Proof.
  induction n as [tag attrs kids IH|d|d] using Node_induction; cbn [blockedFree sanitizeNode];
    [|reflexivity|intros _; cbn; apply app_nil_r].
  intros [Hb Hk]%andb_true_iff. apply negb_true_iff in Hb. rewrite Hb.
  cbn [flat_map textContent]. rewrite app_nil_r.
  induction kids as [|k kids IHk]; [reflexivity|]. cbn [forallb flat_map] in *.
  apply andb_true_iff in Hk as [Hk Hks]. apply Forall_cons in IH as [IH1 IH2].
  rewrite flat_map_app, (IH1 Hk), (IHk IH2 Hks). reflexivity.
Qed.

(** Where no element is blocked, the walk keeps the text of the tree: what
    it removes (comments, attributes) carries no text. *)
Theorem tree_walk_keeps_text root :
  forallb blockedFree root = true ->
  flat_map textContent (sanitizeNodeTree root) = flat_map textContent root.
Proof.
  unfold sanitizeNodeTree. induction root as [|n root IH]; [reflexivity|]. cbn [forallb flat_map].
  intros [Hn Hr]%andb_true_iff. rewrite flat_map_app, (sanitizeNode_text n Hn), (IH Hr).
  reflexivity.
Qed.

Lemma tree_walk_keeps_text_witness :
  flat_map textContent
    (sanitizeNodeTree [Element (js "P") [MkAttr (js "onclick") (js "go()")]
                         [Text (js "one"); Comment (js "note"); Text (js "two")]])
  = js "onetwo".
Proof.
  apply (tree_walk_keeps_text
           [Element (js "P") [MkAttr (js "onclick") (js "go()")]
              [Text (js "one"); Comment (js "note"); Text (js "two")]]).
  reflexivity.
Defined.

Lemma sanitizeHtmlWithoutDom_stages html :
  sanitizeHtmlWithoutDom html = runStages streamingStages html.
Proof. reflexivity. Qed.

(** The streaming sanitizer returns its input unchanged exactly when none of
    its nine patterns is found in it. *)
Theorem streaming_fixed_points html :
  sanitizeHtml None html = html <-> StreamingClean html.
Proof.
  cbn [sanitizeHtml]. rewrite sanitizeHtmlWithoutDom_stages, StreamingClean_stages. split.
  - intros E. apply (runStages_length _ streamingStages_shrink). rewrite E. reflexivity.
  - apply runStages_fixed.
Qed.

(** The streaming sanitizer never makes the markup longer, and whenever it
    changes the markup it makes it shorter: every match is replaced by
    something shorter than itself. *)
Theorem streaming_never_longer html :
  length (sanitizeHtml None html) <= length html
  /\ (sanitizeHtml None html <> html -> length (sanitizeHtml None html) < length html).
Proof.
  cbn [sanitizeHtml]. rewrite sanitizeHtmlWithoutDom_stages.
  destruct (runStages_length _ streamingStages_shrink html) as [L E]. split; [exact L|].
  intros Hne. destruct (Nat.eq_dec (length (runStages streamingStages html)) (length html)) as [El|];
    [|lia].
  exfalso. apply Hne, runStages_fixed, E, El.
Qed.

Lemma streaming_never_longer_witness :
  length (sanitizeHtml None (js "<p onclick=go()>x</p>")) < length (js "<p onclick=go()>x</p>").
Proof.
  apply (streaming_never_longer (js "<p onclick=go()>x</p>")). vm_compute. discriminate.
Defined.

Lemma no_markup_normalized html : ch "<" ∉ html -> normalizedHtml html = trim html.
Proof.
  intros H. unfold normalizedHtml.
  rewrite (replaceAllWith_no_match re_comment) by (apply (test_firstLit _ (ch "<")); auto).
  rewrite (replaceAllWith_no_match (re_element (js "script")))
    by (apply (test_firstLit _ (ch "<")); auto).
  rewrite (replaceAllWith_no_match (re_element (js "style")))
    by (apply (test_firstLit _ (ch "<")); auto).
  reflexivity.
Qed.

(** Without a document, text in which no [<] occurs counts as content
    exactly when it holds a character that is not white space. *)
Theorem plain_text_content html :
  ch "<" ∉ html -> hasHtmlContent None html = Return (existsb visible html).
Proof.
  intros H. cbn [hasHtmlContent]. f_equal. unfold hasHtmlContentWithoutDom.
  rewrite (no_markup_normalized html H), existsb_filter.
  destruct (List.filter visible html) eqn:E.
  - apply filter_visible_nil in E. rewrite (trim_blank html E). reflexivity.
  - assert (Ht : truthy (trim html) = true).
    { destruct (trim html) eqn:Et; [|reflexivity].
      pose proof (trim_visible html) as Hv. rewrite Et, E in Hv. discriminate. }
    rewrite Ht. cbn [negb]. unfold visibleText.
    rewrite (replaceAllWith_no_match re_tag).
    2:{ apply (test_firstLit _ (ch "<")); auto. intros Hin. apply H, elem_of_trim, Hin. }
    set (text := trim _).
    assert (Hv : List.filter visible text = c :: l).
    { unfold text. rewrite trim_visible. unfold replaceAllWith, replaceAll.
      rewrite replace_spaces_visible by (repeat constructor).
      rewrite drop_0, trim_visible. exact E. }
    destruct text; [discriminate|]. reflexivity.
Qed.

Lemma plain_text_content_witness :
  hasHtmlContent None (js " hello ") = Return (existsb visible (js " hello ")).
Proof.
  apply (plain_text_content (js " hello ")). apply (bool_decide_unpack _). vm_compute. exact I.
Defined.

(** [sanitizeAndCheck] answers for input of line breaks only without
    looking at the document, with the empty string as the sanitized markup;
    for any other input that the document refuses to parse it throws: the
    [catch] of [sanitizeHtml] hands the input back, and the content check
    parses it again outside any [try]. *)
Theorem check_guard_and_rethrow :
  (forall env html,
      OnlyLineBreaks html ->
      sanitizeAndCheck env html = Return {| sanitized := []; hasContent := false |})
  /\ (forall doc html e,
         ~ OnlyLineBreaks html ->
         setInnerHTML doc html = Throw e ->
         sanitizeAndCheck (Some doc) html = Throw e).
Proof.
  split.
  - intros env html H. unfold sanitizeAndCheck. rewrite (only_breaks_matches html H). reflexivity.
  - intros doc html e Hn Hthrow. unfold sanitizeAndCheck.
    destruct (test re_only_breaks html) eqn:E; [apply only_breaks_sound in E; contradiction|].
    unfold sanitizeHtml, sanitizeWithDom, mbind, Exc_bind. rewrite Hthrow.
    cbn [Exc.bind catch hasHtmlContent]. unfold mbind, Exc_bind. rewrite Hthrow. reflexivity.
Qed.

Lemma check_guard_and_rethrow_witness :
  sanitizeAndCheck None (js "<br> <BR/>") = Return {| sanitized := []; hasContent := false |}
  /\ sanitizeAndCheck
       (Some {| setInnerHTML := fun _ => Throw (js "SyntaxError");
                getInnerHTML := fun _ => Return [] |})
       (js "<p>")
     = Throw (js "SyntaxError").
Proof.
  split.
  - apply (proj1 check_guard_and_rethrow). apply only_breaks_sound. vm_compute. reflexivity.
  - apply (proj2 check_guard_and_rethrow).
    + intros H%only_breaks_matches. vm_compute in H. discriminate.
    + reflexivity.
Defined.

(** ** Reading the headers *)

Section Readers.
Local Open Scope Z_scope.

Lemma ushr_0 z : ushr z 0 = z mod 2 ^ 32.
Proof. unfold ushr, ToUint32. change (0 mod 32) with 0. apply Z.shiftr_0_r. Qed.

Lemma bor_mod a b : bor a b mod 2 ^ 32 = Z.lor (a mod 2 ^ 32) (b mod 2 ^ 32).
Proof. unfold bor. rewrite ToInt32_mod, lor_mod, !ToInt32_mod. reflexivity. Qed.

Lemma shl_mod a n : 0 <= a < 2 ^ 8 -> 0 <= n <= 24 ->
  shl a n mod 2 ^ 32 = a * 2 ^ n.
Proof.
  intros Ha Hn. unfold shl. rewrite (Z.mod_small n 32) by lia.
  rewrite ToInt32_mod, (ToInt32_small a) by lia.
  rewrite Z.shiftl_mul_pow2 by lia. apply Z.mod_small.
  assert (2 ^ n <= 2 ^ 24) by (apply Z.pow_le_mono_r; lia). nia.
Qed.

Lemma shl_small a n : 0 <= a < 2 ^ 8 -> 0 <= n <= 16 -> shl a n = a * 2 ^ n.
Proof.
  intros Ha Hn. unfold shl. rewrite (Z.mod_small n 32) by lia.
  rewrite (ToInt32_small a) by lia. rewrite Z.shiftl_mul_pow2 by lia.
  apply ToInt32_small. assert (2 ^ n <= 2 ^ 16) by (apply Z.pow_le_mono_r; lia). nia.
Qed.

Lemma bor_small a b n :
  0 <= n <= 23 -> 0 <= a < 2 ^ n -> 0 <= b < 2 ^ 8 -> n <= 16 ->
  bor a (b * 2 ^ n) = a + b * 2 ^ n.
Proof.
  intros Hn Ha Hb Hn'. unfold bor.
  assert (2 ^ n <= 2 ^ 16) by (apply Z.pow_le_mono_r; lia).
  rewrite (ToInt32_small a), (ToInt32_small (b * 2 ^ n)) by nia.
  rewrite lor_shifted by lia. apply ToInt32_small. nia.
Qed.

Lemma readU16LE_le16 bytes o : readU16LE bytes o = le16 bytes o.
Proof.
  unfold readU16LE, le16.
  pose proof (at_range bytes o). pose proof (at_range bytes (o + 1)).
  rewrite shl_small by lia. rewrite (bor_small _ _ 8) by lia.
  rewrite ushr_0, Z.mod_small by lia. lia.
Qed.

Lemma readU16BE_be16 bytes o : readU16BE bytes o = be16 bytes o.
Proof.
  unfold readU16BE, be16.
  pose proof (at_range bytes o). pose proof (at_range bytes (o + 1)).
  rewrite ushr_0, bor_mod, shl_mod by lia.
  rewrite (Z.mod_small (at_ bytes (o + 1))) by lia.
  rewrite Z.lor_comm, lor_shifted by lia. lia.
Qed.

Lemma readU32BE_be32 bytes o : readU32BE bytes o = be32 bytes o.
Proof.
  unfold readU32BE, be32.
  pose proof (at_range bytes o). pose proof (at_range bytes (o + 1)).
  pose proof (at_range bytes (o + 2)). pose proof (at_range bytes (o + 3)).
  rewrite !ushr_0, !bor_mod, Z.mod_mod, !shl_mod by lia.
  rewrite (Z.mod_small (at_ bytes (o + 3))) by lia.
  set (b0 := at_ bytes o) in *. set (b1 := at_ bytes (o + 1)) in *.
  set (b2 := at_ bytes (o + 2)) in *. set (b3 := at_ bytes (o + 3)) in *.
  rewrite (Z.lor_comm _ b3), (Z.lor_comm _ (b2 * 2 ^ 8)), (Z.lor_comm _ (b1 * 2 ^ 16)).
  rewrite !Z.lor_assoc.
  rewrite (lor_shifted b3 b2 8), (lor_shifted _ b1 16), (lor_shifted _ b0 24) by lia.
  lia.
Qed.

Lemma le24_read bytes o :
  bor (bor (at_ bytes o) (shl (at_ bytes (o + 1)) 8)) (shl (at_ bytes (o + 2)) 16)
  = le24 bytes o.
Proof.
  unfold le24.
  pose proof (at_range bytes o). pose proof (at_range bytes (o + 1)).
  pose proof (at_range bytes (o + 2)).
  rewrite !shl_small by lia. rewrite (bor_small _ _ 8) by lia.
  rewrite (bor_small _ _ 16) by lia. lia.
Qed.

Lemma ToInt32_cases z :
  0 <= z < 2 ^ 32 -> ToInt32 z = z \/ ToInt32 z = z - 2 ^ 32.
Proof.
  intros Hz. unfold ToInt32. cbv zeta. rewrite Z.mod_small by lia.
  destruct (z <? 2 ^ 31); [left|right]; reflexivity.
Qed.

Lemma band_14 z : 0 <= z < 2 ^ 32 -> band z 16383 = z mod 2 ^ 14.
Proof.
  intros Hz. unfold band. rewrite (ToInt32_small 16383) by lia.
  change 16383 with (Z.ones 14). rewrite Z.land_ones by lia.
  assert (E : ToInt32 z mod 2 ^ 14 = z mod 2 ^ 14).
  { destruct (ToInt32_cases z Hz) as [-> | ->]; [reflexivity|].
    change (2 ^ 32) with (2 ^ 18 * 2 ^ 14). rewrite Zminus_mod, Z_mod_mult, Z.sub_0_r.
    apply Z.mod_mod. lia. }
  rewrite E. apply ToInt32_small.
  pose proof (Z.mod_pos_bound z (2 ^ 14)). lia.
Qed.

Lemma band_sar_14 z :
  0 <= z < 2 ^ 32 -> band (sar z 14) 16383 = (z / 2 ^ 14) mod 2 ^ 14.
Proof.
  intros Hz. unfold band, sar. change (14 mod 32) with 14.
  rewrite (ToInt32_small 16383) by lia. rewrite Z.shiftr_div_pow2 by lia.
  assert (R : - 2 ^ 31 <= ToInt32 z < 2 ^ 31).
  { destruct (ToInt32_cases z Hz) as [E | E]; rewrite E; unfold ToInt32 in E;
      cbv zeta in E; rewrite Z.mod_small in E by lia;
      destruct (Z.ltb_spec z (2 ^ 31)); lia. }
  assert (R' : - 2 ^ 17 <= ToInt32 z / 2 ^ 14 < 2 ^ 17).
  { split; [apply Z.div_le_lower_bound; lia|apply Z.div_lt_upper_bound; lia]. }
  rewrite (ToInt32_small (ToInt32 z / 2 ^ 14)) by lia.
  change 16383 with (Z.ones 14). rewrite Z.land_ones by lia.
  assert (E : (ToInt32 z / 2 ^ 14) mod 2 ^ 14 = (z / 2 ^ 14) mod 2 ^ 14).
  { destruct (ToInt32_cases z Hz) as [-> | ->]; [reflexivity|].
    replace (z - 2 ^ 32) with (z + (- 2 ^ 18) * 2 ^ 14) by lia.
    rewrite Z.div_add by lia.
    replace (z / 2 ^ 14 + - 2 ^ 18) with (z / 2 ^ 14 + (- 2 ^ 4) * 2 ^ 14) by lia.
    apply Z.mod_add. lia. }
  rewrite E. apply ToInt32_small.
  pose proof (Z.mod_pos_bound (z / 2 ^ 14) (2 ^ 14)). lia.
Qed.

End Readers.

Lemma signature_byte sig o bytes i (b : byte) :
  hasSignature sig o bytes -> sig !! i = Some b -> bytes !! (o + i) = Some b.
Proof.
  unfold hasSignature. intros <- H.
  destruct (decide (i < length sig)) as [Hi|Hi].
  - rewrite lookup_take_lt in H by exact Hi. rewrite lookup_drop in H. exact H.
  - rewrite lookup_take_ge in H by lia. discriminate.
Qed.

Lemma signature_byteIs sig o bytes i (b : byte) :
  hasSignature sig o bytes -> sig !! i = Some b -> byteIs bytes (o + i) (byteZ b) = true.
Proof. intros Hs Hi. apply byteIs_true. exact (signature_byte _ _ _ _ _ Hs Hi). Qed.

Ltac signature_byte_is Hsig o i b :=
  let B := fresh "B" in
  pose proof (signature_byteIs _ o _ i b Hsig eq_refl) as B;
  cbn [Nat.add] in B;
  let v := eval vm_compute in (byteZ b) in
  change (byteZ b) with v in B;
  rewrite B; clear B.

Section Headers.
Context {T : Type} `{JSNumber T}.

(** A PNG with its 24 bytes of header is read by the big-endian 32-bit
    width and height of the IHDR chunk, at offsets 16 and 20. *)
Theorem png_dimensions (bytes : Uint8Array) (contentType : jsstring) :
  isPNG bytes -> 24 <= length bytes ->
  getImageDimensions None bytes contentType
  = Return {| width := num_of_Z (be32 bytes 16); height := num_of_Z (be32 bytes 20) |}.
Proof.
  intros Hsig Hlen. unfold getImageDimensions, sniffDimensions.
  apply Nat.leb_le in Hlen. rewrite Hlen.
  signature_byte_is Hsig 0 0 x89. signature_byte_is Hsig 0 1 x50.
  signature_byte_is Hsig 0 2 x4e. signature_byte_is Hsig 0 3 x47.
  cbn [andb]. rewrite !readU32BE_be32. reflexivity.
Qed.

(** A GIF with its 10 bytes of header is read by the little-endian 16-bit
    width and height of the logical screen, at offsets 6 and 8. *)
Theorem gif_dimensions (bytes : Uint8Array) (contentType : jsstring) :
  isGIF bytes -> 10 <= length bytes ->
  getImageDimensions None bytes contentType
  = Return {| width := num_of_Z (le16 bytes 6); height := num_of_Z (le16 bytes 8) |}.
Proof.
  intros Hsig Hlen. unfold getImageDimensions, sniffDimensions.
  pose proof (signature_first_byte _ _ _ Hsig) as Hb.
  rewrite (first_byte_excludes bytes _ 137 Hb) by reflexivity.
  rewrite ?andb_false_r. cbn [andb].
  apply Nat.leb_le in Hlen. rewrite Hlen.
  signature_byte_is Hsig 0 0 x47. signature_byte_is Hsig 0 1 x49.
  signature_byte_is Hsig 0 2 x46.
  cbn [andb]. rewrite !readU16LE_le16. reflexivity.
Qed.

Lemma webp_reached (bytes : Uint8Array) :
  isWEBP bytes -> 30 <= length bytes ->
  sniffDimensions bytes
  = if str_eqb (chunkType bytes) (js "VP8X") && (30 <=? length bytes) then
      Some (le24 bytes 24 + 1, le24 bytes 27 + 1)%Z
    else if str_eqb (chunkType bytes) (js "VP8L") && (25 <=? length bytes)
            && byteIs bytes 20 47 then
      Some (band (readU32LE bytes 21) 16383 + 1,
            band (sar (readU32LE bytes 21) 14) 16383 + 1)%Z
    else None.
Proof.
  intros [Hriff Hwebp] Hlen. unfold sniffDimensions.
  pose proof (signature_first_byte _ _ _ Hriff) as Hb.
  rewrite (first_byte_excludes bytes _ 137 Hb), (first_byte_excludes bytes _ 71 Hb),
    (first_byte_excludes bytes _ 66 Hb), (first_byte_excludes bytes _ 255 Hb) by reflexivity.
  rewrite ?andb_false_r. cbn [andb].
  apply Nat.leb_le in Hlen. rewrite Hlen.
  signature_byte_is Hriff 0 0 x52. signature_byte_is Hriff 0 1 x49.
  signature_byte_is Hriff 0 2 x46. signature_byte_is Hriff 0 3 x46.
  signature_byte_is Hwebp 8 0 x57. signature_byte_is Hwebp 8 1 x45.
  signature_byte_is Hwebp 8 2 x42. signature_byte_is Hwebp 8 3 x50.
  cbn [andb]. rewrite !le24_read. reflexivity.
Qed.

(** A WEBP of 30 bytes or more is read by its first chunk: an extended
    header (VP8X) gives the 24-bit canvas width and height minus one at
    offsets 24 and 27; a lossless one (VP8L) with its signature byte gives
    the two 14-bit fields of the word at offset 21, each plus one. *)
Theorem webp_dimensions (bytes : Uint8Array) (contentType : jsstring) :
  isWEBP bytes -> 30 <= length bytes ->
  (chunkType bytes = js "VP8X" ->
   getImageDimensions None bytes contentType
   = Return {| width := num_of_Z (le24 bytes 24 + 1);
               height := num_of_Z (le24 bytes 27 + 1) |})
  /\ (chunkType bytes = js "VP8L" -> bytes !! 20 = Some x2f ->
      getImageDimensions None bytes contentType
      = Return {| width := num_of_Z (le32 bytes 21 mod 2 ^ 14 + 1);
                  height := num_of_Z ((le32 bytes 21 / 2 ^ 14) mod 2 ^ 14 + 1) |}).
Proof.
  intros Hsig Hlen. unfold getImageDimensions. rewrite (webp_reached bytes Hsig Hlen).
  assert (H30 : (30 <=? length bytes) = true) by (apply Nat.leb_le; exact Hlen).
  assert (H25 : (25 <=? length bytes) = true) by (apply Nat.leb_le; lia).
  rewrite H30, H25. split.
  - intros ->. reflexivity.
  - intros -> H20. apply (byteIs_true bytes 20 x2f) in H20.
    change (byteZ x2f) with 47%Z in H20. rewrite H20.
    change (str_eqb (js "VP8L") (js "VP8X")) with false.
    change (str_eqb (js "VP8L") (js "VP8L")) with true. cbn [andb].
    assert (R : (0 <= readU32LE bytes 21 < 2 ^ 32)%Z).
    { rewrite readU32LE_le32. unfold le32.
      pose proof (at_range bytes 21). pose proof (at_range bytes (21 + 1)).
      pose proof (at_range bytes (21 + 2)). pose proof (at_range bytes (21 + 3)). lia. }
    rewrite (band_14 _ R), (band_sar_14 _ R), readU32LE_le32. reflexivity.
Qed.

End Headers.

Lemma png_dimensions_witness :
  getImageDimensions (T := float) None
    [x89; x50; x4e; x47; x0d; x0a; x1a; x0a; x00; x00; x00; x0d; x49; x48; x44; x52;
     x00; x00; x07; xd0; x00; x00; x0b; xb8] []
  = Return {| width := num_of_Z 2000; height := num_of_Z 3000 |}.
Proof.
  apply (png_dimensions
           [x89; x50; x4e; x47; x0d; x0a; x1a; x0a; x00; x00; x00; x0d; x49; x48; x44; x52;
            x00; x00; x07; xd0; x00; x00; x0b; xb8] []); [reflexivity|cbn; lia].
Defined.

Lemma gif_dimensions_witness :
  getImageDimensions (T := float) None
    [x47; x49; x46; x38; x39; x61; x40; x01; xf0; x00] []
  = Return {| width := num_of_Z 320; height := num_of_Z 240 |}.
Proof.
  apply (gif_dimensions [x47; x49; x46; x38; x39; x61; x40; x01; xf0; x00] []);
    [reflexivity|cbn; lia].
Defined.

Lemma webp_dimensions_witness :
  getImageDimensions (T := float) None
    [x52; x49; x46; x46; x16; x00; x00; x00; x57; x45; x42; x50; x56; x50; x38; x58;
     x0a; x00; x00; x00; x00; x00; x00; x00; xcf; x07; x00; xb7; x0b; x00] []
  = Return {| width := num_of_Z 2000; height := num_of_Z 3000 |}.
Proof.
  apply (proj1 (webp_dimensions
                  [x52; x49; x46; x46; x16; x00; x00; x00; x57; x45; x42; x50; x56; x50; x38; x58;
                   x0a; x00; x00; x00; x00; x00; x00; x00; xcf; x07; x00; xb7; x0b; x00] []
                  (conj eq_refl eq_refl) ltac:(cbn; lia))).
  reflexivity.
Defined.

(** ** The marker loop on well-formed segments *)

Lemma lookup_app_at {A} (pre l : list A) i : (pre ++ l) !! (length pre + i) = l !! i.
Proof. rewrite lookup_app_r by lia. f_equal. lia. Qed.

Lemma at_app (pre l : list byte) i : at_ (pre ++ l) (length pre + i) = at_ l i.
Proof. unfold at_, Uint8Array. rewrite (lookup_app_at pre l i). reflexivity. Qed.

Lemma byteIs_app (pre l : list byte) i v : byteIs (pre ++ l) (length pre + i) v = byteIs l i v.
Proof. unfold byteIs, Uint8Array. rewrite (lookup_app_at pre l i). reflexivity. Qed.

Lemma be16_app (pre l : list byte) i : be16 (pre ++ l) (length pre + i) = be16 l i.
Proof.
  unfold be16. rewrite at_app. replace (length pre + i + 1) with (length pre + (i + 1)) by lia.
  rewrite at_app. reflexivity.
Qed.

Lemma isSOF_marker m :
  isSOF (Some (byteZ m)) = true ->
  byteZ m <> 255%Z /\ markerIs (Some (byteZ m)) 217 = false
  /\ markerIs (Some (byteZ m)) 218 = false.
Proof.
  cbn [isSOF markerIs]. intros H. repeat split.
  - intros E. rewrite E in H. discriminate.
  - destruct (Z.eqb_spec (byteZ m) 217) as [E|]; [rewrite E in H; discriminate|reflexivity].
  - destruct (Z.eqb_spec (byteZ m) 218) as [E|]; [rewrite E in H; discriminate|reflexivity].
Qed.

Lemma skipFill_marker pre (m : byte) l :
  byteZ m <> 255%Z -> skipFill (pre ++ xff :: m :: l) (length pre) = length pre + 1.
Proof.
  intros Hm. unfold skipFill. rewrite drop_app_length. cbn [fillBytes].
  change (byteZ xff =? 255)%Z with true. cbv iota.
  destruct (Z.eqb_spec (byteZ m) 255); [contradiction|reflexivity].
Qed.

Lemma jpegScan_frame pre (m hi lo p h1 h0 w1 w0 : byte) tail fuel :
  isSOF (Some (byteZ m)) = true ->
  (2 <= 2 ^ 8 * byteZ hi + byteZ lo)%Z ->
  tail <> [] ->
  jpegScan (S fuel) (pre ++ [xff; m; hi; lo; p; h1; h0; w1; w0] ++ tail) (length pre)
  = Sof (2 ^ 8 * byteZ w1 + byteZ w0) (2 ^ 8 * byteZ h1 + byteZ h0).
Proof.
  intros Hsof Hlen Htail. destruct (isSOF_marker m Hsof) as (Hff & H217 & H218).
  pose proof (skipFill_marker pre m ([hi; lo; p; h1; h0; w1; w0] ++ tail) Hff) as Hskip.
  change (xff :: m :: [hi; lo; p; h1; h0; w1; w0] ++ tail)
    with ([xff; m; hi; lo; p; h1; h0; w1; w0] ++ tail) in Hskip.
  set (l := [xff; m; hi; lo; p; h1; h0; w1; w0] ++ tail) in *.
  assert (Hl : length (pre ++ l) = length pre + 9 + length tail).
  { unfold l. rewrite !length_app. cbn [length]. lia. }
  assert (Ht : 0 < length tail) by (destruct tail; [contradiction|cbn [length]; lia]).
  pose proof (byteIs_app pre l 0 255) as B0. rewrite Nat.add_0_r in B0.
  change (byteIs l 0 255) with true in B0.
  pose proof (lookup_app_at pre l 1) as B1. change (l !! 1) with (Some m) in B1.
  pose proof (be16_app pre l 2) as R2.
  change (be16 l 2) with (2 ^ 8 * byteZ hi + byteZ lo)%Z in R2.
  pose proof (be16_app pre l 7) as R7.
  change (be16 l 7) with (2 ^ 8 * byteZ w1 + byteZ w0)%Z in R7.
  pose proof (be16_app pre l 5) as R5.
  change (be16 l 5) with (2 ^ 8 * byteZ h1 + byteZ h0)%Z in R5.
  cbn [jpegScan]. cbv zeta.
  replace (length pre + 4 <? length (pre ++ l)) with true by (symmetry; apply Nat.ltb_lt; lia).
  rewrite B0, Hskip. cbn [negb]. unfold Uint8Array in *. rewrite B1.
  cbn [fmap option_fmap option_map]. rewrite H217, H218. cbn [orb].
  replace (length (pre ++ l) <=? length pre + 1 + 1 + 1) with false
    by (symmetry; apply Nat.leb_gt; lia).
  rewrite !readU16BE_be16.
  replace (length pre + 1 + 1) with (length pre + 2) by lia.
  replace (length pre + 2 + 5) with (length pre + 7) by lia.
  replace (length pre + 2 + 3) with (length pre + 5) by lia.
  rewrite R2, R5, R7.
  destruct (Z.ltb_spec (2 ^ 8 * byteZ hi + byteZ lo) 2); [lia|].
  rewrite Hsof.
  replace (length pre + 2 + 7 <? length (pre ++ l)) with true
    by (symmetry; apply Nat.ltb_lt; lia).
  reflexivity.
Qed.

Lemma jpegScan_skip pre s rest fuel :
  Skipped s -> rest <> [] ->
  jpegScan (S fuel) (pre ++ segmentBytes s ++ rest) (length pre)
  = jpegScan fuel (pre ++ segmentBytes s ++ rest) (length (pre ++ segmentBytes s)).
Proof.
  intros (Hff & H217 & H218 & Hsof & Hlen) Hrest. destruct s as [m hi lo payload].
  cbn [seg_marker seg_hi seg_lo seg_payload] in *. unfold segmentBytes.
  cbn [seg_marker seg_hi seg_lo seg_payload].
  pose proof (skipFill_marker pre m ([hi; lo] ++ payload ++ rest) Hff) as Hskip.
  set (l := ([xff; m; hi; lo] ++ payload) ++ rest) in *.
  change (xff :: m :: [hi; lo] ++ payload ++ rest) with l in Hskip.
  assert (Hl : length (pre ++ l) = length pre + 4 + length payload + length rest).
  { unfold l. rewrite !length_app. cbn [length]. lia. }
  assert (Ht : 0 < length rest) by (destruct rest; [contradiction|cbn [length]; lia]).
  pose proof (byteIs_app pre l 0 255) as B0. rewrite Nat.add_0_r in B0.
  change (byteIs l 0 255) with true in B0.
  pose proof (lookup_app_at pre l 1) as B1. change (l !! 1) with (Some m) in B1.
  pose proof (be16_app pre l 2) as R2.
  change (be16 l 2) with (2 ^ 8 * byteZ hi + byteZ lo)%Z in R2.
  cbn [jpegScan]. cbv zeta.
  replace (length pre + 4 <? length (pre ++ l)) with true by (symmetry; apply Nat.ltb_lt; lia).
  rewrite B0, Hskip. cbn [negb]. unfold Uint8Array in *. rewrite B1.
  cbn [fmap option_fmap option_map].
  assert (M217 : markerIs (Some (byteZ m)) 217 = false)
    by (cbn [markerIs]; apply Z.eqb_neq, H217).
  assert (M218 : markerIs (Some (byteZ m)) 218 = false)
    by (cbn [markerIs]; apply Z.eqb_neq, H218).
  rewrite M217, M218, Hsof. cbn [orb andb].
  replace (length (pre ++ l) <=? length pre + 1 + 1 + 1) with false
    by (symmetry; apply Nat.leb_gt; lia).
  rewrite !readU16BE_be16.
  replace (length pre + 1 + 1) with (length pre + 2) by lia.
  rewrite R2, Hlen.
  destruct (Z.ltb_spec (2 + Z.of_nat (length payload)) 2); [lia|].
  f_equal. rewrite !length_app. cbn [length]. lia.
Qed.

Lemma jpegScan_segments (m hi lo p h1 h0 w1 w0 : byte) tail segs :
  isSOF (Some (byteZ m)) = true ->
  (2 <= 2 ^ 8 * byteZ hi + byteZ lo)%Z ->
  tail <> [] ->
  Forall Skipped segs ->
  forall pre fuel,
    length segs < fuel ->
    jpegScan fuel
      (pre ++ flat_map segmentBytes segs ++ [xff; m; hi; lo; p; h1; h0; w1; w0] ++ tail)
      (length pre)
    = Sof (2 ^ 8 * byteZ w1 + byteZ w0) (2 ^ 8 * byteZ h1 + byteZ h0).
Proof.
  intros Hsof Hlen Htail. induction 1 as [|s segs Hs _ IH]; intros pre fuel Hfuel.
  - destruct fuel as [|fuel]; [cbn [length] in Hfuel; lia|].
    cbn [flat_map app]. apply jpegScan_frame; assumption.
  - destruct fuel as [|fuel]; [lia|]. cbn [flat_map]. rewrite <- (app_assoc (segmentBytes s)).
    rewrite jpegScan_skip; [|exact Hs|destruct (flat_map segmentBytes segs); discriminate].
    rewrite (app_assoc pre). apply IH. cbn [length] in Hfuel. lia.
Qed.

Lemma segments_length segs : length segs <= length (flat_map segmentBytes segs).
Proof.
  induction segs as [|s segs IH]; [reflexivity|]. cbn [flat_map length].
  rewrite length_app. unfold segmentBytes at 1. cbn [app length]. lia.
Qed.

Section Jpeg.
Context {T : Type} `{JSNumber T}.

(** A JPEG whose marker segments before the first frame header are well
    formed is read by that frame header: the loop steps over the segments
    by their length fields and returns the 16-bit height and width that
    follow the precision byte, provided a byte follows the width. *)
Theorem jpeg_dimensions (segs : list Segment) (m hi lo p h1 h0 w1 w0 : byte)
    (tail : list byte) (contentType : jsstring) :
  Forall Skipped segs ->
  isSOF (Some (byteZ m)) = true ->
  (2 <= 2 ^ 8 * byteZ hi + byteZ lo)%Z ->
  tail <> [] ->
  getImageDimensions None
    ([xff; xd8] ++ flat_map segmentBytes segs ++ [xff; m; hi; lo; p; h1; h0; w1; w0] ++ tail)
    contentType
  = Return {| width := num_of_Z (2 ^ 8 * byteZ w1 + byteZ w0);
              height := num_of_Z (2 ^ 8 * byteZ h1 + byteZ h0) |}.
Proof.
  intros Hsegs Hsof Hlen Htail. unfold getImageDimensions, sniffDimensions.
  set (bytes := [xff; xd8] ++ _).
  assert (Hb : bytes !! 0 = Some xff) by reflexivity.
  rewrite (first_byte_excludes bytes _ 137 Hb), (first_byte_excludes bytes _ 71 Hb),
    (first_byte_excludes bytes _ 66 Hb) by reflexivity.
  rewrite ?andb_false_r. cbn [andb].
  assert (L : length bytes
              = 2 + length (flat_map segmentBytes segs) + 9 + length tail).
  { unfold bytes. rewrite !length_app. cbn [length]. lia. }
  replace (4 <=? length bytes) with true by (symmetry; apply Nat.leb_le; lia).
  change (byteIs bytes 0 255) with true. change (byteIs bytes 1 216) with true.
  cbn [andb]. unfold bytes.
  rewrite (jpegScan_segments m hi lo p h1 h0 w1 w0 tail segs Hsof Hlen Htail Hsegs [xff; xd8]).
  - reflexivity.
  - fold bytes. pose proof (segments_length segs). lia.
Qed.

End Jpeg.

Lemma jpeg_dimensions_witness :
  getImageDimensions (T := float) None
    [xff; xd8; xff; xe0; x00; x04; x00; x00; xff; xc0; x00; x11; x08; x01; x02; x03; x04;
     x00; x00] []
  = Return {| width := num_of_Z 772; height := num_of_Z 258 |}.
Proof.
  apply (jpeg_dimensions
           [{| seg_marker := xe0; seg_hi := x00; seg_lo := x04; seg_payload := [x00; x00] |}]
           xc0 x00 x11 x08 x01 x02 x03 x04 [x00; x00] []).
  - constructor; [|constructor]. repeat split; cbn; try discriminate; reflexivity.
  - reflexivity.
  - cbn. lia.
  - discriminate.
Defined.


(** ** What the byte parser can return *)

Section Ranges.
Local Open Scope Z_scope.

Lemma ushr_range z : 0 <= ushr z 0 < 2 ^ 32.
Proof. rewrite ushr_0. apply Z.mod_pos_bound. lia. Qed.

Lemma readU32LE_range bytes o : 0 <= readU32LE bytes o < 2 ^ 32.
Proof. unfold readU32LE. apply ushr_range. Qed.

Lemma readU16BE_range bytes o : 0 <= readU16BE bytes o < 2 ^ 16.
Proof.
  rewrite readU16BE_be16. unfold be16.
  pose proof (at_range bytes o). pose proof (at_range bytes (o + 1)). lia.
Qed.

Lemma le24_range bytes o : 0 <= le24 bytes o < 2 ^ 24.
Proof.
  unfold le24. pose proof (at_range bytes o). pose proof (at_range bytes (o + 1)).
  pose proof (at_range bytes (o + 2)). lia.
Qed.

Lemma le32_range bytes o : 0 <= le32 bytes o < 2 ^ 32.
Proof.
  unfold le32. pose proof (at_range bytes o). pose proof (at_range bytes (o + 1)).
  pose proof (at_range bytes (o + 2)). pose proof (at_range bytes (o + 3)). lia.
Qed.

Lemma jpegScan_range bytes : forall fuel offset w h,
  jpegScan fuel bytes offset = Sof w h -> 0 <= w < 2 ^ 16 /\ 0 <= h < 2 ^ 16.
Proof.
  induction fuel as [|fuel IH]; intros offset w h; cbn [jpegScan]; [discriminate|].
  cbv zeta.
  destruct (negb _); [discriminate|].
  destruct (negb _); [apply IH|].
  destruct (_ || _); [discriminate|].
  destruct (_ <=? _)%nat; [discriminate|].
  destruct (_ <? 2); [discriminate|].
  destruct (_ && _); [|apply IH].
  intros [= <- <-]. split; apply readU16BE_range.
Qed.

Lemma sniffDimensions_range bytes w h :
  sniffDimensions bytes = Some (w, h) -> 0 <= w < 2 ^ 32 /\ 0 <= h < 2 ^ 32.
Proof.
  unfold sniffDimensions.
  destruct (_ && byteIs bytes 3 71).
  { intros [= <- <-]. split; apply ushr_range. }
  destruct (_ && byteIs bytes 2 70).
  { intros [= <- <-]. split; apply ushr_range. }
  destruct (_ && byteIs bytes 1 77).
  { cbv zeta. intros [= <- <-].
    pose proof (readU32LE_range bytes 18) as R1.
    pose proof (readU32LE_range bytes 22) as R2.
    split; [exact R1|].
    generalize dependent (readU32LE bytes 22). intros r R2.
    destruct (Z.ltb_spec 2147483647 r); lia. }
  match goal with
  | |- context [if ?c then jpegScan ?f ?b ?o else NoSof] =>
      destruct (if c then jpegScan f b o else NoSof) as [w' h'| |] eqn:E;
      [destruct c; [|discriminate E]| |]
  end.
  { intros [= <- <-]. apply jpegScan_range in E. lia. }
  all: destruct (_ && byteIs bytes 11 80); [|discriminate].
  all: destruct (str_eqb _ _ && _).
  all: try (cbv zeta; rewrite !le24_read; intros [= <- <-];
            pose proof (le24_range bytes 24); pose proof (le24_range bytes 27); lia).
  all: destruct (_ && byteIs bytes 20 47); [|discriminate].
  all: cbv zeta; intros [= <- <-];
    pose proof (le32_range bytes 21) as R; rewrite <- readU32LE_le32 in R;
    rewrite (band_14 _ R), (band_sar_14 _ R);
    pose proof (Z.mod_pos_bound (readU32LE bytes 21) (2 ^ 14));
    pose proof (Z.mod_pos_bound (readU32LE bytes 21 / 2 ^ 14) (2 ^ 14)); lia.
Qed.

End Ranges.

Section Bounds.
Context {T : Type} `{JSNumber T}.

(** Whatever the bytes, the byte parser returns whole numbers that are
    not negative and fit in 32 bits. *)
Theorem dimensions_in_range (bytes : Uint8Array) (contentType : jsstring) :
  exists w h : Z,
    getImageDimensions None bytes contentType
    = Return {| width := num_of_Z w; height := num_of_Z h |}
    /\ (0 <= w < 2 ^ 32)%Z /\ (0 <= h < 2 ^ 32)%Z.
Proof.
  unfold getImageDimensions. destruct (sniffDimensions bytes) as [[w h]|] eqn:E.
  - exists w, h. split; [reflexivity|]. exact (sniffDimensions_range _ _ _ E).
  - exists 96%Z, 96%Z. split; [reflexivity|]. lia.
Qed.

End Bounds.

(** ** Worked examples *)

Example sanitize_example :
  sanitizeHtml None
    (js "a<!-- x -->b<ScRipt src=x>alert(1)</script >c</SCRIPT>d<p onclick=foo() id=x>hi</p>"
     ++ js "<a href='  JavaScript:alert(1)' x>y</a>")
  = js "abd<p id=x>hi</p><a href=" ++ [dquote] ++ js "#" ++ [dquote] ++ js " x>y</a>".
Proof. vm_compute. reflexivity. Qed.

(** The check of [hasHtmlContent] itself has no special case: a line break
    is one of the tags that render. *)
Example hasHtmlContent_counts_line_breaks :
  hasHtmlContent None (js "<br><br>") = Return true.
Proof. vm_compute. reflexivity. Qed.

Example jpeg_example :
  sniffDimensions
    [xff; xd8; xff; xe0; x00; x04; x00; x00; xff; xff; xc0; x00; x11; x08; x01; x02; x03; x04;
     x00; x00]
  = Some (772, 258)%Z.
Proof. vm_compute. reflexivity. Qed.

Example png_example :
  sniffDimensions
    ([x89; x50; x4e; x47; x0d; x0a; x1a; x0a; x00; x00; x00; x0d; x49; x48; x44; x52]
     ++ [x00; x00; x07; xd0] ++ [x00; x00; x0b; xb8])
  = Some (2000, 3000)%Z.
Proof. vm_compute. reflexivity. Qed.

Example decode_example :
  decodeHtmlEntities (js "x&lt;&#x41;&#66;&bogus;&#x110000;&AMP;")
  = js "x<AB&bogus;&".
Proof. vm_compute. reflexivity. Qed.

Example break_example :
  appendHighlightedRunsFromHtml
    (fun cls => getHighlightColor None (classListOf cls))
    (appendCodeTextRuns None) (js "24292E") (js "a<br/><br>b") []
  = Return [styledRun None (js "a") (js "24292E"); lineBreak; lineBreak;
            styledRun None (js "b") (js "24292E")].
Proof. vm_compute. reflexivity. Qed.

(** A narrow, tall image: 50 * (912 / 1600) is 28.5 in exact arithmetic,
    the product the program holds is just below it, and the width comes
    out as 28. *)
Example narrow_tall_image :
  calculateImageDimensions 50%float 1600%float
  = {| width := 28%float; height := 912%float |}.
Proof. vm_compute. reflexivity. Qed.

(** A size that is not finite is not fitted: the product of infinity and
    the zero ratio is NaN. *)
Example infinite_width_is_not_fitted :
  calculateImageDimensions PrimFloat.infinity 100%float
  = {| width := PrimFloat.nan; height := 0%float |}.
Proof. vm_compute. reflexivity. Qed.

(** Math.round keeps the sign of a number it rounds to zero from below. *)
Example round_of_minus_a_quarter :
  f64_round (-0.25)%float = PrimFloat.neg_zero
  /\ f64_round (-0.5)%float = PrimFloat.neg_zero
  /\ f64_round (0.5)%float = 1%float
  /\ f64_round (-1.5)%float = (-1)%float
  /\ f64_round (2.5)%float = 3%float.
Proof. vm_compute. repeat split; reflexivity. Qed.

(** Math.min puts -0 below +0. *)
Example min_of_zeros :
  f64_min 0%float PrimFloat.neg_zero = PrimFloat.neg_zero
  /\ f64_min PrimFloat.neg_zero 0%float = PrimFloat.neg_zero
  /\ f64_min 1%float PrimFloat.nan = PrimFloat.nan.
Proof. vm_compute. repeat split; reflexivity. Qed.

(** A class that is only the namespace prefix names nothing, whatever the
    table holds. *)
Example prefix_only_class_is_skipped :
  getHighlightColor (themeOf (js "24292E") {[ js "keyword" := js "#FF0000" ]} None)
    (classListOf (Some [js "hljs-"; js "hljs-keyword"]))
  = Return (Some (js "FF0000")).
Proof. vm_compute. reflexivity. Qed.
